(** * The jsii object store: kernel registry, interface closure, instance-ID
      sequence, type markers and the host-side reference table.

    Shallow embedding of
    - [lib/object-store/sequence.ts]              (module [Seq]),
    - [lib/interface-collection.ts]               (module [IC]),
    - [lib/object-store/object-handle.ts]         (module [Handle], the
      proxy-based version with [hasProxy] / [proxy]),
    - [lib/object-store/object-store.ts]          (module [Kernel]),
    - [registerType] / [typeFQN] of the same file (module [TypeMarker]),
    - [finalize] of the earlier store             (module [Legacy]),
    - the Java runtime's [ObjectStore]            (module [Host]).

    Modelling conventions.
    - A JavaScript number is an IEEE 754 double.  Those that hold integers
      are modelled by the integer they hold, [Infinity] by 2^1024; a sum is
      rounded to the nearest double, and a number prints as the language
      prints it.
    - A JavaScript [Set] is a duplicate-free list in insertion order; a [Map]
      keyed by strings and a [WeakMap] keyed by objects are finite maps
      ([gmap]), objects being keys by their identity.
    - Exceptions do not roll back mutations: every stateful operation returns
      its outcome together with the state reached when it returned or threw.
    - Garbage collection is an action of the environment. *)

From Stdlib Require Import ZArith Ascii String List Bool Lia DecimalString DecimalZ.
From stdpp Require Import base option list sorting gmap strings.

Local Open Scope string_scope.
Local Open Scope Z_scope.

(** ** Outcomes and the state-and-exception monad *)

(** The exceptions the modelled code raises, named after the error kinds of
    the specification. *)
Inductive Error : Type :=
  | NullArgument      (* TypeError: Attempted to register "null" object! *)
  | UnknownReference  (* Error: Could not find handle registered with ID *)
  | StillReachable    (* AssertionError: Attempted to delete user-reachable object *)
  | InvalidType       (* Error: Expected an interface / a class, but received ... *)
  | TypeNotFound      (* resolveType threw *)
  | StackOverflow     (* RangeError: unbounded recursion *)
  | InvalidSequence   (* AssertionError of the Sequence constructor *)
  | JSTypeError       (* TypeError raised by the JavaScript runtime *)
  | IllegalState      (* Java: IllegalStateException *)
  | NullPointer.      (* Java: NullPointerException *)

Inductive Outcome (A : Type) : Type :=
  | Returns (a : A)
  | Throws (e : Error).
Arguments Returns {A} a.
Arguments Throws {A} e.

Definition M (S A : Type) : Type := S -> Outcome A * S.

Definition ret {S A} (a : A) : M S A := fun s => (Returns a, s).
Definition throw {S A} (e : Error) : M S A := fun s => (Throws e, s).
Definition bind {S A B} (m : M S A) (k : A -> M S B) : M S B :=
  fun s => match m s with
           | (Returns a, s') => k a s'
           | (Throws e, s') => (Throws e, s')
           end.
Definition gets {S A} (f : S -> A) : M S A := fun s => (Returns (f s), s).
Definition modify {S} (f : S -> S) : M S unit := fun s => (Returns tt, f s).

Notation "'do' x <- m ; k" := (bind m (fun x => k))
  (at level 10, x name, m at level 100, k at level 200).
Notation "'do_' m ; k" := (bind m (fun _ => k))
  (at level 10, m at level 100, k at level 200).

(** [for (const x of xs) body(x)]: stops at the first exception. *)
Fixpoint forM_ {S A} (xs : list A) (body : A -> M S unit) : M S unit :=
  match xs with
  | [] => ret tt
  | x :: xs' => bind (body x) (fun _ => forM_ xs' body)
  end.

(** ** JavaScript [Set<string>]: insertion-ordered, duplicate-free *)

Definition set_has (x : string) (l : list string) : bool := bool_decide (x ∈ l).

Definition set_add (x : string) (l : list string) : list string :=
  if set_has x l then l else l ++ [x].

Definition set_delete (x : string) (l : list string) : list string :=
  filter (fun y => y ≠ x) l.

(** [new Set(array)] *)
Definition set_of_list (xs : list string) : list string :=
  fold_left (fun acc x => set_add x acc) xs [].

(** [for (const x of xs) set.delete(x)] *)
Definition set_delete_all (xs : list string) (l : list string) : list string :=
  fold_left (fun acc x => set_delete x acc) xs l.

(** [Array.prototype.sort()] on strings: insertion into increasing order of
    the code units (FQNs are ASCII). *)
Fixpoint sort_insert (x : string) (l : list string) : list string :=
  match l with
  | [] => [x]
  | y :: l' => if String.leb x y then x :: l else y :: sort_insert x l'
  end.

Definition sort_strings (l : list string) : list string :=
  fold_right sort_insert [] l.

(** ** JavaScript numbers that hold integers *)

(** The decimal numeral of an integer. *)
Definition string_of_Z (n : Z) : string := NilEmpty.string_of_int (Z.to_int n).

(** The double nearest to the integer [n], ties to the even significand:
    every integer of absolute value below 2^53 is a double; beyond, a double
    has a significand of 53 bits, so that the doubles from 2^e to 2^(e+1) are
    the multiples of 2^(e-52). *)
Definition js_round (n : Z) : Z :=
  let m := Z.abs n in
  if m <? 2 ^ 53 then n
  else
    let ulp := 2 ^ (Z.log2 m - 52) in
    let q := m / ulp in
    let r := m mod ulp in
    let q' := if 2 * r <? ulp then q
              else if ulp <? 2 * r then q + 1
              else if Z.even q then q else q + 1 in
    Z.sgn n * (q' * ulp).

(** The largest finite double is 2^1024 - 2^971; what rounds to 2^1024 or
    more is [Infinity], which 2^1024 stands for. *)
Definition Infinity : Z := 2 ^ 1024.

(** [Number.isInteger(x)] for such a number: it is finite. *)
Definition isInteger (x : Z) : bool := Z.abs x <? Infinity.

(** [x + y] for numbers that are not negative. *)
Definition js_add (x y : Z) : Z := Z.min (js_round (x + y)) Infinity.

(** [Number::toString] for an integer [x >= 2^53]: the decimal digits [s],
    as few as possible, such that [s * 10^(n-k)] rounds to [x]; among these
    the one nearest to [x]. *)
Definition digits (x : Z) : Z := Z.of_nat (String.length (string_of_Z x)).

Definition shortest_at (x p : Z) : option Z :=
  let lo := x / 10 ^ p in
  let hi := lo + 1 in
  let ok s := js_round (s * 10 ^ p) =? x in
  match ok lo, ok hi with
  | true, true =>
      let dl := x - lo * 10 ^ p in
      let dh := hi * 10 ^ p - x in
      Some (if dl <? dh then lo else if dh <? dl then hi
            else if Z.even lo then lo else hi)
  | true, false => Some lo
  | false, true => Some hi
  | false, false => None
  end.

(** The search from [k] digits upwards; 17 digits always tell a double. *)
Fixpoint shortest (x d : Z) (k : nat) (tries : nat) : Z * Z :=
  match tries with
  | O => (x, d)
  | S tries' =>
      match shortest_at x (d - Z.of_nat k) with
      | Some s => (s, Z.of_nat k)
      | None => shortest x d (S k) tries'
      end
  end.

Fixpoint zeros (n : nat) : string :=
  match n with O => "" | S n' => String "0" (zeros n') end.

(** [d.ddd] followed by [e+] and the exponent. *)
Definition exponent_form (s k n : Z) : string :=
  match string_of_Z s with
  | String c rest =>
      String c (if k =? 1 then "" else String "." rest) ++ "e+" ++ string_of_Z (n - 1)
  | EmptyString => ""
  end.

Definition positive_to_string (x : Z) : string :=
  if x <? 2 ^ 53 then string_of_Z x
  else if Infinity <=? x then "Infinity"
  else
    let d := digits x in
    let '(s, k, n) :=
      if js_round (10 ^ d) =? x then (1, 1, d + 1)
      else let '(s, k) := shortest x d 1 17 in (s, k, d) in
    if n <=? 21 then string_of_Z s ++ zeros (Z.to_nat (n - k))
    else exponent_form s k n.

(** A number in a template literal. *)
Definition number_to_string (x : Z) : string :=
  if x <? 0 then String "-" (positive_to_string (- x)) else positive_to_string x.

(** ** sequence.ts *)

Module Seq.

Record Sequence : Type := mkSequence { stride : Z; nextValue : Z }.

(** [new Sequence(origin, stride)], for arguments that hold integers or
    are infinite. *)
Definition new (origin stride : Z) : Outcome Sequence :=
  if negb ((0 <=? origin) && isInteger origin) then Throws InvalidSequence
  else if negb ((0 <? stride) && isInteger stride) then Throws InvalidSequence
  else Returns {| stride := stride; nextValue := origin |}.

(** The default arguments [origin = 10000, stride = 1]. *)
Definition default : Sequence := {| stride := 1; nextValue := 10000 |}.

(** [next()]: returns the current value; [this.nextValue += this.stride]. *)
Definition next : M Sequence Z :=
  fun s => (Returns (nextValue s),
            {| stride := stride s; nextValue := js_add (nextValue s) (stride s) |}).

(** The result of the [(n+1)]-th call of [next()] on [s]. *)
Fixpoint nth_next (n : nat) (s : Sequence) : Outcome Z :=
  match n with
  | O => fst (next s)
  | S n' => nth_next n' (snd (next s))
  end.

End Seq.

(** ** interface-collection.ts *)

Module IC.

Inductive TypeKind : Type := KClass | KInterface | KEnum.

(** The part of [spec.Type] the collection reads. *)
Record TypeInfo : Type := mkType {
  kind : TypeKind;
  base : option string;
  interfaces : option (list string)
}.

Definition isInterfaceType (ti : TypeInfo) : bool :=
  match kind ti with KInterface => true | _ => false end.

Definition isClassType (ti : TypeInfo) : bool :=
  match kind ti with KClass => true | _ => false end.

(** Modelled from the spec: the constant [EMPTY_OBJECT_FQN] of
    [serialization.ts], the class FQN [Object] of anonymous instances. *)
Definition EMPTY_OBJECT_FQN : string := "Object".

Section WithTypes.

(** [resolveType]: the loaded type system; resolving an unknown FQN throws. *)
Variable types : gmap string TypeInfo.

Definition resolveType {S} (fqn : string) : M S TypeInfo :=
  match types !! fqn with
  | Some ti => ret ti
  | None => throw TypeNotFound
  end.

(** Bounds on the depth of the recursions: an interface is walked only when
    it was just added, a base chain that never ends overflows the stack. *)
Definition interface_fuel : nat := S (S (size types)).
Definition class_fuel : nat := S (size types).

(** [addFromInterface(fqn)] on the field [interfaces]. *)
Fixpoint addFromInterface (fuel : nat) (fqn : string) : M (list string) unit :=
  match fuel with
  | O => throw StackOverflow
  | S fuel' =>
      do ti <- resolveType fqn;
      if negb (isInterfaceType ti) then throw InvalidType
      else match interfaces ti with
           | None => ret tt
           | Some ifaces =>
               forM_ ifaces (fun iface =>
                 do seen <- gets (set_has iface);
                 if seen then ret tt
                 else do_ modify (set_add iface);
                      addFromInterface fuel' iface)
           end
  end.

(** [addFromClass(fqn)]; [if (ti.base)] is false for the empty string too. *)
Fixpoint addFromClass (fuel : nat) (fqn : string) : M (list string) unit :=
  match fuel with
  | O => throw StackOverflow
  | S fuel' =>
      do ti <- resolveType fqn;
      if negb (isClassType ti) then throw InvalidType
      else
        do_ match base ti with
            | Some b => if bool_decide (b = "") then ret tt
                        else addFromClass fuel' b
            | None => ret tt
            end;
        match interfaces ti with
        | None => ret tt
        | Some ifaces =>
            forM_ ifaces (fun iface =>
              do seen <- gets (set_has iface);
              if seen then ret tt
              else do_ modify (set_add iface);
                   addFromInterface interface_fuel iface)
        end
  end.

(** [new InterfaceCollection(resolveType, classFQN)] *)
Definition new (classFQN : string) : Outcome (list string) :=
  if bool_decide (classFQN = EMPTY_OBJECT_FQN) then Returns []
  else match addFromClass class_fuel classFQN [] with
       | (Returns _, ifs) => Returns ifs
       | (Throws e, _) => Throws e
       end.

End WithTypes.

End IC.

(** ** object-handle.ts *)

(** JavaScript objects by identity.  [RealObjectProxy] is a proxy minted by
    an [ObjectHandle]: [new Proxy(object, new RealObjectProxyHandler(object))],
    with its target, which is also the [realObject] of its handler; every
    other object is [Plain]. *)
Inductive Obj : Type :=
  | Plain (addr : nat)
  | RealObjectProxy (addr : nat) (real : Obj).

Fixpoint obj_to_list (o : Obj) : list nat :=
  match o with
  | Plain a => [a]
  | RealObjectProxy p r => p :: obj_to_list r
  end.

Fixpoint obj_of_list (l : list nat) : option Obj :=
  match l with
  | [] => None
  | a :: l' => match l' with
               | [] => Some (Plain a)
               | _ => RealObjectProxy a <$> obj_of_list l'
               end
  end.

(** The wire reference [{ $jsii.byref, $jsii.interfaces? }]. *)
Record ObjRef : Type := mkObjRef {
  TOKEN_REF : string;
  TOKEN_INTERFACES : option (list string)
}.

(** The JavaScript heap as far as the handles see it: which of the proxies
    minted so far are still alive ([false] once collected), and the
    [FinalizationRegistry], from a registered proxy to its held value (the
    address of the handle that minted it). *)
Record Runtime : Type := mkRuntime {
  proxies : list bool;
  registry : gmap nat nat
}.

Module Handle.

Record ObjectHandle : Type := mkHandle {
  classFQN : string;
  instanceId : string;
  object : Obj;
  proxyReference : option Obj;          (* WeakRef to the proxy *)
  declaredInterfaces : list string;
  providedInterfaces : list string
}.

(** The descriptor that the trap [getOwnPropertyDescriptor] of
    [RealObjectProxyHandler] returns for [realObjectSymbol]: its value and
    whether it is configurable. *)
Definition realObject_descriptor (real : Obj) : Obj * bool := (real, false).

(** [Object.getOwnPropertyDescriptor(instance, realObjectSymbol)].  No
    object has an own property under that symbol, which is private to the
    handler; so an object that is not such a proxy answers [undefined].  On
    a minted proxy the trap runs, and [[GetOwnProperty]] of a proxy checks
    what it returned against the target: a property that the target does not
    have may not be reported as non-configurable, a TypeError is thrown. *)
Definition getOwnPropertyDescriptor (instance : Obj) : Outcome (option Obj) :=
  match instance with
  | Plain _ => Returns None
  | RealObjectProxy _ real =>
      let '(value, configurable) := realObject_descriptor real in
      if configurable then Returns (Some value) else Throws JSTypeError
  end.

(** [types.isProxy(instance)] *)
Definition isProxy (instance : Obj) : bool :=
  match instance with RealObjectProxy _ _ => true | Plain _ => false end.

(** [ObjectHandle.realObject(instance)] *)
Definition realObject (instance : Obj) : Outcome Obj :=
  if isProxy instance then
    match getOwnPropertyDescriptor instance with
    | Returns (Some value) => Returns value
    | Returns None => Returns instance
    | Throws e => Throws e
    end
  else Returns instance.

(** Modelled from the spec: the real referent of an instance, which the
    documentation of [realObject] promises: the target of a proxy minted by
    a handle, and any other instance itself. *)
Definition referent (instance : Obj) : Obj :=
  match instance with
  | RealObjectProxy _ real => real
  | Plain _ => instance
  end.

Definition proxy_addr (p : Obj) : nat :=
  match p with Plain a => a | RealObjectProxy a _ => a end.

(** [weakRef.deref()] *)
Definition deref (rt : Runtime) (p : Obj) : option Obj :=
  match proxies rt !! proxy_addr p with
  | Some true => Some p
  | _ => None
  end.

(** [this.proxyReference?.deref()] *)
Definition existing_proxy (rt : Runtime) (h : ObjectHandle) : option Obj :=
  match proxyReference h with
  | Some w => deref rt w
  | None => None
  end.

(** [get hasProxy()] *)
Definition hasProxy (rt : Runtime) (h : ObjectHandle) : bool :=
  match existing_proxy rt h with Some _ => true | None => false end.

(** [get interfaces()] *)
Definition interfaces (h : ObjectHandle) : list string :=
  sort_strings (declaredInterfaces h).

(** [get objRef()] *)
Definition objRef (h : ObjectHandle) : ObjRef :=
  let ifs := interfaces h in
  {| TOKEN_INTERFACES := if (0 <? length ifs)%nat then Some ifs else None;
     TOKEN_REF := instanceId h |}.

(** [get proxy()] of the handle at address [self]. *)
Definition proxy (self : nat) : M (ObjectHandle * Runtime) Obj :=
  fun '(h, rt) =>
    match existing_proxy rt h with
    | Some existing => (Returns existing, (h, rt))
    | None =>
        let a := length (proxies rt) in
        let p := RealObjectProxy a (object h) in
        (Returns p,
         ({| classFQN := classFQN h; instanceId := instanceId h;
             object := object h; proxyReference := Some p;
             declaredInterfaces := declaredInterfaces h;
             providedInterfaces := providedInterfaces h |},
          {| proxies := proxies rt ++ [true];
             registry := <[a := self]> (registry rt) |}))
    end.

Definition with_interfaces (h : ObjectHandle) (declared provided : list string)
  : ObjectHandle :=
  {| classFQN := classFQN h; instanceId := instanceId h; object := object h;
     proxyReference := proxyReference h;
     declaredInterfaces := declared; providedInterfaces := provided |}.

Section WithTypes.

Variable types : gmap string IC.TypeInfo.

(** [this.providedInterfaces.addFromInterface(fqn)] *)
Definition provide (fqn : string) : M ObjectHandle unit :=
  fun h =>
    let '(r, provided) :=
      IC.addFromInterface types (IC.interface_fuel types) fqn (providedInterfaces h) in
    (r, with_interfaces h (declaredInterfaces h) provided).

(** The final loop of the constructor and of [mergeInterfaces]. *)
Definition minimise : M ObjectHandle unit :=
  modify (fun h =>
    with_interfaces h
      (set_delete_all (providedInterfaces h) (declaredInterfaces h))
      (providedInterfaces h)).

(** [new ObjectHandle(opts)]: draws the instance ID from the sequence first;
    when the interface collection throws, the number stays consumed. *)
Definition new (classFQN : string) (instance : Obj) (interfaceFQNs : list string)
  : M Seq.Sequence ObjectHandle :=
  do n <- Seq.next;
  match IC.new types classFQN with
  | Throws e => throw e
  | Returns provided =>
      let h := {| classFQN := classFQN;
                  instanceId := classFQN ++ "@" ++ number_to_string n;
                  object := instance; proxyReference := None;
                  declaredInterfaces := set_of_list interfaceFQNs;
                  providedInterfaces := provided |} in
      match (do_ forM_ (declaredInterfaces h) provide; minimise) h with
      | (Returns _, h') => ret h'
      | (Throws e, _) => throw e
      end
  end.

(** [mergeInterfaces(interfaceFQNs)] *)
Definition mergeInterfaces (interfaceFQNs : list string) : M ObjectHandle unit :=
  if (length interfaceFQNs =? 0)%nat then ret tt
  else
    do_ forM_ interfaceFQNs (fun fqn =>
          do_ provide fqn;
          modify (fun h =>
            with_interfaces h (set_add fqn (declaredInterfaces h))
                            (providedInterfaces h)));
    minimise.

End WithTypes.

End Handle.

(** ** object-store.ts (kernel) *)

#[global] Instance Obj_eq_dec : EqDecision Obj.
Proof. solve_decision. Defined.

Lemma obj_of_to_list (o : Obj) : obj_of_list (obj_to_list o) = Some o.
Proof.
  induction o as [a|p r IH]; [done|].
  cbn [obj_to_list obj_of_list]. rewrite IH.
  destruct r; reflexivity.
Qed.

#[global] Instance Obj_countable : Countable Obj :=
  inj_countable obj_to_list obj_of_list obj_of_to_list.

Module Kernel.

Import Handle.

(** The lifecycle events; the [stats] argument is the same object each time. *)
Inductive Event : Type :=
  | Managed (instanceId : string)
  | Retained (instanceId : string)
  | Releasable (instanceId : string)
  | Unmanaged (instanceId : string).

(** The fields of [ObjectStore].  Handles are mutable objects shared by
    [handles], [instanceInfo] and the finalization registry: they live in
    [heap], in order of creation, and are named by their index.  [events] is
    the log of what [emit] was called with (listeners only observe). *)
Record ObjectStore : Type := mkStore {
  resolveType : gmap string IC.TypeInfo;
  idSequence : Seq.Sequence;
  heap : list ObjectHandle;
  handles : gmap string nat;
  instanceInfo : gmap Obj nat;
  runtime : Runtime;
  finalized : list string;
  events : list Event
}.

(** [new ObjectStore(resolveType)] *)
Definition new (resolveType : gmap string IC.TypeInfo) : ObjectStore :=
  {| resolveType := resolveType; idSequence := Seq.default; heap := [];
     handles := ∅; instanceInfo := ∅;
     runtime := {| proxies := []; registry := ∅ |};
     finalized := []; events := [] |}.

Definition set_idSequence (q : Seq.Sequence) (s : ObjectStore) : ObjectStore :=
  {| resolveType := resolveType s; idSequence := q; heap := heap s;
     handles := handles s; instanceInfo := instanceInfo s;
     runtime := runtime s; finalized := finalized s; events := events s |}.

Definition set_heap (hp : list ObjectHandle) (s : ObjectStore) : ObjectStore :=
  {| resolveType := resolveType s; idSequence := idSequence s; heap := hp;
     handles := handles s; instanceInfo := instanceInfo s;
     runtime := runtime s; finalized := finalized s; events := events s |}.

Definition set_handles (m : gmap string nat) (s : ObjectStore) : ObjectStore :=
  {| resolveType := resolveType s; idSequence := idSequence s; heap := heap s;
     handles := m; instanceInfo := instanceInfo s;
     runtime := runtime s; finalized := finalized s; events := events s |}.

Definition set_instanceInfo (m : gmap Obj nat) (s : ObjectStore) : ObjectStore :=
  {| resolveType := resolveType s; idSequence := idSequence s; heap := heap s;
     handles := handles s; instanceInfo := m;
     runtime := runtime s; finalized := finalized s; events := events s |}.

Definition set_runtime (rt : Runtime) (s : ObjectStore) : ObjectStore :=
  {| resolveType := resolveType s; idSequence := idSequence s; heap := heap s;
     handles := handles s; instanceInfo := instanceInfo s;
     runtime := rt; finalized := finalized s; events := events s |}.

Definition set_finalized (f : list string) (s : ObjectStore) : ObjectStore :=
  {| resolveType := resolveType s; idSequence := idSequence s; heap := heap s;
     handles := handles s; instanceInfo := instanceInfo s;
     runtime := runtime s; finalized := f; events := events s |}.

(** [this.emit(event, instanceId, this.stats)] *)
Definition emit (e : Event) : M ObjectStore unit :=
  modify (fun s =>
    {| resolveType := resolveType s; idSequence := idSequence s; heap := heap s;
       handles := handles s; instanceInfo := instanceInfo s;
       runtime := runtime s; finalized := finalized s;
       events := events s ++ [e] |}).

(** Running a method of the handle at address [a] against the store. *)
Definition on_handle {A} (a : nat) (m : M (ObjectHandle * Runtime) A) : M ObjectStore A :=
  fun s =>
    match heap s !! a with
    | None => (Throws JSTypeError, s)
    | Some h =>
        let '(r, (h', rt')) := m (h, runtime s) in
        (r, set_runtime rt' (set_heap (<[a := h']> (heap s)) s))
    end.

(** A method that touches the handle only. *)
Definition handle_only {A} (m : M ObjectHandle A) : M (ObjectHandle * Runtime) A :=
  fun '(h, rt) => let '(r, h') := m h in (r, (h', rt)).

(** [this.idSequence] seen from the handle constructor. *)
Definition on_sequence {A} (m : M Seq.Sequence A) : M ObjectStore A :=
  fun s => let '(r, q) := m (idSequence s) in (r, set_idSequence q s).

(** Allocation of a new handle object. *)
Definition alloc (h : ObjectHandle) : M ObjectStore nat :=
  fun s => (Returns (length (heap s)), set_heap (heap s ++ [h]) s).

(** [this.handles.get(iid)?.hasProxy], as a boolean condition. *)
Definition handle_hasProxy (s : ObjectStore) (iid : string) : bool :=
  match handles s !! iid with
  | Some a => match heap s !! a with
              | Some h => hasProxy (runtime s) h
              | None => false
              end
  | None => false
  end.

(** [tryGetHandle(instance)] *)
Definition tryGetHandle (instance : Obj) : M ObjectStore (option nat) :=
  fun s => match realObject instance with
           | Returns real => (Returns (instanceInfo s !! real), s)
           | Throws e => (Throws e, s)
           end.

(** [getHandle(instanceId)] *)
Definition getHandle (instanceId : string) : M ObjectStore nat :=
  fun s => match handles s !! instanceId with
           | Some a => (Returns a, s)
           | None => (Throws UnknownReference, s)
           end.

(** [delete(ref)] *)
Definition delete (ref : ObjRef) : M ObjectStore unit :=
  let instanceId := TOKEN_REF ref in
  do reachable <- gets (fun s => handle_hasProxy s instanceId);
  if reachable then throw StillReachable
  else
    do present <- gets (fun s => bool_decide (is_Some (handles s !! instanceId)));
    do_ modify (fun s => set_handles (base.delete instanceId (handles s)) s);
    if present then emit (Unmanaged instanceId) else ret tt.

(** [dereference(ref)] *)
Definition dereference (ref : ObjRef) : M ObjectStore (string * Obj * list string) :=
  do a <- getHandle (TOKEN_REF ref);
  do c <- on_handle a (handle_only (gets classFQN));
  do p <- on_handle a (proxy a);
  do i <- on_handle a (handle_only (gets interfaces));
  ret (c, p, i).

(** [refObject(obj)]: [this.tryGetHandle(obj)?.objRef] *)
Definition refObject (obj : Obj) : M ObjectStore (option ObjRef) :=
  fun s => (match fst (tryGetHandle obj s) with
            | Returns (Some a) => Returns (objRef <$> heap s !! a)
            | Returns None => Returns None
            | Throws e => Throws e
            end, s).

(** [finalizedInstanceIds()] *)
Definition finalizedInstanceIds : M ObjectStore (list string) :=
  fun s =>
    (Returns (filter (fun iid => negb (handle_hasProxy s iid)) (finalized s)),
     set_finalized [] s).

(** [new ObjectHandle<T>(this, { ...opts, finalizationRegistry, resolveType,
    sequence })], as [register] has it.  The constructor of the handle has
    one parameter, [opts], which this call binds to its first argument, the
    store; the options, its second argument, are not read.  The first thing
    in the constructor that can fail is the template literal of the instance
    ID, which evaluates [opts.sequence.next()]: the store has no property
    [sequence] (its sequence is the field [idSequence]), and calling a method
    of [undefined] throws a TypeError.  No number has been drawn and no
    handle exists when it does. *)
Definition construct (classFQN : string) (instance : Obj)
    (interfaceFQNs : list string) : M ObjectStore nat :=
  throw JSTypeError.

(** [register(opts)]; a null instance is [None]. *)
Definition register (classFQN : string) (instance : option Obj)
    (interfaceFQNs : list string) : M ObjectStore (Obj * ObjRef) :=
  match instance with
  | None => throw NullArgument
  | Some inst =>
      do existingHandle <- tryGetHandle inst;
      do types <- gets resolveType;
      do a <- match existingHandle with
              | Some a => ret a
              | None => construct classFQN inst interfaceFQNs
              end;
      do_ match existingHandle with
          | None =>
              do iid <- on_handle a (handle_only (gets instanceId));
              do_ modify (fun s => set_handles (<[iid := a]> (handles s)) s);
              modify (fun s => set_instanceInfo (<[inst := a]> (instanceInfo s)) s)
          | Some _ =>
              on_handle a (handle_only (mergeInterfaces types interfaceFQNs))
          end;
      do p <- on_handle a (proxy a);
      do r <- on_handle a (handle_only (gets objRef));
      ret (p, r)
  end.

(** *** Registration with the handle that the call in [register] expects *)

(** Modelled from the spec: [tryGetHandle] with the referent that the
    documentation of [realObject] promises. *)
Definition tryGetHandle_intended (s : ObjectStore) (instance : Obj) : option nat :=
  instanceInfo s !! referent instance.

(** Modelled from the spec: [register] with a constructor of the handle
    that takes the store as its first argument and the options as its
    second, as the call in [register] is written; the sources hold no such
    revision of the handle.  The handle is built by the constructor of the
    sources from the options, with the sequence of the store.  The
    environment below registers objects through it; the [register] of the
    sources either leaves the store as it is or does the same, so that the
    environment reaches every store that the sources reach. *)
Definition register_intended (classFQN : string) (instance : option Obj)
    (interfaceFQNs : list string) : M ObjectStore (Obj * ObjRef) :=
  match instance with
  | None => throw NullArgument
  | Some inst =>
      do existingHandle <- gets (fun s => tryGetHandle_intended s inst);
      do types <- gets resolveType;
      do a <- match existingHandle with
              | Some a => ret a
              | None =>
                  do h <- on_sequence (Handle.new types classFQN inst interfaceFQNs);
                  alloc h
              end;
      do_ match existingHandle with
          | None =>
              do iid <- on_handle a (handle_only (gets instanceId));
              do_ modify (fun s => set_handles (<[iid := a]> (handles s)) s);
              modify (fun s => set_instanceInfo (<[inst := a]> (instanceInfo s)) s)
          | Some _ =>
              on_handle a (handle_only (mergeInterfaces types interfaceFQNs))
          end;
      do p <- on_handle a (proxy a);
      do r <- on_handle a (handle_only (gets objRef));
      ret (p, r)
  end.

(** [onProxyFinalized(handle)], for the handle at address [a]. *)
Definition onProxyFinalized (a : nat) : M ObjectStore unit :=
  fun s =>
    match heap s !! a with
    | None => (Returns tt, s)
    | Some h =>
        (do_ modify (fun s => set_finalized (set_add (instanceId h) (finalized s)) s);
         emit (Releasable (instanceId h))) s
    end.

(** *** The environment *)

(** The garbage collector reclaims the proxy at address [p]. *)
Definition gc_collect (p : nat) : M ObjectStore unit :=
  modify (fun s =>
    set_runtime {| proxies := <[p := false]> (proxies (runtime s));
                   registry := registry (runtime s) |} s).

(** The finalization registry runs its callback for the reclaimed proxy [p]
    and forgets the registration. *)
Definition gc_finalize (p : nat) : M ObjectStore unit :=
  fun s =>
    match registry (runtime s) !! p, proxies (runtime s) !! p with
    | Some a, Some false =>
        onProxyFinalized a
          (set_runtime {| proxies := proxies (runtime s);
                          registry := base.delete p (registry (runtime s)) |} s)
    | _, _ => (Returns tt, s)
    end.

(** Everything that can happen to a store; [ORegister] is a registration
    by [register_intended]. *)
Inductive Op : Type :=
  | ORegister (classFQN : string) (instance : option Obj) (interfaceFQNs : list string)
  | ODereference (ref : ObjRef)
  | ORefObject (obj : Obj)
  | ODelete (ref : ObjRef)
  | OFinalizedInstanceIds
  | OCollect (p : nat)
  | OFinalize (p : nat).

Definition step (op : Op) (s : ObjectStore) : ObjectStore :=
  match op with
  | ORegister c i fs => snd (register_intended c i fs s)
  | ODereference r => snd (dereference r s)
  | ORefObject o => snd (refObject o s)
  | ODelete r => snd (delete r s)
  | OFinalizedInstanceIds => snd (finalizedInstanceIds s)
  | OCollect p => snd (gc_collect p s)
  | OFinalize p => snd (gc_finalize p s)
  end.

Definition run (ops : list Op) (s : ObjectStore) : ObjectStore :=
  fold_left (fun s op => step op s) ops s.

End Kernel.

(** ** [ObjectStoreStats] of object-store.ts *)

Module Stats.

Import Handle Kernel.

(** [handle.hasProxy] of the handle object at address [a]. *)
Definition address_hasProxy (s : ObjectStore) (a : nat) : bool :=
  match heap s !! a with
  | Some h => hasProxy (runtime s) h
  | None => false
  end.

(** [get managedObjects()]: the size of the store's [handles]. *)
Definition managedObjects (s : ObjectStore) : nat := size (handles s).

(** [get retainedObjects()]: the handles, among the values of [handles],
    that have a live proxy. *)
Definition retainedObjects (s : ObjectStore) : nat :=
  length (filter (fun a => address_hasProxy s a) (map_to_list (handles s)).*2).

End Stats.

(** ** The earlier object store, with [retain] and [release] *)

(** The sources also hold the store of the design that came before the
    proxies: handles keep a weak and an optional strong reference to the
    referent itself, and the finalization registry is keyed by the referent,
    so its callback runs when the managed object itself was reclaimed. *)
Module Legacy.

Record ObjectStore (H : Type) : Type := mkStore {
  handles : gmap string H;
  finalized : list string
}.
Arguments mkStore {H} _ _.
Arguments handles {H} _.
Arguments finalized {H} _.

(** [finalize(instanceId)] *)
Definition finalize {H} (instanceId : string) : M (ObjectStore H) unit :=
  modify (fun s =>
    {| finalized := set_add instanceId (finalized s);
       handles := base.delete instanceId (handles s) |}).

(** [finalizedInstanceIds()] *)
Definition finalizedInstanceIds {H} : M (ObjectStore H) (list string) :=
  fun s => (Returns (finalized s), {| finalized := []; handles := handles s |}).

End Legacy.

(** ** [registerType] and [typeFQN] of object-store.ts *)

Module TypeMarker.

(** A data property descriptor with all four fields present. *)
Record PropertyDescriptor : Type := mkDesc {
  value : string;
  writable : bool;
  enumerable : bool;
  configurable : bool
}.

(** An ordinary JavaScript object, as far as the store looks at it: its own
    property keyed by the store's private symbol [typeInfo], its own
    [constructor] property (the address of an object), whether it is
    extensible, and its prototype. *)
Record JSObject : Type := mkObject {
  marker : option PropertyDescriptor;
  constructor_ : option nat;
  extensible : bool;
  prototype : option nat
}.

(** [ValidateAndApplyPropertyDescriptor] of ECMAScript for such a
    descriptor: [None] when the definition is rejected, else the property
    after the definition. *)
Definition validateAndApply (ext : bool) (current : option PropertyDescriptor)
    (desc : PropertyDescriptor) : option PropertyDescriptor :=
  match current with
  | None => if ext then Some desc else None
  | Some cur =>
      if configurable cur then Some desc
      else if configurable desc then None
      else if negb (eqb (enumerable desc) (enumerable cur)) then None
      else if writable cur then Some desc
      else if writable desc then None
      else if bool_decide (value desc = value cur) then Some cur
      else None
  end.

(** [Object.defineProperty(o, typeInfo, desc)]: throws a [TypeError] when the
    definition is rejected. *)
Definition defineProperty (o : nat) (desc : PropertyDescriptor)
  : M (gmap nat JSObject) unit :=
  fun H =>
    match H !! o with
    | None => (Throws JSTypeError, H)
    | Some ob =>
        match validateAndApply (extensible ob) (marker ob) desc with
        | None => (Throws JSTypeError, H)
        | Some d =>
            (Returns tt,
             <[o := {| marker := Some d; constructor_ := constructor_ ob;
                       extensible := extensible ob;
                       prototype := prototype ob |}]> H)
        end
    end.

(** [registerType(type, fqn)] *)
Definition registerType (type : nat) (fqn : string) : M (gmap nat JSObject) unit :=
  defineProperty type
    {| configurable := false; enumerable := false; value := fqn;
       writable := false |}.

(** Reading a property: the own property, else the prototype's, and so on.
    Prototype chains are finite and without cycles, so no chain is longer
    than the heap is large. *)
Fixpoint lookup_chain {A} (fuel : nat) (H : gmap nat JSObject)
    (own : JSObject -> option A) (o : nat) : option A :=
  match H !! o with
  | None => None
  | Some ob =>
      match own ob with
      | Some v => Some v
      | None =>
          match prototype ob, fuel with
          | Some p, S fuel' => lookup_chain fuel' H own p
          | _, _ => None
          end
      end
  end.

Definition get {A} (H : gmap nat JSObject) (own : JSObject -> option A) (o : nat)
  : option A :=
  lookup_chain (size H) H own o.

(** [typeFQN(value)]: [(value.constructor)[this.typeInfo]]; reading a
    property of [undefined] throws a [TypeError]. *)
Definition typeFQN (v : nat) : M (gmap nat JSObject) (option string) :=
  fun H =>
    match get H constructor_ v with
    | None => (Throws JSTypeError, H)
    | Some c => (Returns (value <$> get H marker c), H)
    end.

End TypeMarker.

(** ** ObjectStore.java (host) *)

Module Host.

Record ObjectHandle : Type := mkHandle {
  instanceId : string;
  weakReference : nat;              (* the address of the WeakReference *)
  strongReference : option nat      (* the referent, or null *)
}.

(** The fields of the host [ObjectStore], and the [WeakReference] objects
    created so far with their referents ([None] once cleared). *)
Record ObjectStore : Type := mkStore {
  objectsById : gmap string ObjectHandle;
  referenceQueue : list nat;
  referenceInstanceId : gmap nat string;
  references : list (option nat)
}.

Definition new : ObjectStore :=
  {| objectsById := ∅; referenceQueue := []; referenceInstanceId := ∅;
     references := [] |}.

(** [weakReference.get()] *)
Definition weak_get (s : ObjectStore) (r : nat) : option nat :=
  match references s !! r with
  | Some (Some o) => Some o
  | _ => None
  end.

(** [ObjectHandle.getReferent()] *)
Definition getReferent (s : ObjectStore) (h : ObjectHandle) : option nat :=
  match strongReference h with
  | Some o => Some o
  | None => weak_get s (weakReference h)
  end.

Definition set_strong (o : option nat) (h : ObjectHandle) : ObjectHandle :=
  {| instanceId := instanceId h; weakReference := weakReference h;
     strongReference := o |}.

Definition set_objectsById (m : gmap string ObjectHandle) (s : ObjectStore)
  : ObjectStore :=
  {| objectsById := m; referenceQueue := referenceQueue s;
     referenceInstanceId := referenceInstanceId s; references := references s |}.

(** [ObjectHandle.retain()] of the handle registered under [id]. *)
Definition handle_retain (id : string) (h : ObjectHandle) : M ObjectStore unit :=
  fun s =>
    let o := weak_get s (weakReference h) in
    let s' := set_objectsById (<[id := set_strong o h]> (objectsById s)) s in
    match o with
    | Some _ => (Returns tt, s')
    | None => (Throws IllegalState, s')
    end.

(** [register(object, instanceId)] *)
Definition register (object : nat) (id : string) : M ObjectStore unit :=
  fun s =>
    match objectsById s !! id with
    | Some h => handle_retain id h s
    | None =>
        let r := length (references s) in
        let h := {| instanceId := id; weakReference := r;
                    strongReference := Some object |} in
        (Returns tt,
         {| objectsById := <[id := h]> (objectsById s);
            referenceQueue := referenceQueue s;
            referenceInstanceId := <[r := id]> (referenceInstanceId s);
            references := references s ++ [Some object] |})
    end.

(** [getObject(instanceId)] *)
Definition getObject (id : string) : M ObjectStore (option nat) :=
  gets (fun s => match objectsById s !! id with
                 | Some h => getReferent s h
                 | None => None
                 end).

(** [release(instanceId)] *)
Definition release (id : string) : M ObjectStore unit :=
  fun s =>
    match objectsById s !! id with
    | Some h => (Returns tt,
                 set_objectsById (<[id := set_strong None h]> (objectsById s)) s)
    | None => (Throws NullPointer, s)
    end.

(** [retain(instanceId)] *)
Definition retain (id : string) : M ObjectStore unit :=
  fun s =>
    match objectsById s !! id with
    | Some h => handle_retain id h s
    | None => (Throws NullPointer, s)
    end.

(** The loop of [getDroppedReferences]: one iteration per polled reference. *)
Fixpoint drain (queue : list nat) (result : gset string) (s : ObjectStore)
  : gset string * ObjectStore :=
  match queue with
  | [] => (result, s)
  | ref :: rest =>
      let polled :=
        {| objectsById := objectsById s; referenceQueue := rest;
           referenceInstanceId := base.delete ref (referenceInstanceId s);
           references := references s |} in
      match referenceInstanceId s !! ref with
      | Some id =>
          drain rest ({[ id ]} ∪ result)
                (set_objectsById (base.delete id (objectsById polled)) polled)
      | None => drain rest result polled
      end
  end.

(** [getDroppedReferences()] *)
Definition getDroppedReferences : M ObjectStore (gset string) :=
  fun s => let '(result, s') := drain (referenceQueue s) ∅ s in (Returns result, s').

(** *** The environment *)

(** Whether a handle of the store holds [o] strongly. *)
Definition strongly_held (s : ObjectStore) (o : nat) : bool :=
  bool_decide (∃ id h, objectsById s !! id = Some h ∧ strongReference h = Some o).

(** The addresses of the weak references whose referent is [o]. *)
Definition refs_to (o : nat) (cells : list (option nat)) : list nat :=
  fst <$> filter (fun p => p.2 = Some o) (imap (fun i c => (i, c)) cells).

(** The collector reclaims the object [o], unless the store holds it
    strongly: every weak reference to [o] is cleared and enqueued. *)
Definition gc_reclaim (o : nat) : M ObjectStore unit :=
  fun s =>
    if strongly_held s o then (Returns tt, s)
    else
      (Returns tt,
       {| objectsById := objectsById s;
          referenceQueue := referenceQueue s ++ refs_to o (references s);
          referenceInstanceId := referenceInstanceId s;
          references :=
            (fun c => if bool_decide (c = Some o) then None else c)
              <$> references s |}).

Inductive Op : Type :=
  | ORegister (object : nat) (id : string)
  | OGetObject (id : string)
  | ORelease (id : string)
  | ORetain (id : string)
  | OGetDroppedReferences
  | OReclaim (o : nat).

Definition step (op : Op) (s : ObjectStore) : ObjectStore :=
  match op with
  | ORegister o id => snd (register o id s)
  | OGetObject id => snd (getObject id s)
  | ORelease id => snd (release id s)
  | ORetain id => snd (retain id s)
  | OGetDroppedReferences => snd (getDroppedReferences s)
  | OReclaim o => snd (gc_reclaim o s)
  end.

Definition run (ops : list Op) (s : ObjectStore) : ObjectStore :=
  fold_left (fun s op => step op s) ops s.

End Host.

(** * Properties *)

(** ** Sets as duplicate-free lists *)

Lemma set_has_true x l : set_has x l = true <-> x ∈ l.
Proof. unfold set_has. apply bool_decide_eq_true. Qed.

Lemma set_has_false x l : set_has x l = false <-> x ∉ l.
Proof. unfold set_has. apply bool_decide_eq_false. Qed.

Lemma elem_of_set_add y x l : y ∈ set_add x l <-> y ∈ l \/ y = x.
Proof.
  unfold set_add. destruct (set_has x l) eqn:E.
  - apply set_has_true in E. split; [auto | intros [?| ->]; auto].
  - rewrite elem_of_app, list_elem_of_singleton. tauto.
Qed.

Lemma NoDup_set_add x l : NoDup l -> NoDup (set_add x l).
Proof.
  intros Hl. unfold set_add. destruct (set_has x l) eqn:E; [done|].
  apply set_has_false in E. apply NoDup_app. split; [done|]. split.
  - intros y Hy Hy'. apply list_elem_of_singleton in Hy'. by subst.
  - apply NoDup_singleton.
Qed.

Lemma elem_of_set_delete y x l : y ∈ set_delete x l <-> y ∈ l /\ y ≠ x.
Proof. unfold set_delete. rewrite list_elem_of_filter. tauto. Qed.

Lemma NoDup_set_delete x l : NoDup l -> NoDup (set_delete x l).
Proof. apply NoDup_filter. Qed.

Lemma elem_of_fold_set_add xs acc y :
  y ∈ fold_left (fun acc x => set_add x acc) xs acc <-> y ∈ acc \/ y ∈ xs.
Proof.
  revert acc. induction xs as [|x xs IH]; intros acc; simpl.
  - rewrite elem_of_nil. tauto.
  - rewrite IH, elem_of_set_add, elem_of_cons. tauto.
Qed.

Lemma elem_of_set_of_list y xs : y ∈ set_of_list xs <-> y ∈ xs.
Proof.
  unfold set_of_list. rewrite elem_of_fold_set_add, elem_of_nil. tauto.
Qed.

Lemma NoDup_set_of_list xs : NoDup (set_of_list xs).
Proof.
  unfold set_of_list. generalize (NoDup_nil_2 (A:=string)).
  generalize (@nil string). induction xs as [|x xs IH]; intros acc Hacc; simpl.
  - done.
  - apply IH. by apply NoDup_set_add.
Qed.

Lemma elem_of_set_delete_all y xs l :
  y ∈ set_delete_all xs l <-> y ∈ l /\ y ∉ xs.
Proof.
  unfold set_delete_all. revert l. induction xs as [|x xs IH]; intros l; simpl.
  - rewrite elem_of_nil. tauto.
  - rewrite IH, elem_of_set_delete, not_elem_of_cons. tauto.
Qed.

Lemma NoDup_set_delete_all xs l : NoDup l -> NoDup (set_delete_all xs l).
Proof.
  unfold set_delete_all. revert l. induction xs as [|x xs IH]; intros l Hl; simpl.
  - done.
  - apply IH. by apply NoDup_set_delete.
Qed.

Lemma elem_of_sort_insert y x l : y ∈ sort_insert x l <-> y = x \/ y ∈ l.
Proof.
  induction l as [|z l IH]; simpl.
  - rewrite list_elem_of_singleton, elem_of_nil. tauto.
  - destruct (String.leb x z).
    + rewrite elem_of_cons. tauto.
    + rewrite !elem_of_cons, IH. tauto.
Qed.

Lemma elem_of_sort_strings y l : y ∈ sort_strings l <-> y ∈ l.
Proof.
  unfold sort_strings. induction l as [|x l IH]; simpl; [done|].
  rewrite elem_of_sort_insert, elem_of_cons, IH. tauto.
Qed.

Lemma NoDup_sort_insert x l : x ∉ l -> NoDup l -> NoDup (sort_insert x l).
Proof.
  induction l as [|z l IH]; simpl; intros Hx Hl.
  - apply NoDup_singleton.
  - apply not_elem_of_cons in Hx as [Hxz Hx]. apply NoDup_cons in Hl as [Hz Hl].
    destruct (String.leb x z).
    + apply NoDup_cons. split; [|by apply NoDup_cons].
      rewrite not_elem_of_cons. auto.
    + apply NoDup_cons. split; [|by apply IH].
      rewrite elem_of_sort_insert. intros [->|?]; auto.
Qed.

Lemma NoDup_sort_strings l : NoDup l -> NoDup (sort_strings l).
Proof.
  unfold sort_strings. induction l as [|x l IH]; simpl; intros Hl.
  - apply NoDup_nil_2.
  - apply NoDup_cons in Hl as [Hx Hl]. apply NoDup_sort_insert; [|auto].
    fold (sort_strings l). by rewrite elem_of_sort_strings.
Qed.

(** ** The monad *)

Lemma bind_inv {S A B} (m : M S A) (k : A -> M S B) s r s' :
  bind m k s = (r, s') ->
  (exists e, m s = (Throws e, s') /\ r = Throws e) \/
  (exists a s1, m s = (Returns a, s1) /\ k a s1 = (r, s')).
Proof.
  unfold bind. destruct (m s) as [[a|e] s1]; intros H.
  - right. eauto.
  - left. inversion H; subst. eauto.
Qed.

Lemma forM_inv_any {S A} (P : S -> Prop) (body : A -> M S unit) xs :
  (forall x s r s', x ∈ xs -> P s -> body x s = (r, s') -> P s') ->
  forall s r s', P s -> forM_ xs body s = (r, s') -> P s'.
Proof.
  induction xs as [|x xs IH]; intros Hbody s r s' HP Hrun; simpl in Hrun.
  - inversion Hrun; by subst.
  - apply bind_inv in Hrun as [(e & H1 & ?)|(a & s1 & H1 & H2)].
    + eapply Hbody; [by left|exact HP|exact H1].
    + eapply IH; [| |exact H2].
      * intros y t v t' Hy. apply Hbody. by right.
      * eapply Hbody; [by left|exact HP|exact H1].
Qed.

(** ** Instance IDs *)

(** Below 2^53 the arithmetic of doubles is that of the integers. *)
Definition safe : Z := 2 ^ 53.

Lemma safe_value : safe = 9007199254740992.
Proof. reflexivity. Qed.

Lemma safe_lt_Infinity : safe < Infinity.
Proof. reflexivity. Qed.

Lemma js_round_exact n : Z.abs n <= safe -> js_round n = n.
Proof.
  intros Hn. unfold js_round. fold safe.
  destruct (Z.abs n <? safe) eqn:Hlt; [done|].
  apply Z.ltb_ge in Hlt. assert (Z.abs n = safe) as Habs by lia.
  rewrite Habs. destruct (Z.abs_eq_or_opp n) as [Heq|Heq]; rewrite Heq in Habs.
  - rewrite Habs. reflexivity.
  - assert (n = - safe) as -> by lia. reflexivity.
Qed.

Lemma js_add_exact x y : 0 <= x -> 0 <= y -> x + y <= safe -> js_add x y = x + y.
Proof.
  intros Hx Hy Hs. unfold js_add. rewrite js_round_exact by lia.
  pose proof safe_lt_Infinity. lia.
Qed.

Lemma number_to_string_exact n : 0 <= n < safe -> number_to_string n = string_of_Z n.
Proof.
  intros [H0 Hn]. unfold number_to_string, positive_to_string. fold safe.
  rewrite (proj2 (Z.ltb_ge n 0)) by done. by rewrite (proj2 (Z.ltb_lt n safe)).
Qed.

Lemma nth_next_spec n s :
  0 <= Seq.nextValue s -> 0 <= Seq.stride s ->
  Seq.nextValue s + Z.of_nat n * Seq.stride s <= safe ->
  Seq.nth_next n s = Returns (Seq.nextValue s + Z.of_nat n * Seq.stride s).
Proof.
  revert s. induction n as [|n IH]; intros s H0 Hs Hb.
  - simpl. f_equal. lia.
  - assert (js_add (Seq.nextValue s) (Seq.stride s) = Seq.nextValue s + Seq.stride s) as Hadd
      by (apply js_add_exact; nia).
    cbn [Seq.nth_next]. unfold Seq.next at 1. cbn [snd].
    rewrite IH; cbn [Seq.nextValue Seq.stride]; rewrite ?Hadd;
      [f_equal; lia|lia|done|lia].
Qed.

Lemma string_of_Z_inj n m : string_of_Z n = string_of_Z m -> n = m.
Proof.
  unfold string_of_Z. intros H. apply DecimalZ.to_int_inj.
  assert (Some (Z.to_int n) = Some (Z.to_int m)) as [= ->]; [|done].
  by rewrite <- !NilEmpty.isi, H.
Qed.

(** The characters of a string. *)
Fixpoint chars (s : string) : list ascii :=
  match s with
  | EmptyString => []
  | String c s' => c :: chars s'
  end.

Lemma chars_append s t : chars (s ++ t) = (chars s ++ chars t)%list.
Proof. induction s as [|c s IH]; simpl; [done|]. by rewrite IH. Qed.

Definition at_sign : ascii := "@"%char.

Lemma string_of_uint_no_at d : at_sign ∉ chars (NilEmpty.string_of_uint d).
Proof.
  induction d; simpl; rewrite ?not_elem_of_cons; try split; try done;
    apply not_elem_of_nil.
Qed.

Lemma string_of_Z_no_at n : at_sign ∉ chars (string_of_Z n).
Proof.
  unfold string_of_Z. destruct (Z.to_int n) as [d|d]; simpl.
  - apply string_of_uint_no_at.
  - rewrite not_elem_of_cons. split; [done|apply string_of_uint_no_at].
Qed.

Lemma append_nil_l (s : string) : "" ++ s = s.
Proof. reflexivity. Qed.

Lemma append_cons_l c (s t : string) : String c s ++ t = String c (s ++ t).
Proof. reflexivity. Qed.

Lemma at_suffix_inj a b d1 d2 :
  at_sign ∉ chars d1 -> at_sign ∉ chars d2 ->
  a ++ "@" ++ d1 = b ++ "@" ++ d2 -> a = b /\ d1 = d2.
Proof.
  intros H1 H2. revert b.
  induction a as [|c a IH]; intros [|c' b] Heq;
    rewrite ?append_cons_l, ?append_nil_l in Heq.
  - by inversion Heq.
  - inversion Heq as [[Hc Hd]]. exfalso. apply H1. rewrite Hd.
    rewrite chars_append. apply elem_of_app. right. simpl. by left.
  - inversion Heq as [[Hc Hd]]. exfalso. apply H2. rewrite <- Hd.
    rewrite chars_append. apply elem_of_app. right. simpl. by left.
  - inversion Heq as [[Hc Hd]]. destruct (IH b Hd) as [-> ->]; done.
Qed.

Lemma instanceId_inj c1 c2 n1 n2 :
  c1 ++ "@" ++ string_of_Z n1 = c2 ++ "@" ++ string_of_Z n2 -> c1 = c2 /\ n1 = n2.
Proof.
  intros H. apply at_suffix_inj in H as [-> H]; auto using string_of_Z_no_at.
  split; [done|]. by apply string_of_Z_inj.
Qed.

(** ** The kernel store *)

Arguments Handle.new : simpl never.
Arguments Handle.mergeInterfaces : simpl never.
Arguments Handle.proxy : simpl never.

(** The steps that open [delete] and the finalization of a proxy. *)
Ltac open_delete :=
  unfold Kernel.delete, bind, gets, throw, modify, Kernel.emit, ret; simpl.

Ltac open_finalize s p :=
  unfold Kernel.gc_finalize, Kernel.onProxyFinalized;
  destruct (registry (Kernel.runtime s) !! p) as [?b|];
    [destruct (proxies (Kernel.runtime s) !! p) as [[|]|]|]; simpl.

Lemma lookup_snoc_length {A} (l : list A) x : (l ++ [x])%list !! length l = Some x.
Proof. by apply list_lookup_middle. Qed.

Lemma insert_snoc_length {A} (l : list A) x y :
  <[length l := y]> (l ++ [x])%list = (l ++ [y])%list.
Proof.
  replace (length l) with (length l + 0)%nat by lia. by rewrite insert_app_r.
Qed.

Section KernelFacts.

Import Handle Kernel.

(** What [get proxy()] does. *)
Lemma proxy_spec a h rt r h' rt' :
  Handle.proxy a (h, rt) = (r, (h', rt')) ->
  exists p, r = Returns p /\ existing_proxy rt' h' = Some p /\
    instanceId h' = instanceId h /\ classFQN h' = classFQN h /\
    object h' = object h /\ declaredInterfaces h' = declaredInterfaces h /\
    providedInterfaces h' = providedInterfaces h /\
    ((h' = h /\ rt' = rt /\ existing_proxy rt h = Some p) \/
     (existing_proxy rt h = None /\
      p = RealObjectProxy (length (proxies rt)) (object h) /\
      proxyReference h' = Some p /\
      proxies rt' = (proxies rt ++ [true])%list /\
      registry rt' = <[length (proxies rt) := a]> (registry rt))).
Proof.
  unfold Handle.proxy. destruct (existing_proxy rt h) as [p|] eqn:E; intros [= <- <- <-].
  - exists p. repeat split; auto.
  - eexists. split; [reflexivity|]. repeat split; simpl; auto.
    + unfold existing_proxy, deref. simpl. by rewrite lookup_snoc_length.
    + right. repeat split; auto.
Qed.

(** The ways [register(opts)] can go for a non-null instance [x]. *)
Inductive RegisterCase (c : string) (x : Obj) (f : list string) (s : ObjectStore)
  : Outcome (Obj * ObjRef) -> ObjectStore -> Prop :=
  | RegDangling a :
      tryGetHandle_intended s x = Some a -> heap s !! a = None ->
      RegisterCase c x f s (Throws JSTypeError) s
  | RegMergeThrows a h e h1 :
      tryGetHandle_intended s x = Some a -> heap s !! a = Some h ->
      mergeInterfaces (resolveType s) f h = (Throws e, h1) ->
      RegisterCase c x f s (Throws e) (set_heap (<[a := h1]> (heap s)) s)
  | RegExisting a h u h1 p h2 rt2 :
      tryGetHandle_intended s x = Some a -> heap s !! a = Some h ->
      mergeInterfaces (resolveType s) f h = (Returns u, h1) ->
      Handle.proxy a (h1, runtime s) = (Returns p, (h2, rt2)) ->
      RegisterCase c x f s (Returns (p, objRef h2))
        (set_runtime rt2 (set_heap (<[a := h2]> (heap s)) s))
  | RegNewThrows e q :
      tryGetHandle_intended s x = None ->
      Handle.new (resolveType s) c x f (idSequence s) = (Throws e, q) ->
      RegisterCase c x f s (Throws e) (set_idSequence q s)
  | RegNew h q p h2 rt2 :
      tryGetHandle_intended s x = None ->
      Handle.new (resolveType s) c x f (idSequence s) = (Returns h, q) ->
      Handle.proxy (length (heap s)) (h, runtime s) = (Returns p, (h2, rt2)) ->
      RegisterCase c x f s (Returns (p, objRef h2))
        {| resolveType := resolveType s; idSequence := q;
           heap := heap s ++ [h2];
           handles := <[instanceId h := length (heap s)]> (handles s);
           instanceInfo := <[x := length (heap s)]> (instanceInfo s);
           runtime := rt2; finalized := finalized s; events := events s |}.

Lemma register_cases c x f s r s' :
  register_intended c (Some x) f s = (r, s') -> RegisterCase c x f s r s'.
Proof.
  unfold register_intended, bind, gets, ret. simpl.
  destruct (tryGetHandle_intended s x) as [a|] eqn:Hx.
  - unfold on_handle at 1. simpl. destruct (heap s !! a) as [h|] eqn:Hh.
    + unfold handle_only at 1.
      destruct (mergeInterfaces (resolveType s) f h) as [[u|e] h1] eqn:Hm.
      * unfold on_handle, handle_only, gets. simpl.
        assert (a < length (heap s))%nat as Ha by (by eapply lookup_lt_Some).
        rewrite list_lookup_insert_eq by done.
        destruct (Handle.proxy a (h1, runtime s)) as [rp [h2 rt2]] eqn:Hp.
        pose proof Hp as Hp'. apply proxy_spec in Hp' as (p & -> & _).
        simpl. rewrite list_lookup_insert_eq by (by rewrite !length_insert).
        intros [= <- <-]. unfold set_runtime, set_heap. simpl.
        rewrite !list_insert_insert_eq. by eapply RegExisting.
      * intros [= <- <-]. unfold set_runtime, set_heap. simpl.
        by eapply (RegMergeThrows c x f s a h e h1).
    + intros [= <- <-]. by eapply RegDangling.
  - unfold on_sequence at 1.
    destruct (Handle.new (resolveType s) c x f (idSequence s)) as [[h|e] q] eqn:Hn.
    + unfold alloc, on_handle, handle_only, gets, modify, bind, ret. simpl.
      rewrite lookup_snoc_length. simpl.
      rewrite insert_snoc_length, lookup_snoc_length.
      destruct (Handle.proxy (length (heap s)) (h, runtime s)) as [rp [h2 rt2]] eqn:Hp.
      pose proof Hp as Hp'. apply proxy_spec in Hp' as (p & -> & _).
      simpl. rewrite !insert_snoc_length, lookup_snoc_length.
      intros [= <- <-]. unfold set_runtime, set_heap. simpl.
      rewrite !insert_snoc_length. by eapply RegNew.
    + intros [= <- <-]. by eapply RegNewThrows.
Qed.

(** The ways [dereference(ref)] can go. *)
Inductive DereferenceCase (ref : ObjRef) (s : ObjectStore)
  : Outcome (string * Obj * list string) -> ObjectStore -> Prop :=
  | DerefUnknown :
      handles s !! TOKEN_REF ref = None ->
      DereferenceCase ref s (Throws UnknownReference) s
  | DerefDangling a :
      handles s !! TOKEN_REF ref = Some a -> heap s !! a = None ->
      DereferenceCase ref s (Throws JSTypeError) s
  | DerefFound a h p h2 rt2 :
      handles s !! TOKEN_REF ref = Some a -> heap s !! a = Some h ->
      Handle.proxy a (h, runtime s) = (Returns p, (h2, rt2)) ->
      DereferenceCase ref s (Returns (classFQN h, p, interfaces h2))
        (set_runtime rt2 (set_heap (<[a := h2]> (heap s)) s)).

Lemma dereference_cases ref s r s' :
  dereference ref s = (r, s') -> DereferenceCase ref s r s'.
Proof.
  unfold dereference, bind, getHandle, ret.
  destruct (handles s !! TOKEN_REF ref) as [a|] eqn:Ha.
  - unfold on_handle, handle_only, gets. simpl.
    destruct (heap s !! a) as [h|] eqn:Hh.
    + assert (a < length (heap s))%nat as Hlt by (by eapply lookup_lt_Some).
      simpl. rewrite list_lookup_insert_eq by done.
      destruct (Handle.proxy a (h, runtime s)) as [rp [h2 rt2]] eqn:Hp.
      pose proof Hp as Hp'. apply proxy_spec in Hp' as (p & -> & _).
      simpl. rewrite list_lookup_insert_eq by (by rewrite !length_insert).
      intros [= <- <-]. unfold set_runtime, set_heap. simpl.
      rewrite !list_insert_insert_eq. by eapply DerefFound.
    + intros [= <- <-]. by eapply DerefDangling.
  - intros [= <- <-]. by apply DerefUnknown.
Qed.

(** [mergeInterfaces] and the constructor touch the interface sets only. *)
Definition same_identity (h h' : ObjectHandle) : Prop :=
  instanceId h' = instanceId h /\ classFQN h' = classFQN h /\
  object h' = object h /\ proxyReference h' = proxyReference h.

Lemma same_identity_refl h : same_identity h h.
Proof. by repeat split. Qed.

Lemma provide_frame types fqn h r h' :
  provide types fqn h = (r, h') ->
  same_identity h h' /\ declaredInterfaces h' = declaredInterfaces h.
Proof.
  unfold provide.
  destruct (IC.addFromInterface _ _ _ _) as [r0 pr]. intros [= <- <-].
  by repeat split.
Qed.

Lemma same_identity_trans h1 h2 h3 :
  same_identity h1 h2 -> same_identity h2 h3 -> same_identity h1 h3.
Proof.
  intros (? & ? & ? & ?) (? & ? & ? & ?). unfold same_identity.
  repeat split; congruence.
Qed.

Lemma merge_body_frame types fqn h r h' :
  (do_ provide types fqn;
   modify (fun h0 : ObjectHandle =>
     with_interfaces h0 (set_add fqn (declaredInterfaces h0))
                     (providedInterfaces h0))) h = (r, h') ->
  same_identity h h' /\
  (NoDup (declaredInterfaces h) -> NoDup (declaredInterfaces h')).
Proof.
  intros Hbody. apply bind_inv in Hbody as [(e' & Hb & _)|(u & t1 & Hb & Hb')].
  - apply provide_frame in Hb as (Hid & Hd). split; [done|]. by rewrite Hd.
  - apply provide_frame in Hb as (Hid & Hd). inversion Hb'; subst; clear Hb'.
    split.
    + eapply same_identity_trans; [exact Hid|]. by repeat split.
    + simpl. intros Hn. apply NoDup_set_add. by rewrite Hd.
Qed.

Lemma mergeInterfaces_frame types f h r h' :
  mergeInterfaces types f h = (r, h') ->
  same_identity h h' /\
  (NoDup (declaredInterfaces h) -> NoDup (declaredInterfaces h')).
Proof.
  unfold mergeInterfaces. destruct (length f =? 0)%nat.
  { intros [= <- <-]. split; [apply same_identity_refl|done]. }
  set (P := fun h0 : ObjectHandle =>
    same_identity h h0 /\
    (NoDup (declaredInterfaces h) -> NoDup (declaredInterfaces h0))).
  assert (forall x t r0 t', x ∈ f -> P t ->
    (do_ provide types x;
     modify (fun h0 : ObjectHandle =>
       with_interfaces h0 (set_add x (declaredInterfaces h0))
                       (providedInterfaces h0))) t = (r0, t') -> P t') as Hstep.
  { intros x t r0 t' _ (Hid & Hnd) Hbody.
    apply merge_body_frame in Hbody as (Hid' & Hnd'). split.
    - by eapply same_identity_trans.
    - auto. }
  assert (P h) as HP0 by (split; [apply same_identity_refl|done]).
  intros Hrun. apply bind_inv in Hrun as [(e & Hrun & _)|(u & h1 & Hrun & Hmin)].
  - by eapply (forM_inv_any P _ f Hstep h).
  - assert (P h1) as (Hid & Hnd) by (by eapply (forM_inv_any P _ f Hstep h)).
    inversion Hmin; subst; clear Hmin. split.
    + eapply same_identity_trans; [exact Hid|]. by repeat split.
    + simpl. intros Hn. apply NoDup_set_delete_all. auto.
Qed.

Lemma new_handle_spec types c x f q r q' :
  Handle.new types c x f q = (r, q') ->
  q' = {| Seq.stride := Seq.stride q;
          Seq.nextValue := js_add (Seq.nextValue q) (Seq.stride q) |} /\
  forall h, r = Returns h ->
    classFQN h = c /\ instanceId h = c ++ "@" ++ number_to_string (Seq.nextValue q) /\
    object h = x /\ proxyReference h = None /\ NoDup (declaredInterfaces h).
Proof.
  unfold Handle.new. unfold bind at 1. unfold Seq.next.
  destruct (IC.new types c) as [provided|e]; [|intros [= <- <-]; split; [done|congruence]].
  set (h0 := {| classFQN := c; instanceId := c ++ "@" ++ number_to_string (Seq.nextValue q);
                object := x; proxyReference := None;
                declaredInterfaces := set_of_list f;
                providedInterfaces := provided |}).
  cbn [declaredInterfaces].
  destruct ((do_ forM_ (declaredInterfaces h0) (provide types); minimise) h0)
    as [[u|e] h'] eqn:Hrun;
    [|intros [= <- <-]; split; [done|congruence]].
  intros [= <- <-]. split; [done|]. intros h1 [= <-].
  apply bind_inv in Hrun as [(e & _ & ?)|(u' & h1 & Hrun & Hmin)]; [done|].
  assert (same_identity h0 h1 /\ declaredInterfaces h1 = declaredInterfaces h0) as (Hid & Hd).
  { eapply (forM_inv_any (fun t => same_identity h0 t /\
              declaredInterfaces t = declaredInterfaces h0)); [| |exact Hrun].
    - intros y t r0 t' _ (Hid & Hd) Hb.
      apply provide_frame in Hb as (Hid' & Hd'). split.
      + by eapply same_identity_trans.
      + congruence.
    - split; [apply same_identity_refl|done]. }
  inversion Hmin; subst; clear Hmin. destruct Hid as (? & ? & ? & ?).
  simpl. repeat split; try done.
  apply NoDup_set_delete_all. rewrite Hd. apply NoDup_set_of_list.
Qed.

(** *** Well-formed stores *)

(** The proxy a handle refers to, if any, is one over its object. *)
Definition proxy_of_object (h : ObjectHandle) : Prop :=
  forall p, proxyReference h = Some p -> exists n, p = RealObjectProxy n (object h).

Record wf (s : ObjectStore) : Prop := mkWf {
  wf_handles : forall iid a, handles s !! iid = Some a ->
    exists h, heap s !! a = Some h /\ instanceId h = iid;
  wf_instanceInfo : forall o a, instanceInfo s !! o = Some a ->
    exists h, heap s !! a = Some h /\ object h = o;
  wf_declared : forall a h, heap s !! a = Some h -> NoDup (declaredInterfaces h);
  wf_proxy : forall a h, heap s !! a = Some h -> proxy_of_object h;
  wf_finalized : NoDup (finalized s);
  wf_stride : Seq.stride (idSequence s) = 1
}.

Lemma wf_new types : wf (Kernel.new types).
Proof.
  split; simpl; try done. apply NoDup_nil_2.
Qed.

Lemma wf_update_handle s a h h' rt :
  wf s -> heap s !! a = Some h ->
  instanceId h' = instanceId h -> object h' = object h ->
  NoDup (declaredInterfaces h') -> proxy_of_object h' ->
  wf (set_runtime rt (set_heap (<[a := h']> (heap s)) s)).
Proof.
  intros [W1 W2 W3 WP W4 W5] Hh Hi Ho Hn Hpo.
  assert (a < length (heap s))%nat as Hlt by (by eapply lookup_lt_Some).
  split; simpl; try done.
  - intros iid b Hb. destruct (W1 _ _ Hb) as (hb & Hhb & Hid).
    destruct (decide (a = b)) as [->|Hne].
    + rewrite list_lookup_insert_eq by done. exists h'. split; [done|]. congruence.
    + rewrite list_lookup_insert_ne by done. eauto.
  - intros o b Hb. destruct (W2 _ _ Hb) as (hb & Hhb & Hid).
    destruct (decide (a = b)) as [->|Hne].
    + rewrite list_lookup_insert_eq by done. exists h'. split; [done|]. congruence.
    + rewrite list_lookup_insert_ne by done. eauto.
  - intros b hb. destruct (decide (a = b)) as [->|Hne].
    + rewrite list_lookup_insert_eq by done. by intros [= <-].
    + rewrite list_lookup_insert_ne by done. apply W3.
  - intros b hb. destruct (decide (a = b)) as [->|Hne].
    + rewrite list_lookup_insert_eq by done. by intros [= <-].
    + rewrite list_lookup_insert_ne by done. apply WP.
Qed.

Lemma set_runtime_same s : set_runtime (runtime s) s = s.
Proof. by destruct s. Qed.

Lemma proxy_same_identity a h rt r h' rt' :
  Handle.proxy a (h, rt) = (r, (h', rt')) ->
  instanceId h' = instanceId h /\ object h' = object h /\
  declaredInterfaces h' = declaredInterfaces h /\
  (proxy_of_object h -> proxy_of_object h').
Proof.
  intros Hp. apply proxy_spec in Hp as (p & _ & _ & ? & ? & Ho & ? & _ & Hcase).
  split_and!; try done. intros Hpo.
  destruct Hcase as [(-> & _)|(_ & -> & Hr & _)]; [done|].
  intros p'. rewrite Hr, Ho. intros [= <-]. eauto.
Qed.

Lemma same_identity_proxy h h' :
  same_identity h h' -> proxy_of_object h -> proxy_of_object h'.
Proof. intros (_ & _ & Ho & Hp) Hpo p. rewrite Hp, Ho. apply Hpo. Qed.

Lemma wf_register c i f s : wf s -> wf (snd (register_intended c i f s)).
Proof.
  intros Hwf. destruct i as [x|]; [|done].
  destruct (register_intended c (Some x) f s) as [r s'] eqn:Hr. simpl.
  apply register_cases in Hr.
  destruct Hr as [a Hx Hh|a h e h1 Hx Hh Hm|a h u h1 p h2 rt2 Hx Hh Hm Hp|e q Hx Hn
                 |h q p h2 rt2 Hx Hn Hp].
  - done.
  - apply mergeInterfaces_frame in Hm as (Hid & Hnd).
    pose proof Hid as (Hi & Hc & Ho & _).
    rewrite <- (set_runtime_same (set_heap _ s)).
    eapply wf_update_handle; eauto.
    + apply Hnd. by eapply wf_declared.
    + eapply same_identity_proxy; [exact Hid|]. by eapply wf_proxy.
  - apply mergeInterfaces_frame in Hm as (Hid & Hnd).
    pose proof Hid as (Hi & Hc & Ho & _).
    apply proxy_same_identity in Hp as (Hi' & Ho' & Hd' & Hpo).
    eapply wf_update_handle; eauto; try congruence.
    + rewrite Hd'. apply Hnd. by eapply wf_declared.
    + apply Hpo. eapply same_identity_proxy; [exact Hid|]. by eapply wf_proxy.
  - apply new_handle_spec in Hn as (-> & _). by destruct Hwf.
  - destruct Hwf as [W1 W2 W3 WP W4 W5].
    apply new_handle_spec in Hn as (-> & Hh).
    destruct (Hh h eq_refl) as (Hc & Hi & Ho & Hnone & Hnd).
    apply proxy_same_identity in Hp as (Hi' & Ho' & Hd' & Hpo).
    split; simpl; try done.
    + intros iid b. destruct (decide (instanceId h = iid)) as [<-|Hne].
      * rewrite lookup_insert_eq. intros [= <-]. exists h2.
        by rewrite lookup_snoc_length.
      * rewrite lookup_insert_ne by done. intros Hb.
        destruct (W1 _ _ Hb) as (hb & Hhb & Hid). exists hb. split; [|done].
        rewrite lookup_app_l; [done|]. by eapply lookup_lt_Some.
    + intros o b. destruct (decide (x = o)) as [<-|Hne].
      * rewrite lookup_insert_eq. intros [= <-]. exists h2.
        rewrite lookup_snoc_length. split; [done|]. congruence.
      * rewrite lookup_insert_ne by done. intros Hb.
        destruct (W2 _ _ Hb) as (hb & Hhb & Hid). exists hb. split; [|done].
        rewrite lookup_app_l; [done|]. by eapply lookup_lt_Some.
    + intros b hb Hb. apply lookup_app_Some in Hb as [Hb|[_ Hb]]; [eauto|].
      apply list_lookup_singleton_Some in Hb as [_ <-]. by rewrite Hd'.
    + intros b hb Hb. apply lookup_app_Some in Hb as [Hb|[_ Hb]]; [eauto|].
      apply list_lookup_singleton_Some in Hb as [_ <-]. apply Hpo.
      intros p'. by rewrite Hnone.
Qed.

Lemma wf_dereference ref s : wf s -> wf (snd (dereference ref s)).
Proof.
  intros Hwf. destruct (dereference ref s) as [r s'] eqn:Hr. simpl.
  apply dereference_cases in Hr.
  destruct Hr as [Ha|a Ha Hh|a h p h2 rt2 Ha Hh Hp]; try done.
  apply proxy_same_identity in Hp as (Hi' & Ho' & Hd' & Hpo).
  eapply wf_update_handle; eauto.
  - rewrite Hd'. by eapply wf_declared.
  - apply Hpo. by eapply wf_proxy.
Qed.

Lemma wf_step op s : wf s -> wf (step op s).
Proof.
  intros Hwf. destruct op as [c i f|ref|o|ref| |p|p]; simpl.
  - by apply wf_register.
  - by apply wf_dereference.
  - done.
  - destruct Hwf as [W1 W2 W3 WP W4 W5]. open_delete.
    destruct (handle_hasProxy s (TOKEN_REF ref)); [by split|].
    assert (wf (set_handles (base.delete (TOKEN_REF ref) (handles s)) s)) as Hwf'.
    { split; simpl; try done. intros iid a Ha.
      apply lookup_delete_Some in Ha as [_ Ha]. eauto. }
    destruct (bool_decide _); simpl; [|done].
    destruct Hwf'. by split.
  - destruct Hwf. split; simpl; try done. apply NoDup_nil_2.
  - by destruct Hwf.
  - destruct Hwf as [W1 W2 W3 WP W4 W5]. open_finalize s p; try by split.
    destruct (heap s !! b) as [h|]; [|by split].
    simpl. split; simpl; try done. by apply NoDup_set_add.
Qed.

Lemma wf_run ops s : wf s -> wf (run ops s).
Proof.
  revert s. induction ops as [|op ops IH]; intros s Hwf; simpl; [done|].
  apply IH. by apply wf_step.
Qed.

(** *** Fields an operation leaves alone *)

Lemma register_frame c i f s :
  let s' := snd (register_intended c i f s) in
  finalized s' = finalized s /\ events s' = events s /\
  resolveType s' = resolveType s.
Proof.
  destruct i as [x|]; [|done].
  destruct (register_intended c (Some x) f s) as [r s'] eqn:Hr. simpl.
  apply register_cases in Hr. by destruct Hr.
Qed.

Lemma dereference_frame ref s :
  let s' := snd (dereference ref s) in
  finalized s' = finalized s /\ events s' = events s /\
  handles s' = handles s /\ instanceInfo s' = instanceInfo s /\
  idSequence s' = idSequence s /\ length (heap s') = length (heap s).
Proof.
  destruct (dereference ref s) as [r s'] eqn:Hr. simpl.
  apply dereference_cases in Hr. destruct Hr; simpl; rewrite ?length_insert; done.
Qed.

Definition is_drain (op : Op) : bool :=
  match op with OFinalizedInstanceIds => true | _ => false end.

Definition deletes (iid : string) (op : Op) : bool :=
  match op with ODelete r => bool_decide (TOKEN_REF r = iid) | _ => false end.

(** Between two drains, the finalized set holds exactly the IDs for which the
    finalization callback ran, that is, for which [releasable] was emitted. *)
Lemma step_finalized op s :
  is_drain op = false ->
  exists evs, events (step op s) = (events s ++ evs)%list /\
    forall iid, iid ∈ finalized (step op s) <->
                iid ∈ finalized s \/ Releasable iid ∈ evs.
Proof.
  (* the cases in which neither the events nor the finalized set change *)
  assert (forall s' : ObjectStore, events s' = events s -> finalized s' = finalized s ->
    exists evs, events s' = (events s ++ evs)%list /\
      forall iid, iid ∈ finalized s' <-> iid ∈ finalized s \/ Releasable iid ∈ evs)
    as Hsame.
  { intros s' -> ->. exists []. rewrite app_nil_r. split; [done|].
    intros iid. rewrite elem_of_nil. tauto. }
  intros Hop. destruct op as [c i f|ref|o|ref| |p|p]; simpl; try done.
  - destruct (register_frame c i f s) as (? & ? & _). by apply Hsame.
  - destruct (dereference_frame ref s) as (? & ? & _). by apply Hsame.
  - by apply Hsame.
  - open_delete. destruct (handle_hasProxy s (TOKEN_REF ref)); simpl; [by apply Hsame|].
    destruct (bool_decide _); simpl; [|by apply Hsame].
    eexists. split; [reflexivity|]. intros iid.
    rewrite list_elem_of_singleton. split; [auto|]. by intros [?|?].
  - by apply Hsame.
  - open_finalize s p; try by apply Hsame.
    destruct (heap s !! b) as [h|]; simpl; [|by apply Hsame].
    eexists. split; [reflexivity|]. intros iid.
    rewrite elem_of_set_add, list_elem_of_singleton.
    split; (intros [?|?]; [by left|right; congruence]).
Qed.

Lemma run_finalized ops s :
  existsb is_drain ops = false ->
  exists evs, events (run ops s) = (events s ++ evs)%list /\
    forall iid, iid ∈ finalized (run ops s) <->
                iid ∈ finalized s \/ Releasable iid ∈ evs.
Proof.
  revert s. induction ops as [|op ops IH]; intros s Hops; simpl in *.
  - exists []. rewrite app_nil_r. split; [done|]. intros iid. rewrite elem_of_nil. tauto.
  - apply orb_false_iff in Hops as [Hop Hops].
    destruct (step_finalized op s Hop) as (e1 & He1 & Hf1).
    destruct (IH (step op s) Hops) as (e2 & He2 & Hf2).
    exists (e1 ++ e2)%list. split.
    + by rewrite He2, He1, app_assoc.
    + intros iid. rewrite Hf2, Hf1, elem_of_app. tauto.
Qed.

(** A handle leaves [handles] through [delete] only, and handle objects are
    never freed. *)
Lemma step_heap_keep op s a :
  is_Some (heap s !! a) -> is_Some (heap (step op s) !! a).
Proof.
  rewrite !lookup_lt_is_Some. intros Hlt.
  destruct op as [c i f|ref|o|ref| |p|p]; simpl; try done.
  - destruct i as [x|]; [|done].
    destruct (register_intended c (Some x) f s) as [r s'] eqn:Hr. simpl.
    apply register_cases in Hr.
    destruct Hr; simpl; rewrite ?length_insert, ?length_app; simpl; lia.
  - destruct (dereference_frame ref s) as (_ & _ & _ & _ & _ & ->). done.
  - open_delete.
    destruct (handle_hasProxy s (TOKEN_REF ref)); simpl; [done|].
    by destruct (bool_decide _).
  - open_finalize s p; try done.
    by destruct (heap s !! b).
Qed.

Lemma step_handles_keep op s iid :
  deletes iid op = false ->
  is_Some (handles s !! iid) -> is_Some (handles (step op s) !! iid).
Proof.
  intros Hop Hin. destruct op as [c i f|ref|o|ref| |p|p]; simpl; try done.
  - destruct i as [x|]; [|done].
    destruct (register_intended c (Some x) f s) as [r s'] eqn:Hr. simpl.
    apply register_cases in Hr. destruct Hr; simpl; try done.
    rewrite lookup_insert_is_Some. destruct (decide (instanceId h = iid)); auto.
  - by destruct (dereference_frame ref s) as (_ & _ & -> & _).
  - simpl in Hop. apply bool_decide_eq_false in Hop.
    open_delete.
    destruct (handle_hasProxy s (TOKEN_REF ref)); simpl; [done|].
    destruct (bool_decide _); simpl; by rewrite lookup_delete_ne.
  - open_finalize s p; try done.
    by destruct (heap s !! b).
Qed.

Lemma run_handles_keep ops s iid :
  existsb (deletes iid) ops = false ->
  is_Some (handles s !! iid) -> is_Some (handles (run ops s) !! iid).
Proof.
  revert s. induction ops as [|op ops IH]; intros s Hops Hin; simpl in *; [done|].
  apply orb_false_iff in Hops as [Hop Hops].
  apply IH; [done|]. by apply step_handles_keep.
Qed.

(** A registered handle can be dereferenced. *)
Lemma dereference_registered s iid :
  wf s -> is_Some (handles s !! iid) ->
  exists v, fst (dereference (mkObjRef iid None) s) = Returns v.
Proof.
  intros Hwf [a Ha]. destruct (wf_handles s Hwf _ _ Ha) as (h & Hh & _).
  destruct (dereference (mkObjRef iid None) s) as [r s'] eqn:Hr. simpl.
  apply dereference_cases in Hr. destruct Hr; simpl in *; try congruence. eauto.
Qed.

(** *** Claims about the kernel store *)

Lemma handle_hasProxy_absent s iid :
  handles s !! iid = None -> handle_hasProxy s iid = false.
Proof. unfold handle_hasProxy. by intros ->. Qed.

Lemma dereference_has_proxy ref s v s1 :
  dereference ref s = (Returns v, s1) -> handle_hasProxy s1 (TOKEN_REF ref) = true.
Proof.
  intros Hr. apply dereference_cases in Hr.
  inversion Hr as [| |a h p h2 rt2 Ha Hh Hp]; subst.
  apply proxy_spec in Hp as (p' & _ & Hex & _).
  unfold handle_hasProxy. simpl. rewrite Ha.
  rewrite list_lookup_insert_eq by (by eapply lookup_lt_Some).
  unfold hasProxy. by rewrite Hex.
Qed.

Definition is_collect (op : Op) : bool :=
  match op with OCollect _ => true | _ => false end.

Lemma hasProxy_extend rt rt' h l :
  proxies rt' = (proxies rt ++ l)%list ->
  hasProxy rt h = true -> hasProxy rt' h = true.
Proof.
  unfold hasProxy, existing_proxy, deref. intros ->.
  destruct (proxyReference h) as [w|]; [|done].
  destruct (proxies rt !! proxy_addr w) as [[|]|] eqn:Hw; try done.
  by rewrite (lookup_app_l_Some _ _ _ _ Hw).
Qed.

(** Updating the handle at [a] and extending the runtime keeps the live
    proxies of the store, when the handle at [a] keeps its own. *)
Lemma hasProxy_update s iid a h' rt' l :
  is_Some (heap s !! a) ->
  proxies rt' = (proxies (runtime s) ++ l)%list ->
  (handles s !! iid = Some a -> hasProxy rt' h' = true) ->
  handle_hasProxy s iid = true ->
  handle_hasProxy (set_runtime rt' (set_heap (<[a := h']> (heap s)) s)) iid = true.
Proof.
  intros Ha Hrt Hown. unfold handle_hasProxy. simpl.
  destruct (handles s !! iid) as [b|] eqn:Hb; [|done].
  destruct (decide (a = b)) as [<-|Hne].
  - intros _. rewrite list_lookup_insert_eq by (by apply lookup_lt_is_Some). auto.
  - rewrite list_lookup_insert_ne by done.
    destruct (heap s !! b) as [hb|]; [|done].
    by apply (hasProxy_extend (runtime s) rt' hb l).
Qed.

Lemma proxy_extends a h rt r h' rt' :
  Handle.proxy a (h, rt) = (r, (h', rt')) ->
  hasProxy rt' h' = true /\ exists l, proxies rt' = (proxies rt ++ l)%list.
Proof.
  intros Hp. apply proxy_spec in Hp as (p & _ & Hex & _ & _ & _ & _ & _ & Hcase).
  split; [unfold hasProxy; by rewrite Hex|].
  destruct Hcase as [(_ & -> & _)|(_ & _ & _ & -> & _)].
  - exists []. by rewrite app_nil_r.
  - by eexists.
Qed.

(** Only the collector takes a live proxy away from a registered handle. *)
Lemma step_hasProxy_keep op s iid :
  is_collect op = false ->
  handle_hasProxy s iid = true -> handle_hasProxy (step op s) iid = true.
Proof.
  intros Hop Hlive. destruct op as [c i f|ref|o|ref| |p|p]; simpl; try done.
  - destruct i as [x|]; [|done].
    destruct (register_intended c (Some x) f s) as [r s'] eqn:Hr. simpl.
    apply register_cases in Hr.
    destruct Hr as [a Hx Hh|a h e h1 Hx Hh Hm|a h u h1 p h2 rt2 Hx Hh Hm Hp|e q Hx Hn
                   |h q p h2 rt2 Hx Hn Hp]; try done.
    + rewrite <- (set_runtime_same (set_heap _ s)).
      apply (hasProxy_update s iid a h1 (runtime s) []);
        [eauto|by rewrite app_nil_r| |done].
      intros Ha. unfold handle_hasProxy in Hlive. rewrite Ha, Hh in Hlive.
      apply mergeInterfaces_frame in Hm as ((_ & _ & _ & Hpr) & _).
      unfold hasProxy, existing_proxy in *. by rewrite Hpr.
    + apply proxy_extends in Hp as (Hown & l & Hl).
      apply (hasProxy_update s iid a h2 rt2 l); eauto.
    + apply proxy_extends in Hp as (Hown & l & Hl).
      unfold handle_hasProxy in *. simpl.
      destruct (decide (instanceId h = iid)) as [<-|Hne].
      * by rewrite lookup_insert_eq, lookup_snoc_length.
      * rewrite lookup_insert_ne by done.
        destruct (handles s !! iid) as [b|]; [|done].
        destruct (heap s !! b) as [hb|] eqn:Hb; [|done].
        rewrite (lookup_app_l_Some _ _ _ _ Hb).
        by apply (hasProxy_extend (runtime s) rt2 hb l).
  - destruct (dereference ref s) as [r s'] eqn:Hr. simpl.
    apply dereference_cases in Hr.
    destruct Hr as [Ha|a Ha Hh|a h p h2 rt2 Ha Hh Hp]; try done.
    apply proxy_extends in Hp as (Hown & l & Hl).
    apply (hasProxy_update s iid a h2 rt2 l); eauto.
  - open_delete. destruct (handle_hasProxy s (TOKEN_REF ref)) eqn:Href; [done|].
    assert (TOKEN_REF ref <> iid) as Hne by congruence.
    assert (handle_hasProxy (set_handles (base.delete (TOKEN_REF ref) (handles s)) s) iid
            = true) as Hkeep.
    { unfold handle_hasProxy in *. simpl. by rewrite lookup_delete_ne. }
    by destruct (bool_decide _).
  - open_finalize s p; try done. by destruct (heap s !! b).
Qed.

Lemma run_hasProxy_keep ops s iid :
  existsb is_collect ops = false ->
  handle_hasProxy s iid = true -> handle_hasProxy (run ops s) iid = true.
Proof.
  revert s. induction ops as [|op ops IH]; intros s Hops Hlive; simpl in *; [done|].
  apply orb_false_iff in Hops as [Hop Hops]. apply IH; [done|].
  by apply step_hasProxy_keep.
Qed.

(** C1. [finalizedInstanceIds()] in any store reached from a new one: it
    returns the IDs of the finalized set whose handle has no live proxy (an
    absent handle has none), each once, and clears the set, so that a second
    call returns the empty list; from then on (and from the creation of the
    store on) the finalized set holds exactly the IDs for which the
    finalization callback ran, as witnessed by the [releasable] events; and an
    ID whose handle got a proxy from [dereference] is not returned, whatever
    happened since, unless a proxy was reclaimed in between. *)
Theorem finalizedInstanceIds_spec (types : gmap string IC.TypeInfo) (ops : list Op) :
  let s := run ops (Kernel.new types) in
  exists ids,
    finalizedInstanceIds s = (Returns ids, set_finalized [] s) /\
    (forall iid, iid ∈ ids <-> iid ∈ finalized s /\ handle_hasProxy s iid = false) /\
    (forall iid, handles s !! iid = None -> handle_hasProxy s iid = false) /\
    NoDup ids /\
    finalizedInstanceIds (set_finalized [] s) = (Returns [], set_finalized [] s) /\
    (forall s0 ops2, s0 = set_finalized [] s \/ s0 = Kernel.new types ->
       existsb is_drain ops2 = false ->
       exists evs, events (run ops2 s0) = (events s0 ++ evs)%list /\
         forall iid, iid ∈ finalized (run ops2 s0) <-> Releasable iid ∈ evs) /\
    (forall ref v s1 ops2 ids1 s2,
       dereference ref s = (Returns v, s1) ->
       existsb is_collect ops2 = false ->
       finalizedInstanceIds (run ops2 s1) = (Returns ids1, s2) ->
       TOKEN_REF ref ∉ ids1).
Proof.
  intros s. assert (wf s) as Hwf by apply wf_run, wf_new.
  eexists. split; [reflexivity|]. split_and!.
  - intros iid. rewrite list_elem_of_filter.
    destruct (handle_hasProxy s iid); simpl; split; intros [H1 H2];
      first [done | by split].
  - apply handle_hasProxy_absent.
  - apply NoDup_filter, (wf_finalized s Hwf).
  - reflexivity.
  - intros s0 ops2 Hs0 Hops.
    destruct (run_finalized ops2 s0 Hops) as (evs & He & Hf).
    exists evs. split; [done|]. intros iid. rewrite Hf.
    assert (finalized s0 = []) as -> by (by destruct Hs0 as [-> | ->]).
    rewrite elem_of_nil. tauto.
  - intros ref v s1 ops2 ids1 s2 Hd Hops [= <- _] Hin.
    apply list_elem_of_filter in Hin as [Hin _].
    apply dereference_has_proxy in Hd.
    by rewrite (run_hasProxy_keep ops2 s1 _ Hops Hd) in Hin.
Qed.

(** C3, as the code has it: [dereference] of an ID without a handle throws
    [UnknownReference]; [delete] of such an ID returns normally and changes
    nothing.  No ID has a handle in a new store, nor after its [delete]
    returned. *)
Theorem unknown_reference :
  (forall s ref, handles s !! TOKEN_REF ref = None ->
     dereference ref s = (Throws UnknownReference, s) /\
     delete ref s = (Returns tt, s)) /\
  (forall types ref, handles (Kernel.new types) !! TOKEN_REF ref = None) /\
  (forall s ref u s', delete ref s = (Returns u, s') ->
     handles s' !! TOKEN_REF ref = None).
Proof.
  split_and!.
  - intros s ref H. split.
    + unfold dereference, bind, getHandle. by rewrite H.
    + open_delete.
      rewrite (handle_hasProxy_absent _ _ H).
      rewrite bool_decide_eq_false_2 by (rewrite H; by intros [? ?]).
      rewrite delete_id by done. by destruct s.
  - done.
  - intros s ref u s'. open_delete.
    destruct (handle_hasProxy s (TOKEN_REF ref)); [done|].
    destruct (bool_decide _); intros [= _ <-]; simpl; apply lookup_delete_eq.
Qed.

(** C6. The finalization callback adds the instance ID to the finalized set
    and emits [releasable], nothing else; the registry forgetting the
    reclaimed proxy does not touch the handles either.  Hence in any store
    reached from a new one a registered ID stays registered, and can be
    dereferenced, whatever happens, as long as it is not deleted. *)
Theorem finalization_keeps_handle :
  (forall s a h, heap s !! a = Some h ->
     onProxyFinalized a s =
       (Returns tt,
        {| resolveType := resolveType s; idSequence := idSequence s;
           heap := heap s; handles := handles s;
           instanceInfo := instanceInfo s; runtime := runtime s;
           finalized := set_add (instanceId h) (finalized s);
           events := events s ++ [Releasable (instanceId h)] |})) /\
  (forall s p, handles (snd (gc_finalize p s)) = handles s /\
               heap (snd (gc_finalize p s)) = heap s /\
               instanceInfo (snd (gc_finalize p s)) = instanceInfo s) /\
  (forall types ops1 ops2 iid,
     let s1 := run ops1 (Kernel.new types) in
     is_Some (handles s1 !! iid) ->
     existsb (deletes iid) ops2 = false ->
     is_Some (handles (run ops2 s1) !! iid) /\
     exists v, fst (dereference (mkObjRef iid None) (run ops2 s1)) = Returns v).
Proof.
  split_and!.
  - intros s a h Hh. unfold onProxyFinalized. by rewrite Hh.
  - intros s p. open_finalize s p; try done.
    by destruct (heap s !! b).
  - intros types ops1 ops2 iid s1 Hin Hops. split.
    + by apply run_handles_keep.
    + apply dereference_registered.
      * apply wf_run, wf_run, wf_new.
      * by apply run_handles_keep.
Qed.

(** In the earlier design the callback runs for a reclaimed referent, not
    for a proxy, and drops the handle of the object that is gone. *)
Remark legacy_finalize_drops_handle {H} (s : Legacy.ObjectStore H) (iid : string) :
  Legacy.handles (snd (Legacy.finalize iid s)) !! iid = None /\
  iid ∈ Legacy.finalized (snd (Legacy.finalize iid s)).
Proof.
  simpl. split; [apply lookup_delete_eq|]. apply elem_of_set_add. auto.
Qed.

(** *** Concrete stores *)

(** An anonymous object, registered in a new store by [register_intended]. *)
Definition store_one : ObjectStore :=
  snd (register_intended "Object" (Some (Plain 7)) [] (Kernel.new ∅)).

Definition ref_one : ObjRef := mkObjRef "Object@10000" None.

(** The same store after its proxy was reclaimed and finalized. *)
Definition store_finalized : ObjectStore :=
  run [ORegister "Object" (Some (Plain 7)) []; OCollect 0; OFinalize 0] (Kernel.new ∅).

Lemma finalizedInstanceIds_spec_witness :
  finalized store_finalized = ["Object@10000"] /\
  exists ids s2,
    finalizedInstanceIds (snd (dereference ref_one store_finalized)) = (Returns ids, s2) /\
    "Object@10000" ∉ ids.
Proof.
  split; [vm_compute; reflexivity|].
  destruct (finalizedInstanceIds_spec ∅
              [ORegister "Object" (Some (Plain 7)) []; OCollect 0; OFinalize 0])
    as (ids & _ & _ & _ & _ & _ & _ & H).
  do 2 eexists. split; [reflexivity|].
  eapply (H ref_one _ _ []); [|reflexivity|reflexivity]. vm_compute. reflexivity.
Defined.

Lemma unknown_reference_witness :
  dereference ref_one (Kernel.new ∅) = (Throws UnknownReference, Kernel.new ∅) /\
  delete ref_one (Kernel.new ∅) = (Returns tt, Kernel.new ∅).
Proof.
  apply (proj1 unknown_reference (Kernel.new ∅) ref_one). vm_compute. reflexivity.
Defined.

(** C3 as stated fails: deleting an ID that never existed, and deleting an ID
    a second time, both return normally. *)
Lemma unknown_reference_counterexample :
  fst (delete (mkObjRef "Foo@10000" None) (Kernel.new ∅)) = Returns tt /\
  (let s := run [OCollect 0; ODelete ref_one] store_one in
   handles s !! "Object@10000" = None /\
   fst (delete ref_one s) = Returns tt).
Proof. vm_compute. split_and!; reflexivity. Qed.

Lemma finalization_keeps_handle_witness :
  let s := run [OCollect 0; OFinalize 0; OFinalizedInstanceIds] store_one in
  is_Some (handles s !! "Object@10000") /\
  exists v, fst (dereference ref_one s) = Returns v.
Proof.
  apply (proj2 (proj2 finalization_keeps_handle) ∅
           [ORegister "Object" (Some (Plain 7)) []]
           [OCollect 0; OFinalize 0; OFinalizedInstanceIds] "Object@10000").
  - vm_compute. eauto.
  - vm_compute. reflexivity.
Defined.

End KernelFacts.

(** ** The interface collection *)

(** [forM_] with an invariant [P] of the state and a fact [Q x] established
    by the iteration for [x] and kept by the later ones. *)
Lemma forM_post_gen {S A} (P : S -> Prop) (Q : A -> S -> Prop)
    (body : A -> M S unit) xs :
  (forall x s u s', x ∈ xs -> P s -> body x s = (Returns u, s') ->
     P s' /\ Q x s' /\ forall y, Q y s -> Q y s') ->
  forall (seen : list A) s u s',
    P s -> (forall y, y ∈ seen -> Q y s) ->
    forM_ xs body s = (Returns u, s') ->
    P s' /\ forall y, y ∈ seen \/ y ∈ xs -> Q y s'.
Proof.
  induction xs as [|x xs IH]; intros Hbody seen s u s' HP Hseen Hrun; simpl in Hrun.
  - inversion Hrun; subst. split; [done|]. intros y [Hy|Hy]; [auto|].
    by apply elem_of_nil in Hy.
  - apply bind_inv in Hrun as [(e & _ & ?)|(a & s1 & H1 & H2)]; [done|].
    destruct (Hbody x s a s1) as (HP1 & HQ1 & Hkeep1); [by left|done|done|].
    destruct (IH (fun y t v t' Hy => Hbody y t v t' (list_elem_of_further _ _ _ Hy))
                 (x :: seen) s1 u s' HP1) as (HP' & HQ'); [|done|].
    + intros y Hy. apply elem_of_cons in Hy as [->|Hy]; auto.
    + split; [done|]. intros y Hy. apply HQ'. rewrite !elem_of_cons in *. tauto.
Qed.

Lemma forM_post {S A} (P : S -> Prop) (Q : A -> S -> Prop) (body : A -> M S unit) xs :
  (forall x s u s', x ∈ xs -> P s -> body x s = (Returns u, s') ->
     P s' /\ Q x s' /\ forall y, Q y s -> Q y s') ->
  forall s u s', P s -> forM_ xs body s = (Returns u, s') ->
    P s' /\ forall x, x ∈ xs -> Q x s'.
Proof.
  intros Hbody s u s' HP Hrun.
  destruct (forM_post_gen P Q body xs Hbody [] s u s' HP) as (HP' & HQ'); [|done|].
  - intros y Hy. by apply elem_of_nil in Hy.
  - split; [done|]. intros x Hx. apply HQ'. by right.
Qed.

Section ICFacts.

Variable types : gmap string IC.TypeInfo.

(** *** The closure, as the specification words it *)

(** [b] is listed in the [interfaces] of the type [a]. *)
Definition parent (a b : string) : Prop :=
  exists ti l, types !! a = Some ti /\ IC.interfaces ti = Some l /\ b ∈ l.

(** [b] is reached from [a] through one or more [interfaces] entries. *)
Definition ancestor : string -> string -> Prop := tc parent.

(** [d] is the base class of the class [c]. *)
Definition base_step (c d : string) : Prop :=
  exists ti, types !! c = Some ti /\ IC.base ti = Some d /\ d <> "".

(** The interfaces granted by the class [c]: those of the classes of its
    base chain, with their parents; none for the class of anonymous
    objects. *)
Definition class_closure (c x : string) : Prop :=
  c <> IC.EMPTY_OBJECT_FQN /\ exists c', rtc base_step c c' /\ ancestor c' x.

(** A set of interfaces that holds the parents of its elements. *)
Definition closed (V : list string) : Prop :=
  forall w b, w ∈ V -> parent w b -> b ∈ V.

(** *** What a walk adds *)

(** From [V] to [V']: nothing is lost, and whatever is new has its parents
    in [V'] and is reached from [root]. *)
Definition grows (reached : string -> Prop) (V V' : list string) : Prop :=
  V ⊆ V' /\
  (forall w b, w ∈ V' -> w ∉ V -> parent w b -> b ∈ V') /\
  (forall w, w ∈ V' -> w ∉ V -> reached w).

Lemma grows_refl reached V : grows reached V V.
Proof. split; [done|]. split; intros; done. Qed.

Lemma grows_trans (r1 r2 r3 : string -> Prop) V1 V2 V3 :
  (forall w, r1 w -> r3 w) -> (forall w, r2 w -> r3 w) ->
  grows r1 V1 V2 -> grows r2 V2 V3 -> grows r3 V1 V3.
Proof.
  intros H13 H23 (Hs1 & Hp1 & Hr1) (Hs2 & Hp2 & Hr2). split; [set_solver|]. split.
  - intros w b Hw Hn Hpar. destruct (decide (w ∈ V2)) as [Hin|Hout].
    + apply Hs2. by eapply Hp1.
    + by eapply Hp2.
  - intros w Hw Hn. destruct (decide (w ∈ V2)) as [Hin|Hout]; auto.
Qed.

(** The body of the loops of [addFromInterface] and [addFromClass]. *)
Definition visit (rec : string -> M (list string) unit) (iface : string)
  : M (list string) unit :=
  do seen <- gets (set_has iface);
  if seen then ret tt
  else do_ modify (set_add iface); rec iface.

Lemma visit_spec rec iface V u V' :
  (forall V1 v V2, rec iface V1 = (Returns v, V2) ->
     grows (ancestor iface) V1 V2 /\ forall b, parent iface b -> b ∈ V2) ->
  visit rec iface V = (Returns u, V') ->
  iface ∈ V' /\ grows (fun w => w = iface \/ ancestor iface w) V V'.
Proof.
  intros Hrec. unfold visit, bind, gets, ret, modify. simpl.
  destruct (set_has iface V) eqn:Hseen.
  - intros [= _ <-]. apply set_has_true in Hseen. split; [done|apply grows_refl].
  - apply set_has_false in Hseen. intros Hrun.
    apply Hrec in Hrun as ((Hs & Hp & Hr) & Hpar).
    assert (iface ∈ set_add iface V) as Hin by (apply elem_of_set_add; auto).
    split; [by apply Hs|]. split; [|split].
    + intros y Hy. apply Hs, elem_of_set_add. auto.
    + intros w b Hw Hn Hwb. destruct (decide (w = iface)) as [->|Hne]; [auto|].
      eapply Hp; eauto. rewrite elem_of_set_add. tauto.
    + intros w Hw Hn. destruct (decide (w = iface)) as [->|Hne]; [auto|].
      right. apply Hr; [done|]. rewrite elem_of_set_add. tauto.
Qed.

Lemma visit_all_spec rec root ifaces V u V' :
  (forall i, i ∈ ifaces -> parent root i) ->
  (forall i V1 v V2, i ∈ ifaces -> rec i V1 = (Returns v, V2) ->
     grows (ancestor i) V1 V2 /\ forall b, parent i b -> b ∈ V2) ->
  forM_ ifaces (visit rec) V = (Returns u, V') ->
  grows (ancestor root) V V' /\ forall i, i ∈ ifaces -> i ∈ V'.
Proof.
  intros Hroot Hrec Hrun.
  eapply (forM_post (grows (ancestor root) V) (fun i W => i ∈ W)); [|apply grows_refl|exact Hrun].
  intros i W v W' Hi HW Hbody.
  apply visit_spec in Hbody as (Hin & Hg); [|intros; by eapply Hrec].
  split; [|split; [done|]].
  - eapply grows_trans; [| |exact HW|exact Hg]; [done|].
    intros w [->|Hw].
    + apply tc_once. auto.
    + eapply tc_l; [|exact Hw]. auto.
  - intros y Hy. by apply Hg.
Qed.

Lemma addFromInterface_spec fuel fqn V u V' :
  IC.addFromInterface types fuel fqn V = (Returns u, V') ->
  grows (ancestor fqn) V V' /\ forall b, parent fqn b -> b ∈ V'.
Proof.
  revert fqn V u V'. induction fuel as [|fuel IH]; intros fqn V u V'; simpl; [done|].
  unfold bind at 1. unfold IC.resolveType.
  destruct (types !! fqn) as [ti|] eqn:Hti; [|done]. unfold ret at 1.
  destruct (negb (IC.isInterfaceType ti)); [done|].
  destruct (IC.interfaces ti) as [ifaces|] eqn:Hifs.
  - intros Hrun.
    change (forM_ ifaces (visit (IC.addFromInterface types fuel)) V = (Returns u, V')) in Hrun.
    apply (visit_all_spec _ fqn) in Hrun as (Hg & Hall).
    + split; [done|]. intros b (ti' & l & Ht' & Hl & Hb).
      rewrite Hti in Ht'. injection Ht' as <-. rewrite Hifs in Hl. injection Hl as <-.
      by apply Hall.
    + intros i Hi. exists ti, ifaces. done.
    + intros i V1 v V2 _. apply IH.
  - intros [= _ <-]. split; [apply grows_refl|].
    intros b (ti' & l & Ht' & Hl & Hb). congruence.
Qed.

Lemma grows_closed reached V V' : closed V -> grows reached V V' -> closed V'.
Proof.
  intros Hc (Hs & Hp & _) w b Hw Hwb. destruct (decide (w ∈ V)) as [Hin|Hout].
  - apply Hs. by eapply Hc.
  - by eapply Hp.
Qed.

Lemma closed_ancestor V a :
  closed V -> (forall b, parent a b -> b ∈ V) ->
  forall x, ancestor a x -> x ∈ V.
Proof.
  intros Hc Ha x Hx. revert Ha. induction Hx as [a x Hax|a y x Hay Hyx IH]; intros Ha.
  - by apply Ha.
  - apply IH. intros b Hyb. eapply Hc; [|exact Hyb]. by apply Ha.
Qed.

(** The interfaces granted by the classes from [c] up its base chain. *)
Definition chain_closure (c x : string) : Prop :=
  exists c', rtc base_step c c' /\ ancestor c' x.

Lemma addFromClass_spec fuel c V u V' :
  IC.addFromClass types fuel c V = (Returns u, V') ->
  closed V ->
  closed V' /\ grows (chain_closure c) V V' /\
  forall x, chain_closure c x -> x ∈ V'.
Proof.
  revert c V u V'. induction fuel as [|fuel IH]; intros c V u V'; simpl; [done|].
  unfold bind at 1. unfold IC.resolveType.
  destruct (types !! c) as [ti|] eqn:Hti; [|done]. unfold ret at 1.
  destruct (negb (IC.isClassType ti)); [done|].
  intros Hrun Hc. apply bind_inv in Hrun as [(e & _ & ?)|(v & V1 & Hbase & Hifs)]; [done|].
  (* the base class *)
  assert (closed V1 /\ grows (chain_closure c) V V1 /\
          forall b x, base_step c b -> chain_closure b x -> x ∈ V1) as (Hc1 & Hg1 & Hb1).
  { destruct (IC.base ti) as [b|] eqn:Hb; [destruct (bool_decide (b = "")) eqn:Hemp|].
    - inversion Hbase; subst. split; [done|]. split; [apply grows_refl|].
      intros b' x (ti' & Ht' & Hb' & Hne). apply bool_decide_eq_true in Hemp. congruence.
    - apply bool_decide_eq_false in Hemp.
      destruct (IH _ _ _ _ Hbase Hc) as (Hc1 & Hg1 & Hall). split; [done|]. split.
      + eapply grows_trans; [| |apply grows_refl|exact Hg1]; [done|].
        intros w (c' & Hrtc & Hanc). exists c'. split; [|done].
        eapply rtc_l; [|exact Hrtc]. by exists ti.
      + intros b' x (ti' & Ht' & Hb' & Hne). assert (b' = b) as -> by congruence.
        apply Hall.
    - inversion Hbase; subst. split; [done|]. split; [apply grows_refl|].
      intros b' x (ti' & Ht' & Hb' & Hne). congruence. }
  (* the interfaces of the class *)
  assert (grows (ancestor c) V1 V' /\ forall b, parent c b -> b ∈ V') as (Hg2 & Hp2).
  { destruct (IC.interfaces ti) as [ifaces|] eqn:Hi.
    - change (forM_ ifaces (visit (IC.addFromInterface types (IC.interface_fuel types))) V1
              = (Returns u, V')) in Hifs.
      apply (visit_all_spec _ c) in Hifs as (Hg & Hall).
      + split; [done|]. intros b (ti' & l & Ht' & Hl & Hb).
        assert (l = ifaces) as -> by congruence. by apply Hall.
      + intros i ?. by exists ti, ifaces.
      + intros i W v0 W' _. apply addFromInterface_spec.
    - inversion Hifs; subst. split; [apply grows_refl|].
      intros b (ti' & l & Ht' & Hl & Hb). congruence. }
  assert (closed V') as Hc' by (by eapply grows_closed).
  split; [done|]. split.
  - eapply grows_trans; [| |exact Hg1|exact Hg2]; [done|].
    intros w Hw. exists c. split; [apply rtc_refl|done].
  - intros x (c' & Hrtc & Hanc). apply rtc_inv in Hrtc as [->|(b & Hcb & Hrtc)].
    + by eapply closed_ancestor.
    + destruct Hg2 as (Hs & _). apply Hs. eapply Hb1; [exact Hcb|]. by exists c'.
Qed.

Lemma IC_new_spec c V :
  IC.new types c = Returns V ->
  closed V /\ forall x, x ∈ V <-> class_closure c x.
Proof.
  unfold IC.new, class_closure.
  destruct (bool_decide (c = IC.EMPTY_OBJECT_FQN)) eqn:Hobj.
  - apply bool_decide_eq_true in Hobj. intros [= <-]. split.
    + intros w b Hw. by apply elem_of_nil in Hw.
    + intros x. rewrite elem_of_nil. tauto.
  - apply bool_decide_eq_false in Hobj.
    destruct (IC.addFromClass types (IC.class_fuel types) c []) as [[u|e] V0] eqn:Hrun; [|done].
    intros [= <-]. apply addFromClass_spec in Hrun as (Hc & (_ & _ & Hr) & Hall).
    + split; [done|]. intros x. split.
      * intros Hx. split; [done|]. apply Hr; [done|]. apply not_elem_of_nil.
      * intros [_ Hx]. by apply Hall.
    + intros w b Hw. by apply elem_of_nil in Hw.
Qed.

(** *** The handle's interface sets *)

Import Handle.

Lemma provide_spec fqn h u h' :
  provide types fqn h = (Returns u, h') ->
  closed (providedInterfaces h) ->
  closed (providedInterfaces h') /\
  declaredInterfaces h' = declaredInterfaces h /\
  forall x, x ∈ providedInterfaces h' <->
            x ∈ providedInterfaces h \/ ancestor fqn x.
Proof.
  unfold provide.
  destruct (IC.addFromInterface _ _ _ _) as [r V'] eqn:Hrun. intros [= -> <-] Hc.
  apply addFromInterface_spec in Hrun as (Hg & Hpar). simpl.
  assert (closed V') as Hc' by (by eapply grows_closed).
  split; [done|]. split; [done|]. intros x. split.
  - intros Hx. destruct (decide (x ∈ providedInterfaces h)); [auto|].
    right. by apply Hg.
  - intros [Hx|Hx]; [by apply Hg|]. by eapply closed_ancestor.
Qed.

(** The invariant of a handle: the provided set is closed, and no declared
    interface is provided. *)
Definition minimal (h : ObjectHandle) : Prop :=
  closed (providedInterfaces h) /\
  forall y, y ∈ declaredInterfaces h -> y ∉ providedInterfaces h.

Lemma mergeInterfaces_spec S h u h' :
  mergeInterfaces types S h = (Returns u, h') -> minimal h ->
  minimal h' /\
  (forall x, x ∈ providedInterfaces h' <->
     x ∈ providedInterfaces h \/ exists s, s ∈ S /\ ancestor s x) /\
  (forall y, y ∈ declaredInterfaces h' <->
     (y ∈ declaredInterfaces h \/ y ∈ S) /\ y ∉ providedInterfaces h').
Proof.
  unfold mergeInterfaces. intros Hrun (Hc & Hmin).
  destruct (length S =? 0)%nat eqn:Hlen.
  { inversion Hrun; subst. apply Nat.eqb_eq, nil_length_inv in Hlen as ->.
    split; [done|]. split.
    - intros x. split; [auto|]. intros [?|(s & Hs & _)]; [done|].
      by apply elem_of_nil in Hs.
    - intros y. rewrite elem_of_nil. split; [auto|]. tauto. }
  apply bind_inv in Hrun as [(e & _ & ?)|(v & h1 & Hloop & Hfin)]; [done|].
  set (P := fun t : ObjectHandle =>
    closed (providedInterfaces t) /\
    providedInterfaces h ⊆ providedInterfaces t /\
    (forall x, x ∈ providedInterfaces t ->
       x ∈ providedInterfaces h \/ exists s, s ∈ S /\ ancestor s x) /\
    declaredInterfaces h ⊆ declaredInterfaces t /\
    (forall y, y ∈ declaredInterfaces t -> y ∈ declaredInterfaces h \/ y ∈ S)).
  set (Q := fun (s : string) (t : ObjectHandle) =>
    s ∈ declaredInterfaces t /\ forall x, ancestor s x -> x ∈ providedInterfaces t).
  assert (P h1 /\ forall s, s ∈ S -> Q s h1) as ((Hc1 & Hp1 & Hp1' & Hd1 & Hd1') & HQ).
  { eapply (forM_post P Q); [| |exact Hloop].
    - intros s t w t' Hs (Hct & Hpt & Hpt' & Hdt & Hdt') Hbody.
      apply bind_inv in Hbody as [(e & _ & ?)|(w' & t1 & Hprov & Hadd)]; [done|].
      apply provide_spec in Hprov as (Hc1 & Hdecl & Hprov); [|done].
      inversion Hadd; subst; clear Hadd. unfold P, Q. simpl. split_and!.
      + done.
      + intros x Hx. apply Hprov. auto.
      + intros x Hx. apply Hprov in Hx as [Hx|Hx]; [auto|]. right. eauto.
      + intros y Hy. rewrite elem_of_set_add, Hdecl. auto.
      + intros y. rewrite elem_of_set_add, Hdecl. intros [Hy| ->]; auto.
      + rewrite elem_of_set_add. auto.
      + intros x Hx. apply Hprov. auto.
      + intros y (Hy & Hya). simpl. split.
        * rewrite elem_of_set_add, Hdecl. auto.
        * intros x Hx. apply Hprov. left. auto.
    - unfold P. split_and!; try done. auto. auto. }
  inversion Hfin; subst; clear Hfin. unfold minimal. simpl. split_and!.
  - done.
  - intros y. rewrite elem_of_set_delete_all. tauto.
  - intros x. split; [auto|]. intros [Hx|(s & Hs & Hx)]; [auto|].
    by apply (HQ s Hs).
  - intros y. rewrite elem_of_set_delete_all. split.
    + intros [Hy Hn]. split; [auto|done].
    + intros [[Hy|Hy] Hn]; split; try done; [auto|]. by apply (HQ y Hy).
Qed.

Lemma mergeInterfaces_disjoint S h u h' :
  S <> [] -> mergeInterfaces types S h = (Returns u, h') ->
  forall y, y ∈ declaredInterfaces h' -> y ∉ providedInterfaces h'.
Proof.
  unfold mergeInterfaces. intros HS.
  destruct (length S =? 0)%nat eqn:Hlen.
  { apply Nat.eqb_eq, nil_length_inv in Hlen. done. }
  intros Hrun. apply bind_inv in Hrun as [(e & _ & ?)|(v & h1 & _ & Hfin)]; [done|].
  inversion Hfin; subst; clear Hfin. simpl. intros y.
  rewrite elem_of_set_delete_all. tauto.
Qed.

Lemma new_handle_interfaces c x S q h q' :
  Handle.new types c x S q = (Returns h, q') ->
  minimal h /\
  (forall y, y ∈ providedInterfaces h <->
     class_closure c y \/ exists s, s ∈ S /\ ancestor s y) /\
  (forall y, y ∈ declaredInterfaces h <-> y ∈ S /\ y ∉ providedInterfaces h).
Proof.
  unfold Handle.new. unfold bind at 1. unfold Seq.next.
  destruct (IC.new types c) as [provided|e] eqn:Hnew; [|done].
  apply IC_new_spec in Hnew as (Hc0 & Hcl).
  set (h0 := {| classFQN := c; instanceId := c ++ "@" ++ number_to_string (Seq.nextValue q);
                object := x; proxyReference := None;
                declaredInterfaces := set_of_list S;
                providedInterfaces := provided |}).
  cbn [declaredInterfaces].
  destruct ((do_ forM_ (declaredInterfaces h0) (provide types); minimise) h0)
    as [[u|e] h'] eqn:Hrun; [|done].
  intros [= <- _].
  apply bind_inv in Hrun as [(e & _ & ?)|(u' & h1 & Hloop & Hfin)]; [done|].
  set (P := fun t : ObjectHandle =>
    closed (providedInterfaces t) /\
    provided ⊆ providedInterfaces t /\
    (forall y, y ∈ providedInterfaces t ->
       y ∈ provided \/ exists s, s ∈ S /\ ancestor s y) /\
    declaredInterfaces t = set_of_list S).
  set (Q := fun (s : string) (t : ObjectHandle) =>
    forall y, ancestor s y -> y ∈ providedInterfaces t).
  assert (P h1 /\ forall s, s ∈ set_of_list S -> Q s h1) as ((Hc1 & Hp1 & Hp1' & Hd1) & HQ).
  { eapply (forM_post P Q); [| |exact Hloop].
    - intros s t w t' Hs (Hct & Hpt & Hpt' & Hdt) Hbody.
      apply provide_spec in Hbody as (Hc1 & Hdecl & Hprov); [|done].
      unfold P, Q. split_and!.
      + done.
      + intros y Hy. apply Hprov. auto.
      + intros y Hy. apply Hprov in Hy as [Hy|Hy]; [auto|]. right.
        rewrite elem_of_set_of_list in Hs. eauto.
      + congruence.
      + intros y Hy. apply Hprov. auto.
      + intros z Hz y Hy. apply Hprov. auto.
    - unfold P. simpl. split_and!; try done. auto. }
  inversion Hfin; subst; clear Hfin. unfold minimal. simpl. split_and!.
  - done.
  - intros y. rewrite elem_of_set_delete_all. tauto.
  - intros y. rewrite <- Hcl. split.
    + apply Hp1'.
    + intros [Hy|(s & Hs & Hy)]; [auto|].
      apply (HQ s); [|done]. by apply elem_of_set_of_list.
  - intros y. rewrite elem_of_set_delete_all, Hd1, elem_of_set_of_list. tauto.
Qed.

End ICFacts.

(** *** Claims about the interface sets *)

(** The type system of the interface-merge scenario: a class [X] without
    interfaces, an interface [IA], and [IB] which extends [IA]. *)
Definition types_x : gmap string IC.TypeInfo :=
  <["X" := IC.mkType IC.KClass None None]>
  (<["IA" := IC.mkType IC.KInterface None None]>
  (<["IB" := IC.mkType IC.KInterface None (Some ["IA"])]> ∅)).

(** C5, as the code has it.  A handle built by the constructor, and a handle
    after [mergeInterfaces] that was minimal before, is minimal: no declared
    interface is provided (and the provided set is closed); after a merge of
    a non-empty [S] no declared interface is provided, whatever the handle
    was.  The declared and provided interfaces together are, after the
    constructor, the closure of the class, the given interfaces [S] and the
    ancestors of [S]; after a merge, what they were before, [S] and the
    ancestors of [S].  Merging [IB; IA] into a handle made with [IA] leaves
    [interfaces] at [IB]. *)
Theorem interface_minimisation :
  (forall types c x S q h q',
     Handle.new types c x S q = (Returns h, q') ->
     minimal types h /\
     (forall y, ~ (y ∈ Handle.declaredInterfaces h /\ y ∈ Handle.providedInterfaces h)) /\
     (forall y, y ∈ Handle.declaredInterfaces h \/ y ∈ Handle.providedInterfaces h <->
        class_closure types c y \/ y ∈ S \/ exists s, s ∈ S /\ ancestor types s y)) /\
  (forall types S h u h',
     minimal types h ->
     Handle.mergeInterfaces types S h = (Returns u, h') ->
     minimal types h' /\
     (forall y, ~ (y ∈ Handle.declaredInterfaces h' /\ y ∈ Handle.providedInterfaces h')) /\
     (forall y, y ∈ Handle.declaredInterfaces h' \/ y ∈ Handle.providedInterfaces h' <->
        (y ∈ Handle.declaredInterfaces h \/ y ∈ Handle.providedInterfaces h) \/
        y ∈ S \/ exists s, s ∈ S /\ ancestor types s y)) /\
  (forall types S h u h',
     S <> [] ->
     Handle.mergeInterfaces types S h = (Returns u, h') ->
     forall y, ~ (y ∈ Handle.declaredInterfaces h' /\ y ∈ Handle.providedInterfaces h')) /\
  (exists h q h',
     Handle.new types_x "X" (Plain 0) ["IA"] Seq.default = (Returns h, q) /\
     Handle.interfaces h = ["IA"] /\
     Handle.mergeInterfaces types_x ["IB"; "IA"] h = (Returns tt, h') /\
     Handle.interfaces h' = ["IB"]).
Proof.
  split_and!.
  - intros types c x S q h q' Hnew.
    apply new_handle_interfaces in Hnew as (Hmin & Hprov & Hdecl).
    split; [done|]. split.
    + intros y [Hd Hp]. by apply Hmin in Hd.
    + intros y. rewrite Hdecl. pose proof (Hprov y) as Hy.
      destruct (decide (y ∈ Handle.providedInterfaces h)); tauto.
  - intros types S h u h' Hmin Hmerge.
    apply mergeInterfaces_spec in Hmerge as (Hmin' & Hprov & Hdecl); [|done].
    split; [done|]. split.
    + intros y [Hd Hp]. by apply Hmin' in Hd.
    + intros y. rewrite Hdecl. pose proof (Hprov y) as Hy.
      destruct (decide (y ∈ Handle.providedInterfaces h')); tauto.
  - intros types S h u h' HS Hmerge y [Hd Hp].
    by eapply mergeInterfaces_disjoint.
  - do 3 eexists. split_and!; vm_compute; reflexivity.
Qed.

Lemma interface_minimisation_witness :
  let h := {| Handle.classFQN := "X"; Handle.instanceId := "X@10000";
              Handle.object := Plain 0; Handle.proxyReference := None;
              Handle.declaredInterfaces := ["IB"];
              Handle.providedInterfaces := ["IA"] |} in
  minimal types_x h /\
  (forall y, ~ (y ∈ Handle.declaredInterfaces h /\ y ∈ Handle.providedInterfaces h)) /\
  (forall y, y ∈ Handle.declaredInterfaces h \/ y ∈ Handle.providedInterfaces h <->
     class_closure types_x "X" y \/ y ∈ ["IB"] \/
     exists s, s ∈ ["IB"] /\ ancestor types_x s y).
Proof.
  refine (proj1 interface_minimisation types_x "X" (Plain 0) ["IB"]
            Seq.default _ _ _).
  vm_compute. reflexivity.
Defined.

(** C5 as stated fails: for the class [X] and [S = [IB]], the provided set
    holds [IA], which is neither in the closure of [X] nor in [S]. *)
Lemma interface_minimisation_counterexample :
  exists h q,
    Handle.new types_x "X" (Plain 0) ["IB"] Seq.default = (Returns h, q) /\
    "IA" ∈ Handle.providedInterfaces h /\
    ~ (class_closure types_x "X" "IA" \/ "IA" ∈ ["IB"]).
Proof.
  do 2 eexists. split; [vm_compute; reflexivity|]. split; [by left|].
  intros [(_ & c' & Hchain & Hanc)|Hin].
  - assert (forall b, ~ parent types_x "X" b) as Hnopar.
    { intros b (ti & l & Hti & Hl & _). vm_compute in Hti.
      injection Hti as <-. discriminate. }
    apply rtc_inv in Hchain as [<-|(b & (ti & Hti & Hb & _) & _)].
    + inversion Hanc as [? ? Hp|? ? ? Hp _]; subst; by eapply Hnopar.
    + vm_compute in Hti. injection Hti as <-. discriminate.
  - apply list_elem_of_singleton in Hin. discriminate.
Qed.

(** *** The recursion over interfaces is bounded *)

Lemma forM_not_throws {S A} (e : Error) (P : S -> Prop) (body : A -> M S unit) xs :
  (forall x s, x ∈ xs -> P s ->
     fst (body x s) <> Throws e /\
     forall u s', body x s = (Returns u, s') -> P s') ->
  forall s, P s -> fst (forM_ xs body s) <> Throws e.
Proof.
  induction xs as [|x xs IH]; intros Hbody s HP; simpl; [done|].
  destruct (Hbody x s) as (Hne & Hnext); [by left|done|].
  unfold bind. destruct (body x s) as [[u|e'] s1] eqn:Hb; simpl in *; [|done].
  apply IH; [|by eapply Hnext].
  intros y t Hy. apply Hbody. by right.
Qed.

Lemma filter_length_le {A} (P Q : A -> Prop) `{forall x, Decision (P x)}
    `{forall x, Decision (Q x)} (l : list A) :
  (forall x, Q x -> P x) -> (length (filter Q l) <= length (filter P l))%nat.
Proof.
  intros HQP. induction l as [|x l IH]; [done|].
  rewrite !filter_cons. destruct (decide (Q x)) as [Hq|Hq].
  - rewrite decide_True by auto. simpl. lia.
  - destruct (decide (P x)); simpl; lia.
Qed.

Lemma filter_length_lt {A} (P Q : A -> Prop) `{forall x, Decision (P x)}
    `{forall x, Decision (Q x)} (l : list A) x :
  (forall y, Q y -> P y) -> x ∈ l -> P x -> ~ Q x ->
  (length (filter Q l) < length (filter P l))%nat.
Proof.
  intros HQP Hx HPx HQx. induction l as [|y l IH]; [by apply elem_of_nil in Hx|].
  rewrite !filter_cons. apply elem_of_cons in Hx as [<-|Hx].
  - destruct (decide (Q x)); [done|]. destruct (decide (P x)); [|done]. simpl.
    pose proof (filter_length_le P Q l HQP). lia.
  - specialize (IH Hx). destruct (decide (Q y)) as [Hq|Hq].
    + rewrite decide_True by auto. simpl. lia.
    + destruct (decide (P y)); simpl; lia.
Qed.

Section Fuel.

Variable types : gmap string IC.TypeInfo.

(** The number of known types that are not in [V] yet. *)
Definition unseen (V : list string) : nat :=
  length (filter (fun k => k ∉ V) (map_to_list types).*1).

Lemma unseen_le V : (unseen V <= size types)%nat.
Proof.
  unfold unseen. rewrite <- (length_map_to_list types), <- (length_fmap fst).
  apply length_filter.
Qed.

Lemma unseen_mono V V' : V ⊆ V' -> (unseen V' <= unseen V)%nat.
Proof. intros Hs. apply filter_length_le. intros x Hx Hin. apply Hx. by apply Hs. Qed.

Lemma unseen_add k ti V :
  types !! k = Some ti -> k ∉ V -> (unseen (set_add k V) < unseen V)%nat.
Proof.
  intros Hk Hn. apply (filter_length_lt _ _ _ k).
  - intros y Hy Hin. apply Hy. apply elem_of_set_add. auto.
  - apply list_elem_of_fmap. exists (k, ti). split; [done|].
    by apply elem_of_map_to_list.
  - done.
  - intros Hy. apply Hy. apply elem_of_set_add. auto.
Qed.

Lemma addFromInterface_no_overflow fuel fqn V :
  (unseen V + 2 <= fuel)%nat ->
  fst (IC.addFromInterface types fuel fqn V) <> Throws StackOverflow.
Proof.
  revert fqn V. induction fuel as [|fuel IH]; intros fqn V Hfuel; [lia|].
  simpl. unfold bind at 1. unfold IC.resolveType.
  destruct (types !! fqn) as [ti|] eqn:Hti; [|done]. unfold ret at 1.
  destruct (negb (IC.isInterfaceType ti)); [done|].
  destruct (IC.interfaces ti) as [ifaces|]; [|done].
  apply (forM_not_throws _ (fun W => V ⊆ W)); [|done].
  intros i W _ HW. split.
  - unfold bind, gets, modify, ret. simpl.
    destruct (set_has i W) eqn:Hseen; [done|]. apply set_has_false in Hseen.
    destruct (types !! i) as [ti'|] eqn:Hi.
    + apply IH. pose proof (unseen_add i ti' W Hi Hseen).
      pose proof (unseen_mono V W HW). lia.
    + destruct fuel as [|fuel']; [lia|]. simpl.
      unfold bind, IC.resolveType. by rewrite Hi.
  - intros u W' Hbody.
    change (visit (IC.addFromInterface types fuel) i W = (Returns u, W')) in Hbody.
    apply (visit_spec types) in Hbody as (_ & Hs & _).
    + set_solver.
    + intros V1 v V2. apply addFromInterface_spec.
Qed.

(** With the fuel the model gives it, [addFromInterface] never runs out. *)
Lemma addFromInterface_total fqn V :
  fst (IC.addFromInterface types (IC.interface_fuel types) fqn V) <> Throws StackOverflow.
Proof.
  apply addFromInterface_no_overflow. unfold IC.interface_fuel.
  pose proof (unseen_le V). lia.
Qed.

(** [addFromClass] runs out only along a base chain with as many links as
    it was given fuel; with [class_fuel] that is more links than there are
    types, so the chain runs in a cycle and the source recurses for ever. *)
Lemma addFromClass_overflow fuel c V :
  fst (IC.addFromClass types fuel c V) = Throws StackOverflow ->
  exists c', nsteps (base_step types) fuel c c'.
Proof.
  revert c V. induction fuel as [|fuel IH]; intros c V; simpl.
  - intros _. exists c. constructor.
  - unfold bind at 1. unfold IC.resolveType.
    destruct (types !! c) as [ti|] eqn:Hti; [|done]. unfold ret at 1.
    destruct (negb (IC.isClassType ti)); [done|].
    unfold bind at 1.
    destruct (IC.base ti) as [b|] eqn:Hb; [destruct (bool_decide (b = "")) eqn:Hemp|].
    + unfold ret at 1. intros Hover. exfalso. revert Hover.
      destruct (IC.interfaces ti) as [ifaces|]; [|done].
      apply (forM_not_throws _ (fun _ => True)); [|done].
      intros i W _ _. split; [|done]. unfold bind, gets, modify, ret. simpl.
      destruct (set_has i W); [done|]. apply addFromInterface_total.
    + apply bool_decide_eq_false in Hemp.
      destruct (IC.addFromClass types fuel b V) as [[u|e] V1] eqn:Hrec.
      * intros Hover. exfalso. revert Hover.
        destruct (IC.interfaces ti) as [ifaces|]; [|done].
        apply (forM_not_throws _ (fun _ => True)); [|done].
        intros i W _ _. split; [|done]. unfold bind, gets, modify, ret. simpl.
        destruct (set_has i W); [done|]. apply addFromInterface_total.
      * simpl. intros [= ->].
        destruct (IH b V) as (c' & Hc'); [by rewrite Hrec|].
        exists c'. eapply nsteps_l; [|exact Hc']. by exists ti.
    + unfold ret at 1. intros Hover. exfalso. revert Hover.
      destruct (IC.interfaces ti) as [ifaces|]; [|done].
      apply (forM_not_throws _ (fun _ => True)); [|done].
      intros i W _ _. split; [|done]. unfold bind, gets, modify, ret. simpl.
      destruct (set_has i W); [done|]. apply addFromInterface_total.
Qed.

End Fuel.

(** ** [register], [refObject] and [delete] of the sources *)

Section SourceRegistration.

Import Handle Kernel.

Lemma realObject_plain k : realObject (Plain k) = Returns (Plain k).
Proof. reflexivity. Qed.

Lemma realObject_minted n x : realObject (RealObjectProxy n x) = Throws JSTypeError.
Proof. reflexivity. Qed.

(** The ways the [register] of the sources can go for a non-null instance:
    it throws on a proxy that a handle minted and on an object that the
    store does not know, leaving the store as it is; for an object that the
    store knows it is [register_intended]. *)
Lemma register_source_cases c x f s :
  (isProxy x = true /\ register c (Some x) f s = (Throws JSTypeError, s)) \/
  (isProxy x = false /\ instanceInfo s !! x = None /\
   register c (Some x) f s = (Throws JSTypeError, s)) \/
  (isProxy x = false /\ is_Some (tryGetHandle_intended s x) /\
   register c (Some x) f s = register_intended c (Some x) f s).
Proof.
  destruct x as [k|n x]; [|left; done]. right.
  assert (forall A (k' : option nat -> M ObjectStore A),
            bind (tryGetHandle (Plain k)) k' s = k' (instanceInfo s !! Plain k) s)
    as Hsrc by reflexivity.
  assert (forall A (k' : option nat -> M ObjectStore A),
            bind (gets (fun s => tryGetHandle_intended s (Plain k))) k' s
            = k' (instanceInfo s !! Plain k) s)
    as Hint by reflexivity.
  unfold register, register_intended. rewrite Hsrc, Hint.
  unfold tryGetHandle_intended. cbn [referent].
  destruct (instanceInfo s !! Plain k) as [a|] eqn:Hk.
  - right. split_and!; [done|eauto|reflexivity].
  - left. done.
Qed.

(** The environment reaches every store that the sources reach. *)
Lemma register_refines c i f s :
  snd (register c i f s) = s \/ register c i f s = register_intended c i f s.
Proof.
  destruct i as [x|]; [|by right].
  destruct (register_source_cases c x f s) as [(_ & ->)|[(_ & _ & ->)|(_ & _ & ->)]];
    auto.
Qed.

(** What registering a known object leaves alone. *)
Lemma register_known_frame c x f s a r s' :
  tryGetHandle_intended s x = Some a ->
  register_intended c (Some x) f s = (r, s') ->
  handles s' = handles s /\ instanceInfo s' = instanceInfo s /\
  idSequence s' = idSequence s /\ events s' = events s /\
  finalized s' = finalized s /\ length (heap s') = length (heap s).
Proof.
  intros Hx Hr. apply register_cases in Hr.
  destruct Hr; simpl; rewrite ?length_insert; try done; congruence.
Qed.

(** C7, as the sources have it.  The [register] of the sources passes the
    store where the constructor of the handle expects its options, and the
    constructor throws a TypeError before it draws an instance ID.  So
    [register] throws for every object that the store does not know, and
    leaves the store as it was; on a new store it throws whatever it is
    given.  In any store and on any arguments it draws no instance ID,
    inserts into neither map, creates no handle and emits no event. *)
Theorem register_never_allocates :
  (forall types c x f,
     register c (Some x) f (Kernel.new types) = (Throws JSTypeError, Kernel.new types)) /\
  (forall s c k f,
     instanceInfo s !! Plain k = None ->
     register c (Some (Plain k)) f s = (Throws JSTypeError, s)) /\
  (forall c i f s,
     let s' := snd (register c i f s) in
     idSequence s' = idSequence s /\ handles s' = handles s /\
     instanceInfo s' = instanceInfo s /\ events s' = events s /\
     length (heap s') = length (heap s)).
Proof.
  split_and!.
  - intros types c x f.
    destruct (register_source_cases c x f (Kernel.new types))
      as [(_ & ->)|[(_ & _ & ->)|(_ & [a Ha] & _)]]; try done.
  - intros s c k f Hk.
    destruct (register_source_cases c (Plain k) f s)
      as [(? & _)|[(_ & _ & ->)|(_ & [a Ha] & _)]]; try done.
    unfold tryGetHandle_intended in Ha. simpl in Ha. congruence.
  - intros c i f s. destruct i as [x|]; [|done].
    destruct (register_source_cases c x f s)
      as [(_ & ->)|[(_ & _ & ->)|(_ & [a Ha] & ->)]]; try done.
    destruct (register_intended c (Some x) f s) as [r s'] eqn:Hr. simpl.
    destruct (register_known_frame _ _ _ _ _ _ _ Ha Hr) as (? & ? & ? & ? & _ & ?).
    done.
Qed.

Lemma register_never_allocates_witness :
  register "Object" (Some (Plain 7)) [] (Kernel.new ∅)
  = (Throws JSTypeError, Kernel.new ∅).
Proof.
  apply (proj1 (proj2 register_never_allocates) (Kernel.new ∅) "Object" 7%nat []).
  reflexivity.
Defined.

Lemma existing_proxy_inv rt h p :
  existing_proxy rt h = Some p -> proxyReference h = Some p.
Proof.
  unfold existing_proxy, deref. destruct (proxyReference h) as [w|]; [|done].
  destruct (proxies rt !! proxy_addr w) as [[|]|]; congruence.
Qed.

Lemma mergeInterfaces_covers types S h u h' :
  mergeInterfaces types S h = (Returns u, h') ->
  forall y, y ∈ S -> y ∈ declaredInterfaces h' \/ y ∈ providedInterfaces h'.
Proof.
  unfold mergeInterfaces. destruct (length S =? 0)%nat eqn:Hlen.
  { apply Nat.eqb_eq, nil_length_inv in Hlen as ->. intros _ y Hy.
    by apply elem_of_nil in Hy. }
  intros Hrun. apply bind_inv in Hrun as [(e & _ & ?)|(v & h1 & Hloop & Hfin)]; [done|].
  assert (True /\ forall s, s ∈ S -> s ∈ declaredInterfaces h1) as (_ & HQ).
  { eapply (forM_post (fun _ => True) (fun s t => s ∈ declaredInterfaces t));
      [|done|exact Hloop].
    intros s t w t' _ _ Hbody.
    apply bind_inv in Hbody as [(e & _ & ?)|(w' & t1 & Hprov & Hadd)]; [done|].
    apply provide_frame in Hprov as (_ & Hd). inversion Hadd; subst; clear Hadd.
    simpl. split; [done|]. split.
    - apply elem_of_set_add. auto.
    - intros y Hy. apply elem_of_set_add. rewrite Hd. auto. }
  inversion Hfin; subst; clear Hfin. simpl. intros y Hy.
  destruct (decide (y ∈ providedInterfaces h1)); [auto|]. left.
  apply elem_of_set_delete_all. auto.
Qed.

Lemma objRef_same h h' :
  instanceId h' = instanceId h -> declaredInterfaces h' = declaredInterfaces h ->
  objRef h' = objRef h.
Proof. unfold objRef, interfaces. by intros -> ->. Qed.

Lemma refObject_known s k a h :
  instanceInfo s !! Plain k = Some a -> heap s !! a = Some h ->
  refObject (Plain k) s = (Returns (Some (objRef h)), s).
Proof. intros Hk Hh. unfold refObject, tryGetHandle. simpl. by rewrite Hk, Hh. Qed.

Lemma refObject_minted n x s :
  refObject (RealObjectProxy n x) s = (Throws JSTypeError, s).
Proof. reflexivity. Qed.

Lemma register_minted c n x f s :
  register c (Some (RealObjectProxy n x)) f s = (Throws JSTypeError, s).
Proof. reflexivity. Qed.

(** Registering an object that the store knows, as the sources do it. *)
Lemma register_known c k f s a h :
  instanceInfo s !! Plain k = Some a -> heap s !! a = Some h ->
  exists out s2,
    register c (Some (Plain k)) f s = (out, s2) /\
    handles s2 = handles s /\ instanceInfo s2 = instanceInfo s /\
    idSequence s2 = idSequence s /\ events s2 = events s /\
    length (heap s2) = length (heap s) /\
    (f = [] -> exists P, out = Returns (P, objRef h)) /\
    forall P r, out = Returns (P, r) ->
      exists h2,
        heap s2 !! a = Some h2 /\ existing_proxy (runtime s2) h2 = Some P /\
        hasProxy (runtime s2) h2 = true /\
        r = objRef h2 /\ instanceId h2 = instanceId h /\ object h2 = object h /\
        (NoDup (declaredInterfaces h) -> NoDup (declaredInterfaces h2)) /\
        (forall fqn, fqn ∈ f ->
           fqn ∈ declaredInterfaces h2 \/ fqn ∈ providedInterfaces h2) /\
        (existing_proxy (runtime s) h = None ->
         P = RealObjectProxy (length (proxies (runtime s))) (object h)) /\
        (forall p, existing_proxy (runtime s) h = Some p -> P = p) /\
        (proxy_of_object h -> exists n, P = RealObjectProxy n (object h)).
Proof.
  intros Hk Hh.
  destruct (register_source_cases c (Plain k) f s)
    as [(? & _)|[(_ & Hnone & _)|(_ & _ & Heq)]]; [done|congruence|].
  rewrite Heq. clear Heq.
  destruct (register_intended c (Some (Plain k)) f s) as [out s2] eqn:Hr.
  exists out, s2. split; [done|]. apply register_cases in Hr.
  assert (tryGetHandle_intended s (Plain k) = Some a) as Hfind by exact Hk.
  inversion Hr as [a' Hx' Hh'|a' h0 e h1 Hx' Hh' Hm|a' h0 u h1 p h2 rt2 Hx' Hh' Hm Hp| |];
    subst; try congruence;
    assert (a' = a) as -> by congruence.
  - simpl. rewrite length_insert. split_and!; try done.
    intros ->. by compute in Hm.
  - assert (h0 = h) as -> by congruence.
    pose proof (mergeInterfaces_covers _ _ _ _ _ Hm) as Hcov.
    pose proof Hm as Hm'.
    apply mergeInterfaces_frame in Hm' as ((Hi & Hc & Ho & Hpr) & Hnd).
    apply proxy_spec in Hp as (p' & [= <-] & Hex & Hi2 & Hc2 & Ho2 & Hd2 & Hp2 & Hcase).
    assert (existing_proxy (runtime s) h1 = existing_proxy (runtime s) h) as Hsame.
    { unfold existing_proxy. by rewrite Hpr. }
    simpl. rewrite length_insert. split_and!; try done.
    + intros ->. exists p. do 2 f_equal. apply objRef_same; [congruence|].
      rewrite Hd2. cbv [mergeInterfaces length Nat.eqb ret] in Hm. by injection Hm as _ <-.
    + intros P r [= <- <-]. exists h2.
      split; [apply list_lookup_insert_eq; by eapply lookup_lt_Some|].
      split; [done|]. split; [unfold hasProxy; by rewrite Hex|].
      split; [done|]. split; [congruence|]. split; [congruence|].
      split; [rewrite Hd2; exact Hnd|].
      split; [intros fqn Hf; rewrite Hd2, Hp2; by apply Hcov|].
      split_and!.
      * intros Hnone. destruct Hcase as [(_ & _ & Hsome)|(_ & -> & _)]; [congruence|].
        by rewrite Ho.
      * intros p0 Hsome. destruct Hcase as [(_ & _ & Hsome')|(Hnone & _)]; congruence.
      * intros Hpo. destruct Hcase as [(_ & _ & Hsome)|(_ & -> & _)].
        -- rewrite Hsame in Hsome. apply existing_proxy_inv in Hsome.
           by apply Hpo.
        -- rewrite Ho. by eexists.
Qed.



(** C4, as the sources have it.  The proxy that a handle mints answers the
    question for its real object with a property that is not configurable
    and that its target does not have, which the language rejects: so
    [realObject] of every proxy that a handle minted throws a TypeError, and
    with it [refObject] and [register] of such a proxy, which leave the
    store as it was.  For an object [x] that a store reached by the
    environment knows, [refObject] gives the reference of its handle, and
    registering [x] again creates no handle, draws no ID and touches neither
    map; when it returns (the merge may throw on a bad FQN; it does not when
    there is none to merge) it returns the live proxy of the handle and a
    reference with its instance ID, the handle holding every new FQN as
    declared or provided, its declared set duplicate-free.  That proxy was
    minted by the handle: [realObject], [refObject] and [register] throw on
    it. *)
Theorem register_proxy_throws :
  (forall self h rt,
     existing_proxy rt h = None ->
     fst (Handle.proxy self (h, rt))
     = Returns (RealObjectProxy (length (proxies rt)) (object h))) /\
  (forall n x, realObject (RealObjectProxy n x) = Throws JSTypeError) /\
  (forall n x s, refObject (RealObjectProxy n x) s = (Throws JSTypeError, s)) /\
  (forall c n x f s,
     register c (Some (RealObjectProxy n x)) f s = (Throws JSTypeError, s)) /\
  (forall (types : gmap string IC.TypeInfo) (ops : list Op) (k a : nat),
     let s := run ops (Kernel.new types) in
     instanceInfo s !! Plain k = Some a ->
     exists h,
       heap s !! a = Some h /\ object h = Plain k /\
       refObject (Plain k) s = (Returns (Some (objRef h)), s) /\
       forall c f, exists out s2,
         register c (Some (Plain k)) f s = (out, s2) /\
         handles s2 = handles s /\ instanceInfo s2 = instanceInfo s /\
         idSequence s2 = idSequence s /\ length (heap s2) = length (heap s) /\
         (f = [] -> exists P, out = Returns (P, objRef h)) /\
         forall P r, out = Returns (P, r) ->
           TOKEN_REF r = instanceId h /\
           (forall p, existing_proxy (runtime s) h = Some p -> P = p) /\
           (exists h2,
              heap s2 !! a = Some h2 /\ r = objRef h2 /\
              existing_proxy (runtime s2) h2 = Some P /\
              NoDup (declaredInterfaces h2) /\
              forall fqn, fqn ∈ f ->
                fqn ∈ declaredInterfaces h2 \/ fqn ∈ providedInterfaces h2) /\
           refObject (Plain k) s2 = (Returns (Some r), s2) /\
           (exists n, P = RealObjectProxy n (Plain k)) /\
           realObject P = Throws JSTypeError /\
           refObject P s2 = (Throws JSTypeError, s2) /\
           forall c' f', register c' (Some P) f' s2 = (Throws JSTypeError, s2)).
Proof.
  split_and!.
  - intros self h rt Hnone. unfold Handle.proxy. by rewrite Hnone.
  - done.
  - done.
  - done.
  - intros types ops k a s Hk.
    assert (wf s) as Hwf by apply wf_run, wf_new.
    destruct (wf_instanceInfo _ Hwf _ _ Hk) as (h & Hh & Hobj).
    exists h. split; [done|]. split; [done|].
    split; [by apply refObject_known with a|].
    intros c f.
    destruct (register_known c k f s a h Hk Hh)
      as (out & s2 & Hr & H1 & H2 & H3 & _ & H5 & Hnil & Hret).
    exists out, s2. split_and!; try done.
    intros P r Hout.
    destruct (Hret P r Hout)
      as (h2 & Hh2 & Hex & _ & -> & Hi & Ho & Hnd & Hcov & _ & Hsome & Hmint).
    destruct (Hmint (wf_proxy _ Hwf _ _ Hh)) as (n & ->).
    split; [exact Hi|]. split; [exact Hsome|].
    split.
    { exists h2. split_and!; try done. apply Hnd. by eapply wf_declared. }
    split; [apply refObject_known with a; [by rewrite H2|done]|].
    split; [exists n; by rewrite Hobj|].
    done.
Qed.

Lemma register_proxy_throws_witness :
  let s := run [ORegister "Object" (Some (Plain 7)) []] (Kernel.new ∅) in
  let P := RealObjectProxy 0 (Plain 7) in
  register "Object" (Some (Plain 7)) [] s = (Returns (P, ref_one), s) /\
  realObject P = Throws JSTypeError /\
  refObject P s = (Throws JSTypeError, s) /\
  register "Object" (Some P) [] s = (Throws JSTypeError, s).
Proof.
  destruct (proj2 (proj2 (proj2 (proj2 register_proxy_throws))) ∅
              [ORegister "Object" (Some (Plain 7)) []] 7%nat 0%nat)
    as (h & Hh & _ & _ & Hreg); [vm_compute; reflexivity|].
  destruct (Hreg "Object" []) as (out & s2 & Hr & _ & _ & _ & _ & _ & Hret).
  assert (register "Object" (Some (Plain 7)) []
            (run [ORegister "Object" (Some (Plain 7)) []] (Kernel.new ∅))
          = (Returns (RealObjectProxy 0 (Plain 7), ref_one),
             run [ORegister "Object" (Some (Plain 7)) []] (Kernel.new ∅))) as Hval
    by (vm_compute; reflexivity).
  rewrite Hval in Hr. injection Hr as <- <-.
  destruct (Hret _ _ eq_refl) as (_ & _ & _ & _ & _ & H1 & H2 & H3).
  split; [exact Hval|]. split; [exact H1|]. split; [exact H2|]. exact (H3 "Object" []).
Defined.



End SourceRegistration.

(** ** Instance IDs of the handles of one sequence *)

Section InstanceIds.

Import Handle Kernel.

(** The handles constructed one after the other with one sequence, each
    from its class, instance and interfaces; a constructor may throw. *)
Fixpoint constructions (types : gmap string IC.TypeInfo)
    (opts : list (string * Obj * list string)) (q : Seq.Sequence)
  : list (Outcome ObjectHandle) :=
  match opts with
  | [] => []
  | (c, x, f) :: opts' =>
      let '(r, q') := Handle.new types c x f q in
      r :: constructions types opts' q'
  end.

Lemma constructions_spec types opts q i r :
  0 <= Seq.nextValue q -> 0 < Seq.stride q ->
  Seq.nextValue q + Z.of_nat (length opts) * Seq.stride q <= safe ->
  constructions types opts q !! i = Some r ->
  exists c x f,
    opts !! i = Some (c, x, f) /\
    forall h, r = Returns h ->
      classFQN h = c /\ object h = x /\
      instanceId h
      = c ++ "@" ++ string_of_Z (Seq.nextValue q + Z.of_nat i * Seq.stride q).
Proof.
  revert q i. induction opts as [|[[c x] f] opts IH]; intros q i H0 Hs Hb; [done|].
  cbn [constructions length] in *.
  destruct (Handle.new types c x f q) as [r0 q'] eqn:Hnew.
  apply new_handle_spec in Hnew as (-> & Hh).
  destruct i as [|i]; simpl.
  - intros [= <-]. exists c, x, f. split; [done|]. intros h ->.
    destruct (Hh h eq_refl) as (Hc & Hi & Ho & _).
    rewrite number_to_string_exact in Hi by nia.
    split_and!; try done. rewrite Hi. do 3 f_equal. lia.
  - intros Hi.
    assert (js_add (Seq.nextValue q) (Seq.stride q) = Seq.nextValue q + Seq.stride q)
      as Hadd by (apply js_add_exact; nia).
    apply IH in Hi; cbn [Seq.nextValue Seq.stride] in *; rewrite ?Hadd; [|lia|done|lia].
    destruct Hi as (c' & x' & f' & Hopt & Hh').
    exists c', x', f'. split; [done|]. intros h ->.
    destruct (Hh' h eq_refl) as (? & ? & Hid). split_and!; try done.
    rewrite Hid, Hadd. do 3 f_equal. lia.
Qed.

(** C8, as the code has it.  A sequence can be made from every origin
    [>= 0] and stride [> 0] up to 2^53, and its [(n+1)]-th [next()] is
    [origin + n * stride] as long as that number is at most 2^53; the
    default sequence, which is that of a new store, starts at 10000 with
    stride 1.  The constructor of the handle draws one number, whether it
    then returns or throws, and [delete] draws none.  Handles constructed
    one after the other with one sequence whose numbers stay within 2^53
    get the IDs [classFQN@n] with [n] the number of the sequence at their
    turn: strictly increasing, and the IDs pairwise different. *)
Theorem instance_ids_increase :
  (forall origin stride n,
     0 <= origin -> 0 < stride <= safe ->
     origin + Z.of_nat n * stride <= safe ->
     exists sq, Seq.new origin stride = Returns sq /\
       Seq.nth_next n sq = Returns (origin + Z.of_nat n * stride)) /\
  (Seq.new 10000 1 = Returns Seq.default /\
   forall types, idSequence (Kernel.new types) = Seq.default) /\
  (forall types c x f q,
     snd (Handle.new types c x f q)
     = {| Seq.stride := Seq.stride q;
          Seq.nextValue := js_add (Seq.nextValue q) (Seq.stride q) |}) /\
  (forall ref s, idSequence (snd (delete ref s)) = idSequence s) /\
  (forall types opts q,
     0 <= Seq.nextValue q -> 0 < Seq.stride q ->
     Seq.nextValue q + Z.of_nat (length opts) * Seq.stride q <= safe ->
     (forall i h,
        constructions types opts q !! i = Some (Returns h) ->
        exists c x f,
          opts !! i = Some (c, x, f) /\ classFQN h = c /\ object h = x /\
          instanceId h
          = c ++ "@" ++ string_of_Z (Seq.nextValue q + Z.of_nat i * Seq.stride q)) /\
     (forall i j, (i < j)%nat ->
        Seq.nextValue q + Z.of_nat i * Seq.stride q
        < Seq.nextValue q + Z.of_nat j * Seq.stride q) /\
     (forall i j hi hj, (i < j)%nat ->
        constructions types opts q !! i = Some (Returns hi) ->
        constructions types opts q !! j = Some (Returns hj) ->
        instanceId hi <> instanceId hj)).
Proof.
  split_and!.
  - intros origin stride n H0 [Hs Hs'] Hb.
    pose proof safe_lt_Infinity as Hinf.
    assert (Seq.new origin stride
            = Returns {| Seq.stride := stride; Seq.nextValue := origin |}) as Hnew.
    { unfold Seq.new, isInteger.
      rewrite (proj2 (Z.leb_le 0 origin)) by done.
      rewrite (proj2 (Z.ltb_lt (Z.abs origin) Infinity)) by nia.
      rewrite (proj2 (Z.ltb_lt 0 stride)) by done.
      by rewrite (proj2 (Z.ltb_lt (Z.abs stride) Infinity)) by lia. }
    eexists. split; [exact Hnew|].
    by rewrite nth_next_spec; cbn [Seq.nextValue Seq.stride]; [|lia..].
  - done.
  - done.
  - intros types c x f q.
    destruct (Handle.new types c x f q) as [r q'] eqn:Hnew.
    by apply new_handle_spec in Hnew as (-> & _).
  - intros ref s. open_delete.
    destruct (handle_hasProxy s (TOKEN_REF ref)); [done|].
    by destruct (bool_decide _).
  - intros types opts q H0 Hs Hb. split_and!.
    + intros i h Hi.
      destruct (constructions_spec _ _ _ _ _ H0 Hs Hb Hi) as (c & x & f & Hopt & Hh).
      exists c, x, f. destruct (Hh h eq_refl) as (? & ? & ?). done.
    + intros i j Hij. nia.
    + intros i j hi hj Hij Hi Hj.
      destruct (constructions_spec _ _ _ _ _ H0 Hs Hb Hi) as (c & x & f & _ & Hh).
      destruct (constructions_spec _ _ _ _ _ H0 Hs Hb Hj) as (c' & x' & f' & _ & Hh').
      destruct (Hh hi eq_refl) as (_ & _ & ->).
      destruct (Hh' hj eq_refl) as (_ & _ & ->).
      intros Heq. apply instanceId_inj in Heq as [_ Heq]. nia.
Qed.

Lemma instance_ids_increase_witness :
  exists sq, Seq.new 10000 1 = Returns sq /\ Seq.nth_next 3 sq = Returns 10003.
Proof.
  apply (proj1 instance_ids_increase 10000 1 3%nat).
  - lia.
  - rewrite safe_value. lia.
  - rewrite safe_value. lia.
Defined.

(** C8 as stated fails from 2^53 on, where adding the stride 1 to a number
    gives the number itself: [next()] repeats its value, and two handles
    get the same ID. *)
Lemma instance_ids_increase_counterexample :
  let sq := {| Seq.stride := 1; Seq.nextValue := 2 ^ 53 |} in
  let h (x : Obj) :=
    {| classFQN := "Object"; instanceId := "Object@9007199254740992";
       object := x; proxyReference := None;
       declaredInterfaces := []; providedInterfaces := [] |} in
  Seq.new (2 ^ 53) 1 = Returns sq /\
  Seq.nth_next 1 sq = Returns (2 ^ 53) /\
  constructions ∅ [("Object", Plain 0, []); ("Object", Plain 1, [])] sq
  = [Returns (h (Plain 0)); Returns (h (Plain 1))].
Proof. vm_compute. split_and!; reflexivity. Qed.

End InstanceIds.

(** ** The type marker *)

Section TypeMarkerFacts.

Import TypeMarker.

(** [o] is on the prototype chain of [c]. *)
Definition proto_step (H : gmap nat JSObject) (a b : nat) : Prop :=
  exists ob, H !! a = Some ob /\ prototype ob = Some b.

Lemma lookup_chain_own {A} fuel H (own : JSObject -> option A) o ob v :
  H !! o = Some ob -> own ob = Some v -> lookup_chain fuel H own o = Some v.
Proof. intros Ho Hv. destruct fuel; simpl; by rewrite Ho, Hv. Qed.

Lemma lookup_chain_none {A} fuel H (own : JSObject -> option A) c :
  (forall o ob, rtc (proto_step H) c o -> H !! o = Some ob -> own ob = None) ->
  lookup_chain fuel H own c = None.
Proof.
  revert c. induction fuel as [|fuel IH]; intros c Hnone; simpl.
  - destruct (H !! c) as [ob|] eqn:Hc; [|done].
    rewrite (Hnone c ob (rtc_refl _ _) Hc). by destruct (prototype ob).
  - destruct (H !! c) as [ob|] eqn:Hc; [|done].
    rewrite (Hnone c ob (rtc_refl _ _) Hc).
    destruct (prototype ob) as [p|] eqn:Hp; [|done].
    apply IH. intros o ob' Hrtc. apply Hnone.
    eapply rtc_l; [|exact Hrtc]. by exists ob.
Qed.

(** The object [n] steps up the prototype chain of [c]. *)
Fixpoint proto_at (H : gmap nat JSObject) (n : nat) (c : nat) : option nat :=
  match n with
  | O => Some c
  | S n' =>
      match H !! c with
      | Some ob => match prototype ob with
                   | Some p => proto_at H n' p
                   | None => None
                   end
      | None => None
      end
  end.

(** The own property of the object at [o]. *)
Definition own_at {A} (H : gmap nat JSObject) (own : JSObject -> option A) (o : nat)
  : option A :=
  match H !! o with Some ob => own ob | None => None end.

(** [o], [n] steps up the prototype chain of [c], has the property with
    value [v], and no object of the chain before it has the property. *)
Definition nearest {A} (H : gmap nat JSObject) (own : JSObject -> option A)
    (c : nat) (n : nat) (o : nat) (v : A) : Prop :=
  proto_at H n c = Some o /\ own_at H own o = Some v /\
  forall m o', (m < n)%nat -> proto_at H m c = Some o' -> own_at H own o' = None.

Lemma proto_at_add H a b c :
  proto_at H (a + b) c
  = match proto_at H a c with Some o => proto_at H b o | None => None end.
Proof.
  revert c. induction a as [|a IH]; intros c; [done|].
  cbn [Nat.add proto_at]. destruct (H !! c) as [ob|]; [|done].
  destruct (prototype ob) as [p|]; [|done]. apply IH.
Qed.

Lemma proto_at_prefix H n m c o :
  proto_at H n c = Some o -> (m <= n)%nat -> is_Some (proto_at H m c).
Proof.
  intros Hn Hm. replace n with (m + (n - m))%nat in Hn by lia.
  rewrite proto_at_add in Hn. destruct (proto_at H m c); [eauto|done].
Qed.

Lemma proto_at_dom H n m c o o' :
  proto_at H n c = Some o -> (m < n)%nat -> proto_at H m c = Some o' ->
  is_Some (H !! o').
Proof.
  intros Hn Hm Hm'.
  destruct (proto_at_prefix H n (m + 1) c o Hn) as [x Hx]; [lia|].
  rewrite proto_at_add, Hm' in Hx. cbn [proto_at] in Hx.
  destruct (H !! o'); [eauto|done].
Qed.

Lemma length_le_size (H : gmap nat JSObject) (l : list nat) :
  NoDup l -> (forall x, x ∈ l -> is_Some (H !! x)) -> (length l <= size H)%nat.
Proof.
  intros Hnd Hin. rewrite <- (size_dom (D := gset nat) H).
  rewrite <- (size_list_to_set (C := gset nat) l) by done.
  apply subseteq_size. intros x Hx. apply elem_of_list_to_set in Hx.
  apply elem_of_dom. auto.
Qed.

(** The objects up to the nearest one with the property are pairwise
    different objects of the heap. *)
Lemma nearest_bound {A} H (own : JSObject -> option A) c n o v :
  nearest H own c n o v -> (n < size H)%nat.
Proof.
  intros (Hn & Hv & Hnone).
  set (f := fun m => default 0%nat (proto_at H m c)).
  assert (forall m, (m <= n)%nat -> proto_at H m c = Some (f m)) as Hf.
  { intros m Hm. unfold f. by destruct (proto_at_prefix H n m c o Hn Hm) as [x ->]. }
  assert (forall i j, (i < j)%nat -> (j <= n)%nat -> f i <> f j) as Hne.
  { intros i j Hij Hj Heq.
    assert (proto_at H (i + (n - j)) c = Some o) as Hback.
    { rewrite proto_at_add, (Hf i) by lia. rewrite Heq.
      rewrite <- Hn. replace n with (j + (n - j))%nat at 2 by lia.
      by rewrite proto_at_add, (Hf j) by lia. }
    apply Hnone in Hback; [congruence|lia]. }
  enough (length (f <$> seq 0 (S n)) <= size H)%nat as Hlen.
  { rewrite length_fmap, length_seq in Hlen. lia. }
  apply length_le_size.
  - apply NoDup_fmap_2_strong; [|apply NoDup_seq].
    intros i j Hi Hj Heq. apply elem_of_seq in Hi, Hj.
    destruct (Nat.lt_trichotomy i j) as [Hlt|[->|Hlt]]; [|done|].
    + exfalso. apply (Hne i j); [done|lia|done].
    + exfalso. apply (Hne j i); [done|lia|done].
  - intros x Hx. apply list_elem_of_fmap in Hx as (m & -> & Hm).
    apply elem_of_seq in Hm.
    destruct (decide (m = n)) as [->|Hmn].
    + assert (f n = o) as ->.
      { specialize (Hf n (Nat.le_refl n)). congruence. }
      unfold own_at in Hv. destruct (H !! o); [eauto|done].
    + apply (proto_at_dom H n m c o); [done|lia|apply Hf; lia].
Qed.

Lemma lookup_chain_nearest {A} fuel H (own : JSObject -> option A) c n o v :
  nearest H own c n o v -> (n <= fuel)%nat -> lookup_chain fuel H own c = Some v.
Proof.
  revert c fuel. induction n as [|n IH]; intros c fuel (Hn & Hv & Hnone) Hfuel.
  - injection Hn as ->. unfold own_at in Hv.
    destruct (H !! o) as [ob|] eqn:Ho; [|done]. by eapply lookup_chain_own.
  - destruct fuel as [|fuel]; [lia|].
    pose proof (Hnone 0%nat c ltac:(lia) eq_refl) as Hc.
    cbn [proto_at] in Hn. unfold own_at in Hc. cbn [lookup_chain].
    destruct (H !! c) as [ob|] eqn:Hob; [|done]. rewrite Hc.
    destruct (prototype ob) as [p|] eqn:Hp; [|done].
    apply IH; [|lia]. split; [done|]. split; [done|].
    intros m o' Hm Hm'. apply (Hnone (S m) o'); [lia|].
    cbn [proto_at]. by rewrite Hob, Hp.
Qed.

(** Reading a property gives the value that the nearest object of the
    prototype chain has for it. *)
Lemma get_nearest {A} H (own : JSObject -> option A) c n o v :
  nearest H own c n o v -> get H own c = Some v.
Proof.
  intros Hnear. unfold get. eapply lookup_chain_nearest; [exact Hnear|].
  apply nearest_bound in Hnear. lia.
Qed.

Lemma proto_step_proto_at H c o :
  rtc (proto_step H) c o -> exists n, proto_at H n c = Some o.
Proof.
  induction 1 as [c|c p o (ob & Hob & Hp) _ (n & Hn)]; [by exists 0%nat|].
  exists (S n). cbn [proto_at]. by rewrite Hob, Hp.
Qed.

(** The descriptor [registerType] passes to [defineProperty]. *)
Definition marker_of (fqn : string) : PropertyDescriptor :=
  {| value := fqn; writable := false; enumerable := false; configurable := false |}.

(** C9, as the code has it.  On an extensible type object without marker,
    [registerType] installs the FQN as a property that is neither writable,
    enumerable nor configurable.  On a type object that has it, a second
    [registerType] throws a [TypeError] when the FQN differs and returns
    normally when it is the same; the object is unchanged either way.
    [typeFQN] returns the FQN registered for the constructor of the value;
    in general, with the constructor read from the nearest object of the
    prototype chain of the value that has one, the FQN of the nearest
    registered object of the prototype chain of the constructor, whatever
    is registered further up; and [undefined] when no object of that chain
    was registered. *)
Theorem type_marker :
  (forall H t ob fqn,
     H !! t = Some ob -> marker ob = None -> extensible ob = true ->
     registerType t fqn H =
       (Returns tt,
        <[t := {| marker := Some (marker_of fqn); constructor_ := constructor_ ob;
                  extensible := true; prototype := prototype ob |}]> H)) /\
  (forall H t ob fqn fqn',
     H !! t = Some ob -> marker ob = Some (marker_of fqn) ->
     (fqn' <> fqn -> registerType t fqn' H = (Throws JSTypeError, H)) /\
     (fqn' = fqn -> registerType t fqn' H = (Returns tt, H))) /\
  (forall H v c ob fqn,
     get H constructor_ v = Some c ->
     H !! c = Some ob -> marker ob = Some (marker_of fqn) ->
     typeFQN v H = (Returns (Some fqn), H)) /\
  (forall H v m p c n o fqn,
     nearest H constructor_ v m p c ->
     nearest H marker c n o (marker_of fqn) ->
     typeFQN v H = (Returns (Some fqn), H)) /\
  (forall H v m p c,
     nearest H constructor_ v m p c ->
     (forall n o, proto_at H n c = Some o -> own_at H marker o = None) ->
     typeFQN v H = (Returns None, H)) /\
  (forall H v c,
     get H constructor_ v = Some c ->
     (forall o ob, rtc (proto_step H) c o -> H !! o = Some ob -> marker ob = None) ->
     typeFQN v H = (Returns None, H)).
Proof.
  split_and!.
  - intros H t ob fqn Ht Hm Hext. unfold registerType, defineProperty.
    rewrite Ht. unfold validateAndApply. rewrite Hm, Hext. done.
  - intros H t ob fqn fqn' Ht Hm. unfold registerType, defineProperty.
    rewrite Ht. unfold validateAndApply. rewrite Hm. simpl. split.
    + intros Hne. by rewrite bool_decide_eq_false_2.
    + intros ->. rewrite bool_decide_eq_true_2 by done.
      f_equal. apply insert_id. rewrite Ht. f_equal. destruct ob. simpl in *. congruence.
  - intros H v c ob fqn Hc Hob Hm. unfold typeFQN. rewrite Hc.
    unfold get. by rewrite (lookup_chain_own _ _ _ _ _ _ Hob Hm).
  - intros H v m p c n o fqn Hc Hm. unfold typeFQN.
    by rewrite (get_nearest _ _ _ _ _ _ Hc), (get_nearest _ _ _ _ _ _ Hm).
  - intros H v m p c Hc Hnone. unfold typeFQN.
    rewrite (get_nearest _ _ _ _ _ _ Hc). unfold get.
    rewrite lookup_chain_none; [done|].
    intros o ob Hrtc Hob. apply proto_step_proto_at in Hrtc as (n & Hn).
    apply Hnone in Hn. unfold own_at in Hn. by rewrite Hob in Hn.
  - intros H v c Hc Hnone. unfold typeFQN. rewrite Hc.
    unfold get. by rewrite lookup_chain_none.
Qed.

(** A class [A] (object 0), a class [B extends A] (object 1), [B.prototype]
    (object 2) and an instance of [B] (object 3); a class [C extends B]
    (object 4), [C.prototype] (object 5) and an instance of [C]
    (object 6). *)
Definition class_heap : gmap nat JSObject :=
  <[0%nat := mkObject None None true None]>
  (<[1%nat := mkObject None None true (Some 0%nat)]>
  (<[2%nat := mkObject None (Some 1%nat) true None]>
  (<[3%nat := mkObject None None true (Some 2%nat)]>
  (<[4%nat := mkObject None None true (Some 1%nat)]>
  (<[5%nat := mkObject None (Some 4%nat) true (Some 2%nat)]>
  (<[6%nat := mkObject None None true (Some 5%nat)]> ∅)))))).

(** [class_heap] with [A] and [B] registered, [C] not. *)
Definition class_heap_registered : gmap nat JSObject :=
  snd (registerType 1 "b.B" (snd (registerType 0 "a.A" class_heap))).

Lemma type_marker_witness :
  registerType 0 "a.A" class_heap =
    (Returns tt,
     <[0%nat := {| marker := Some (marker_of "a.A"); constructor_ := None;
                   extensible := true; prototype := None |}]> class_heap) /\
  typeFQN 6 class_heap_registered = (Returns (Some "b.B"), class_heap_registered).
Proof.
  split.
  - refine (proj1 type_marker class_heap 0%nat (mkObject None None true None) "a.A" _ _ _).
    + vm_compute. reflexivity.
    + reflexivity.
    + reflexivity.
  - refine (proj1 (proj2 (proj2 (proj2 type_marker))) class_heap_registered
              6%nat 1%nat 5%nat 4%nat 1%nat 1%nat "b.B" _ _).
    + split; [vm_compute; reflexivity|]. split; [vm_compute; reflexivity|].
      intros [|m] o' Hm; [|lia]. vm_compute. by intros [= <-].
    + split; [vm_compute; reflexivity|]. split; [vm_compute; reflexivity|].
      intros [|m] o' Hm; [|lia]. vm_compute. by intros [= <-].
Defined.

(** C9 as stated fails twice: registering the same FQN a second time on a
    type object returns normally; and the instance of [B], whose constructor
    was never registered, gets the FQN of [A].  With [B] registered as
    well, the instance of [C], whose constructor was never registered, gets
    the FQN of [B], the nearest, and not that of [A]. *)
Lemma type_marker_counterexample :
  let H1 := snd (registerType 0 "a.A" class_heap) in
  registerType 0 "a.A" H1 = (Returns tt, H1) /\
  get H1 constructor_ 3 = Some 1%nat /\
  (marker <$> H1 !! 1%nat) = Some None /\
  typeFQN 3 H1 = (Returns (Some "a.A"), H1) /\
  get class_heap_registered constructor_ 6 = Some 4%nat /\
  (marker <$> class_heap_registered !! 4%nat) = Some None /\
  typeFQN 6 class_heap_registered = (Returns (Some "b.B"), class_heap_registered).
Proof. vm_compute. split_and!; reflexivity. Qed.

End TypeMarkerFacts.

(** ** The host reference table *)

Section HostFacts.

Import Host.

(** The two maps mirror each other, and name references that exist. *)
Record hwf (s : ObjectStore) : Prop := mkHwf {
  hwf_ref : forall r id, referenceInstanceId s !! r = Some id ->
    exists h, objectsById s !! id = Some h /\ weakReference h = r;
  hwf_obj : forall id h, objectsById s !! id = Some h ->
    referenceInstanceId s !! weakReference h = Some id;
  hwf_bound : forall r, is_Some (referenceInstanceId s !! r) ->
    (r < length (references s))%nat
}.

Lemma hwf_new : hwf Host.new.
Proof.
  split; simpl.
  - intros r id H. by rewrite lookup_empty in H.
  - intros id h H. by rewrite lookup_empty in H.
  - intros r [id H]. by rewrite lookup_empty in H.
Qed.

(** Replacing a handle by one with the same weak reference. *)
Lemma hwf_update s id h h' :
  hwf s -> objectsById s !! id = Some h -> weakReference h' = weakReference h ->
  hwf (set_objectsById (<[id := h']> (objectsById s)) s).
Proof.
  intros [H1 H2 H3] Hid Hw. split; simpl; [| |done].
  - intros r id' Hr. destruct (H1 _ _ Hr) as (h0 & Hh0 & Hw0).
    destruct (decide (id = id')) as [<-|Hne].
    + rewrite lookup_insert_eq. exists h'. split; [done|]. congruence.
    + rewrite lookup_insert_ne by done. eauto.
  - intros id' h0. destruct (decide (id = id')) as [<-|Hne].
    + rewrite lookup_insert_eq. intros [= <-]. rewrite Hw. by apply H2.
    + rewrite lookup_insert_ne by done. apply H2.
Qed.

Lemma hwf_handle_retain id h s :
  hwf s -> objectsById s !! id = Some h -> hwf (snd (handle_retain id h s)).
Proof.
  intros Hwf Hid. unfold handle_retain.
  destruct (weak_get s (weakReference h)); simpl; by eapply hwf_update.
Qed.

Lemma hwf_drain queue result s :
  hwf s -> hwf (snd (drain queue result s)).
Proof.
  revert result s. induction queue as [|r queue IH]; intros result s Hwf; simpl; [done|].
  destruct Hwf as [H1 H2 H3].
  destruct (referenceInstanceId s !! r) as [id|] eqn:Hr.
  - apply IH. split; simpl.
    + intros r' id' Hr'. apply lookup_delete_Some in Hr' as [Hne Hr'].
      destruct (H1 _ _ Hr') as (h' & Hh' & Hw'). exists h'. split; [|done].
      rewrite lookup_delete_ne; [done|]. intros <-.
      destruct (H1 _ _ Hr) as (h & Hh & Hw). congruence.
    + intros id' h'. intros Hh'. apply lookup_delete_Some in Hh' as [Hne Hh'].
      rewrite lookup_delete_ne; [by apply H2|]. intros Heq.
      pose proof (H2 _ _ Hh') as Hr'. rewrite <- Heq in Hr'. congruence.
    + intros r' [id' Hr']. apply lookup_delete_Some in Hr' as [_ Hr']. eauto.
  - apply IH. split; simpl.
    + intros r' id' Hr'. apply lookup_delete_Some in Hr' as [_ Hr']. eauto.
    + intros id' h' Hh'. rewrite lookup_delete_ne; [by apply H2|].
      intros Heq. pose proof (H2 _ _ Hh') as Hr'. rewrite <- Heq in Hr'. congruence.
    + intros r' [id' Hr']. apply lookup_delete_Some in Hr' as [_ Hr']. eauto.
Qed.

Lemma hwf_step op s : hwf s -> hwf (step op s).
Proof.
  intros Hwf. destruct op as [o id|id|id|id| |o]; simpl.
  - unfold register. destruct (objectsById s !! id) as [h|] eqn:Hid.
    + by apply hwf_handle_retain.
    + destruct Hwf as [H1 H2 H3]. split; simpl.
      * intros r id'. destruct (decide (length (references s) = r)) as [<-|Hne].
        -- rewrite lookup_insert_eq. intros [= <-]. rewrite lookup_insert_eq. eauto.
        -- rewrite lookup_insert_ne by done. intros Hr.
           destruct (H1 _ _ Hr) as (h' & Hh' & Hw'). exists h'. split; [|done].
           rewrite lookup_insert_ne; [done|]. congruence.
      * intros id' h'. destruct (decide (id = id')) as [<-|Hne].
        -- rewrite lookup_insert_eq. intros [= <-]. simpl. by rewrite lookup_insert_eq.
        -- rewrite lookup_insert_ne by done. intros Hh'.
           pose proof (H2 _ _ Hh') as Hr'.
           rewrite lookup_insert_ne; [done|]. intros Heq.
           assert (weakReference h' < length (references s))%nat by (apply H3; eauto).
           lia.
      * intros r. rewrite lookup_insert_is_Some, length_app. simpl.
        intros [<-|[_ Hr]]; [lia|]. apply H3 in Hr. lia.
  - done.
  - unfold release. destruct (objectsById s !! id) as [h|] eqn:Hid; [|done].
    simpl. by eapply hwf_update.
  - unfold retain. destruct (objectsById s !! id) as [h|] eqn:Hid; [|done].
    by apply hwf_handle_retain.
  - unfold getDroppedReferences.
    pose proof (hwf_drain (referenceQueue s) ∅ s Hwf) as Hd.
    by destruct (drain (referenceQueue s) ∅ s).
  - unfold gc_reclaim. destruct (strongly_held s o); [done|].
    destruct Hwf as [H1 H2 H3]. split; simpl; [done|done|].
    intros r Hr. rewrite length_fmap. by apply H3.
Qed.

Lemma hwf_run ops s : hwf s -> hwf (run ops s).
Proof.
  revert s. induction ops as [|op ops IH]; intros s Hwf; simpl; [done|].
  apply IH. by apply hwf_step.
Qed.

(** What one drain reports and removes. *)
Lemma drain_spec queue result s result' s' :
  drain queue result s = (result', s') ->
  (forall id, objectsById s !! id = None -> objectsById s' !! id = None) /\
  (forall r, referenceInstanceId s !! r = None -> referenceInstanceId s' !! r = None) /\
  (forall id, id ∈ result' ->
     id ∈ result \/
     (exists r, r ∈ queue /\ referenceInstanceId s !! r = Some id) /\
     objectsById s' !! id = None).
Proof.
  revert result s. induction queue as [|r queue IH]; intros result s; simpl.
  - intros [= <- <-]. split_and!; auto.
  - destruct (referenceInstanceId s !! r) as [id|] eqn:Hr; intros Hd;
      apply IH in Hd as (Ho & Hr' & Hres); simpl in *.
    + split_and!.
      * intros id' Hid'. apply Ho. apply lookup_delete_None. auto.
      * intros r' Hn. apply Hr'. apply lookup_delete_None. auto.
      * intros id' Hin. apply Hres in Hin as [Hin|((r' & Hq & Hl) & Hgone)].
        -- apply elem_of_union in Hin as [Hin|Hin]; [|auto].
           apply elem_of_singleton in Hin as ->. right. split.
           ++ exists r. split; [by left|done].
           ++ apply Ho. apply lookup_delete_eq.
        -- right. split; [|done]. apply lookup_delete_Some in Hl as [_ Hl].
           exists r'. split; [by right|done].
    + split_and!.
      * done.
      * intros r' Hn. apply Hr'. apply lookup_delete_None. auto.
      * intros id' Hin. apply Hres in Hin as [Hin|((r' & Hq & Hl) & Hgone)]; [auto|].
        right. split; [|done]. apply lookup_delete_Some in Hl as [_ Hl].
        exists r'. split; [by right|done].
Qed.

Definition registers (id : string) (op : Op) : bool :=
  match op with ORegister _ id' => bool_decide (id' = id) | _ => false end.

Lemma step_absent op s id :
  registers id op = false ->
  objectsById s !! id = None -> objectsById (step op s) !! id = None.
Proof.
  intros Hop Hid. destruct op as [o id'|id'|id'|id'| |o]; simpl in *.
  - apply bool_decide_eq_false in Hop. unfold register, handle_retain.
    destruct (objectsById s !! id') as [h|] eqn:Hid'.
    + destruct (weak_get s (weakReference h)); simpl; by rewrite lookup_insert_ne.
    + simpl. by rewrite lookup_insert_ne.
  - done.
  - unfold release. destruct (objectsById s !! id') as [h|] eqn:Hid'; [|done].
    simpl. rewrite lookup_insert_ne; [done|]. congruence.
  - unfold retain, handle_retain. destruct (objectsById s !! id') as [h|] eqn:Hid'; [|done].
    destruct (weak_get s (weakReference h)); simpl;
      (rewrite lookup_insert_ne; [done|congruence]).
  - unfold getDroppedReferences.
    destruct (drain (referenceQueue s) ∅ s) as [res s'] eqn:Hd. simpl.
    apply drain_spec in Hd as (Ho & _). by apply Ho.
  - unfold gc_reclaim. by destruct (strongly_held s o).
Qed.

Lemma run_absent ops s id :
  existsb (registers id) ops = false ->
  objectsById s !! id = None -> objectsById (run ops s) !! id = None.
Proof.
  revert s. induction ops as [|op ops IH]; intros s Hops Hid; simpl in *; [done|].
  apply orb_false_iff in Hops as [Hop Hops]. apply IH; [done|]. by apply step_absent.
Qed.

(** An ID without handle is not reported, and [getObject] gives [null]. *)
Lemma absent_not_dropped s id :
  hwf s -> objectsById s !! id = None ->
  (forall result s', getDroppedReferences s = (Returns result, s') -> id ∉ result) /\
  getObject id s = (Returns None, s).
Proof.
  intros Hwf Hid. split.
  - intros result s'. unfold getDroppedReferences.
    destruct (drain (referenceQueue s) ∅ s) as [res t] eqn:Hd. intros [= <- <-] Hin.
    apply drain_spec in Hd as (_ & _ & Hres).
    apply Hres in Hin as [Hin|((r & _ & Hr) & _)]; [set_solver|].
    destruct (hwf_ref s Hwf _ _ Hr) as (h & Hh & _). congruence.
  - unfold getObject, gets. by rewrite Hid.
Qed.

(** C10, as the code has it.  In a table reached from a new one, every
    instance ID that [getDroppedReferences] returns is gone from both maps
    when it returns; and until that ID is registered again, whatever else
    happens, no later call reports it and [getObject] gives [null] for it. *)
Theorem dropped_references (ops : list Op) :
  let s := run ops Host.new in
  exists result s',
    getDroppedReferences s = (Returns result, s') /\
    forall id, id ∈ result ->
      objectsById s' !! id = None /\
      (forall r, referenceInstanceId s' !! r <> Some id) /\
      forall ops2, existsb (registers id) ops2 = false ->
        let s2 := run ops2 s' in
        getObject id s2 = (Returns None, s2) /\
        exists result2 s3,
          getDroppedReferences s2 = (Returns result2, s3) /\ id ∉ result2.
Proof.
  intros s. assert (hwf s) as Hwf by apply hwf_run, hwf_new.
  unfold getDroppedReferences at 1.
  destruct (drain (referenceQueue s) ∅ s) as [result s'] eqn:Hd.
  exists result, s'. split; [done|]. intros id Hin.
  assert (hwf s') as Hwf'.
  { replace s' with (snd (drain (referenceQueue s) ∅ s)) by (by rewrite Hd).
    by apply hwf_drain. }
  apply drain_spec in Hd as (_ & _ & Hres).
  apply Hres in Hin as [Hin|(_ & Hgone)]; [set_solver|].
  split; [done|]. split.
  - intros r Hr. destruct (hwf_ref s' Hwf' _ _ Hr) as (h & Hh & _). congruence.
  - intros ops2 Hops. set (s2 := run ops2 s').
    assert (hwf s2) as Hwf2 by (by apply hwf_run).
    assert (objectsById s2 !! id = None) as Hid2 by (by apply run_absent).
    destruct (absent_not_dropped s2 id Hwf2 Hid2) as (Hnot & Hget).
    split; [done|].
    destruct (getDroppedReferences s2) as [[result2|e] s3] eqn:Hd2.
    + exists result2, s3. split; [done|]. by eapply Hnot.
    + unfold getDroppedReferences in Hd2.
      by destruct (drain (referenceQueue s2) ∅ s2).
Qed.

(** A host object registered, released and reclaimed. *)
Definition table_dropped : ObjectStore :=
  run [ORegister 1 "A@1"; ORelease "A@1"; OReclaim 1] Host.new.

Lemma dropped_references_witness :
  exists result s',
    getDroppedReferences table_dropped = (Returns result, s') /\
    result = {[ "A@1" ]} /\
    objectsById s' !! "A@1" = None /\
    getObject "A@1" s' = (Returns None, s').
Proof.
  destruct (dropped_references [ORegister 1 "A@1"; ORelease "A@1"; OReclaim 1])
    as (result & s' & Hd & Hall).
  exists result, s'. split; [done|].
  assert (result = {[ "A@1" ]}) as ->.
  { change (run [ORegister 1 "A@1"; ORelease "A@1"; OReclaim 1] Host.new)
      with table_dropped in Hd.
    assert (fst (getDroppedReferences table_dropped) = Returns {[ "A@1" ]}) as Hc
      by (vm_compute; reflexivity).
    rewrite Hd in Hc. simpl in Hc. congruence. }
  split; [done|].
  destruct (Hall "A@1") as (Hgone & _ & Hlater); [set_solver|].
  split; [done|]. by destruct (Hlater []).
Defined.

(** C10 as stated fails: the instance ID is registered again for a new host
    object, which is released and reclaimed in turn; a second call reports
    the same ID, and in between [getObject] gives the new object. *)
Lemma dropped_references_counterexample :
  let s1 := snd (getDroppedReferences table_dropped) in
  let s2 := run [ORegister 2 "A@1"] s1 in
  let s3 := run [ORelease "A@1"; OReclaim 2] s2 in
  fst (getDroppedReferences table_dropped) = Returns {[ "A@1" ]} /\
  fst (getObject "A@1" s2) = Returns (Some 2%nat) /\
  fst (getDroppedReferences s3) = Returns {[ "A@1" ]}.
Proof. vm_compute. split_and!; reflexivity. Qed.

End HostFacts.

(** * Further properties *)

(** ** The kernel store *)

Section KernelMore.

Import Handle Kernel Stats.

Lemma set_runtime_heap_same s a h :
  heap s !! a = Some h ->
  set_runtime (runtime s) (set_heap (<[a := h]> (heap s)) s) = s.
Proof.
  intros Hh. unfold set_runtime, set_heap. simpl.
  rewrite list_insert_id by done. by destruct s.
Qed.

(** [dereference] pins the object.  When [dereference(ref)] returns, the
    handle holds a live proxy, the one returned: [dereference(ref)] once
    more returns the same class, proxy and interfaces and leaves the store
    as it is, and [delete(ref)] throws, leaving the store as it is.
    [dereference] itself changes neither map, nor the events, the finalized
    set or the sequence. *)
Theorem dereference_pins (ref : ObjRef) (s : ObjectStore)
    (c : string) (p : Obj) (i : list string) (s1 : ObjectStore) :
  dereference ref s = (Returns (c, p, i), s1) ->
  dereference ref s1 = (Returns (c, p, i), s1) /\
  delete ref s1 = (Throws StillReachable, s1) /\
  handles s1 = handles s /\ instanceInfo s1 = instanceInfo s /\
  events s1 = events s /\ finalized s1 = finalized s /\
  idSequence s1 = idSequence s.
Proof.
  intros Hd. pose proof (dereference_has_proxy _ _ _ _ Hd) as Hlive.
  apply dereference_cases in Hd.
  inversion Hd as [| |a h p' h2 rt2 Ha Hh Hp]; subst.
  apply proxy_spec in Hp as (p0 & [= <-] & Hex & _ & Hc & _).
  set (s1 := set_runtime rt2 (set_heap (<[a:=h2]> (heap s)) s)) in *.
  assert (heap s1 !! a = Some h2) as Hh2.
  { simpl. apply list_lookup_insert_eq. by eapply lookup_lt_Some. }
  split_and!; try done.
  - destruct (dereference ref s1) as [r s2] eqn:Hd2.
    apply dereference_cases in Hd2.
    inversion Hd2 as [Hn| b Hb Hn|b h' p' h3 rt3 Hb Hh' Hp']; subst.
    + simpl in Hn. congruence.
    + simpl in Hb. assert (b = a) as -> by congruence. congruence.
    + simpl in Hb. assert (b = a) as -> by congruence.
      assert (h' = h2) as -> by congruence.
      unfold Handle.proxy in Hp'. change (runtime s1) with rt2 in Hp'.
      rewrite Hex in Hp'. injection Hp' as <- <- <-.
      rewrite Hc. f_equal.
      change rt2 with (runtime s1). by apply set_runtime_heap_same.
  - open_delete. by rewrite Hlive.
Qed.

Lemma dereference_pins_witness :
  let s1 := snd (dereference ref_one (run [OCollect 0] store_one)) in
  dereference ref_one s1 = (Returns ("Object", RealObjectProxy 1 (Plain 7), []), s1) /\
  delete ref_one s1 = (Throws StillReachable, s1).
Proof.
  destruct (dereference_pins ref_one (run [OCollect 0] store_one)
              "Object" (RealObjectProxy 1 (Plain 7)) []
              (snd (dereference ref_one (run [OCollect 0] store_one))))
    as (H1 & H2 & _); [vm_compute; reflexivity|].
  split; [exact H1|exact H2].
Defined.

(** *** The statistics *)

(** The handles of the map [m], as [retainedObjects] goes through them. *)
Definition values (m : gmap string nat) : list nat := (map_to_list m).*2.

(** The handles of [l] that have a live proxy. *)
Definition retained_in (s : ObjectStore) (l : list nat) : nat :=
  length (filter (fun a => address_hasProxy s a) l).

Lemma retained_in_perm s l l' : l ≡ₚ l' -> retained_in s l = retained_in s l'.
Proof. unfold retained_in. by intros ->. Qed.

Lemma retained_in_cons s a l :
  retained_in s (a :: l)
  = ((if address_hasProxy s a then 1 else 0) + retained_in s l)%nat.
Proof.
  unfold retained_in. rewrite filter_cons.
  destruct (address_hasProxy s a); simpl; done.
Qed.

Lemma retained_in_same s s' l :
  heap s' = heap s -> runtime s' = runtime s -> retained_in s' l = retained_in s l.
Proof.
  intros Hh Hr. unfold retained_in.
  induction l as [|a l IH]; [done|]. rewrite !filter_cons.
  assert (address_hasProxy s' a = address_hasProxy s a) as ->
    by (unfold address_hasProxy; by rewrite Hh, Hr).
  destruct (decide (address_hasProxy s a)); simpl; lia.
Qed.

Lemma values_delete (m : gmap string nat) iid a :
  m !! iid = Some a -> values m ≡ₚ a :: values (base.delete iid m).
Proof.
  intros Hm. unfold values. by rewrite <- (map_to_list_delete m iid a Hm).
Qed.

Lemma length_values (m : gmap string nat) : length (values m) = size m.
Proof. unfold values. by rewrite length_fmap, length_map_to_list. Qed.

Lemma handle_hasProxy_address s iid a :
  handles s !! iid = Some a -> handle_hasProxy s iid = address_hasProxy s a.
Proof. unfold handle_hasProxy, address_hasProxy. by intros ->. Qed.

(** The statistics of a store.  No more objects are retained than are
    managed.  A [delete] that throws leaves both counts; one that returns
    leaves [retainedObjects], and takes one from [managedObjects] exactly
    when the instance ID had a handle, which is when it emits [unmanaged].
    [dereference] leaves [managedObjects], and when it returns at least one
    object is retained. *)
Theorem stats_of_delete :
  (forall s, (retainedObjects s <= managedObjects s)%nat) /\
  (forall ref s e s', delete ref s = (Throws e, s') ->
     managedObjects s' = managedObjects s /\ retainedObjects s' = retainedObjects s) /\
  (forall ref s u s', delete ref s = (Returns u, s') ->
     retainedObjects s' = retainedObjects s /\
     (is_Some (handles s !! TOKEN_REF ref) ->
      S (managedObjects s') = managedObjects s /\
      events s' = (events s ++ [Unmanaged (TOKEN_REF ref)])%list) /\
     (handles s !! TOKEN_REF ref = None ->
      managedObjects s' = managedObjects s /\ events s' = events s)) /\
  (forall ref s r s', dereference ref s = (r, s') ->
     managedObjects s' = managedObjects s /\
     forall v, r = Returns v -> (0 < retainedObjects s')%nat).
Proof.
  split_and!.
  - intros s. unfold retainedObjects, managedObjects.
    rewrite <- length_values. apply length_filter.
  - intros ref s e s'. open_delete.
    destruct (handle_hasProxy s (TOKEN_REF ref)); [by intros [= _ <-]|].
    by destruct (bool_decide _).
  - intros ref s u s'. open_delete.
    destruct (handle_hasProxy s (TOKEN_REF ref)) eqn:Hp; [done|].
    destruct (handles s !! TOKEN_REF ref) as [a|] eqn:Ha.
    + rewrite bool_decide_eq_true_2 by eauto. intros [= _ <-].
      rewrite (handle_hasProxy_address _ _ _ Ha) in Hp.
      split_and!.
      * change (retainedObjects ?t) with (retained_in t (values (handles t))).
        cbn [handles]. rewrite (retained_in_same s) by done.
        rewrite (retained_in_perm s _ _ (values_delete _ _ _ Ha)), retained_in_cons.
        by rewrite Hp.
      * intros _. split; [|done]. unfold managedObjects. simpl.
        rewrite map_size_delete_Some by eauto.
        pose proof (map_size_ne_0_lookup_2 (handles s) (TOKEN_REF ref) (mk_is_Some _ _ Ha)). lia.
      * intros ?. congruence.
    + rewrite bool_decide_eq_false_2 by (by intros [? ?]). intros [= _ <-].
      unfold retainedObjects, managedObjects. simpl.
      rewrite delete_id by done. split_and!; try done.
  - intros ref s r s' Hd. apply dereference_cases in Hd.
    inversion Hd as [| |a h p h2 rt2 Ha Hh Hp]; subst; [done..|].
    split; [done|]. intros v _.
    apply proxy_spec in Hp as (p' & _ & Hex & _).
    change (retainedObjects ?t) with (retained_in t (values (handles t))).
    cbn [handles set_runtime set_heap].
    rewrite (retained_in_perm _ _ _ (values_delete _ _ _ Ha)), retained_in_cons.
    unfold address_hasProxy. simpl.
    rewrite list_lookup_insert_eq by (by eapply lookup_lt_Some).
    unfold hasProxy. rewrite Hex. lia.
Qed.

End KernelMore.

(** ** The interface collection *)

Section ICMore.

Import Handle.

Variable types : gmap string IC.TypeInfo.

(** The errors of the interface collection: a name that does not resolve,
    and a type of the wrong kind. *)
Definition resolution_error (e : Error) : Prop :=
  e = TypeNotFound \/ e = InvalidType.

Definition resolution_error_or_overflow (e : Error) : Prop :=
  resolution_error e \/ e = StackOverflow.

Lemma forM_throws {S A} (P : Error -> Prop) (body : A -> M S unit) xs :
  (forall x s e s', x ∈ xs -> body x s = (Throws e, s') -> P e) ->
  forall s e s', forM_ xs body s = (Throws e, s') -> P e.
Proof.
  induction xs as [|x xs IH]; intros Hbody s e s' Hrun; simpl in Hrun; [done|].
  apply bind_inv in Hrun as [(e' & H1 & [= ->])|(a & s1 & H1 & H2)].
  - eapply Hbody; [by left|exact H1].
  - eapply IH; [|exact H2]. intros y t e' t' Hy. apply Hbody. by right.
Qed.

Lemma addFromInterface_errors fuel fqn V e V' :
  IC.addFromInterface types fuel fqn V = (Throws e, V') ->
  resolution_error_or_overflow e.
Proof.
  revert fqn V e V'. induction fuel as [|fuel IH]; intros fqn V e V'; simpl.
  - intros [= <- _]. by right.
  - unfold bind at 1. unfold IC.resolveType.
    destruct (types !! fqn) as [ti|] eqn:Hti; [|intros [= <- _]; left; by left].
    unfold ret at 1.
    destruct (negb (IC.isInterfaceType ti)); [intros [= <- _]; left; by right|].
    destruct (IC.interfaces ti) as [ifaces|]; [|done].
    apply forM_throws. intros i W e0 W' _.
    unfold bind, gets, modify, ret. simpl.
    destruct (set_has i W); [done|]. apply IH.
Qed.

Lemma addFromInterface_resolution_error fqn V e V' :
  IC.addFromInterface types (IC.interface_fuel types) fqn V = (Throws e, V') ->
  resolution_error e.
Proof.
  intros Hrun. destruct (addFromInterface_errors _ _ _ _ _ Hrun) as [He| ->]; [done|].
  exfalso. apply (addFromInterface_total types fqn V). by rewrite Hrun.
Qed.

(** Walking the interfaces always ends, also when interfaces extend one
    another in a circle: [addFromInterface], and with it [mergeInterfaces],
    either returns or throws because a name does not resolve or resolves
    to a type that is no interface; a name that does not resolve and a
    class in the place of an interface are reported as such, with the
    collection as it was. *)
Theorem interface_walk_ends :
  (forall fqn V e V',
     IC.addFromInterface types (IC.interface_fuel types) fqn V = (Throws e, V') ->
     e = TypeNotFound \/ e = InvalidType) /\
  (forall S h e h',
     mergeInterfaces types S h = (Throws e, h') ->
     e = TypeNotFound \/ e = InvalidType) /\
  (forall fqn V,
     types !! fqn = None ->
     IC.addFromInterface types (IC.interface_fuel types) fqn V
     = (Throws TypeNotFound, V)) /\
  (forall fqn ti V,
     types !! fqn = Some ti -> IC.isInterfaceType ti = false ->
     IC.addFromInterface types (IC.interface_fuel types) fqn V
     = (Throws InvalidType, V)).
Proof.
  split_and!.
  - apply addFromInterface_resolution_error.
  - intros S h e h'. unfold mergeInterfaces.
    destruct (length S =? 0)%nat; [done|].
    intros Hrun. apply bind_inv in Hrun as [(e' & Hloop & [= ->])|(u & h1 & _ & Hmin)];
      [|done].
    revert Hloop. apply (forM_throws resolution_error). intros fqn t e0 t' _ Hbody.
    apply bind_inv in Hbody as [(e1 & Hprov & [= ->])|(u & t1 & _ & Hadd)]; [|done].
    unfold provide in Hprov.
    destruct (IC.addFromInterface types (IC.interface_fuel types) fqn
                (providedInterfaces t)) as [r V'] eqn:Hrun.
    injection Hprov as -> _. by eapply addFromInterface_resolution_error.
  - intros fqn V Hn. unfold IC.interface_fuel. simpl.
    unfold bind, IC.resolveType. by rewrite Hn.
  - intros fqn ti V Hti Hk. unfold IC.interface_fuel. simpl.
    unfold bind, IC.resolveType. rewrite Hti. unfold ret. by rewrite Hk.
Qed.

(** Two interfaces that extend each other. *)
Definition types_circle : gmap string IC.TypeInfo :=
  <["IA" := IC.mkType IC.KInterface None (Some ["IB"])]>
  (<["IB" := IC.mkType IC.KInterface None (Some ["IA"])]>
  (<["X" := IC.mkType IC.KClass None None]> ∅)).

Example interface_circle :
  IC.addFromInterface types_circle (IC.interface_fuel types_circle) "IA" []
  = (Returns tt, ["IB"; "IA"]).
Proof. vm_compute. reflexivity. Qed.

(** The class [c] has a base class, which has a base class, and so on
    without end: every class of the chain resolves to a class with a base. *)
Definition endless_bases (c : string) : Prop :=
  forall c', rtc (base_step types) c c' ->
    exists ti d, types !! c' = Some ti /\ IC.isClassType ti = true /\
                 IC.base ti = Some d /\ d <> "".

Lemma addFromClass_endless fuel c V :
  endless_bases c -> fst (IC.addFromClass types fuel c V) = Throws StackOverflow.
Proof.
  revert c V. induction fuel as [|fuel IH]; intros c V Hend; [done|].
  destruct (Hend c (rtc_refl _ _)) as (ti & d & Hti & Hk & Hb & Hd).
  simpl. unfold bind at 1. unfold IC.resolveType. rewrite Hti. unfold ret at 1.
  rewrite Hk. simpl. unfold bind at 1. rewrite Hb.
  rewrite bool_decide_eq_false_2 by done.
  assert (endless_bases d) as Hend'.
  { intros c' Hc'. apply Hend. eapply rtc_l; [|exact Hc']. by exists ti. }
  specialize (IH d V Hend').
  by destruct (IC.addFromClass types fuel d V) as [[u|e] V1]; simpl in *; subst.
Qed.

End ICMore.

(** A base chain without end never lets the recursion of [addFromClass]
    return, however deep it may go: the collection of such a class cannot
    be built, and the constructor of a handle for it throws, after it drew
    its number from the sequence. *)
Theorem endless_base_chain (types : gmap string IC.TypeInfo) (c : string) :
  endless_bases types c ->
  (forall fuel V, fst (IC.addFromClass types fuel c V) = Throws StackOverflow) /\
  (c <> IC.EMPTY_OBJECT_FQN -> IC.new types c = Throws StackOverflow) /\
  (c <> IC.EMPTY_OBJECT_FQN -> forall x f q,
     Handle.new types c x f q
     = (Throws StackOverflow,
        {| Seq.stride := Seq.stride q;
           Seq.nextValue := js_add (Seq.nextValue q) (Seq.stride q) |})).
Proof.
  intros Hend.
  assert (c <> IC.EMPTY_OBJECT_FQN -> IC.new types c = Throws StackOverflow) as Hnew.
  { intros Hc. unfold IC.new. rewrite bool_decide_eq_false_2 by done.
    pose proof (addFromClass_endless types (IC.class_fuel types) c [] Hend) as H.
    destruct (IC.addFromClass types (IC.class_fuel types) c []) as [[u|e] V];
      simpl in *; congruence. }
  split_and!; [|done|].
  - intros fuel V. by apply addFromClass_endless.
  - intros Hc x f q. unfold Handle.new, bind, Seq.next. by rewrite Hnew.
Qed.

(** Two classes that are the base of each other. *)
Definition types_base_circle : gmap string IC.TypeInfo :=
  <["A" := IC.mkType IC.KClass (Some "B") None]>
  (<["B" := IC.mkType IC.KClass (Some "A") None]> ∅).

Lemma endless_base_chain_witness :
  IC.new types_base_circle "A" = Throws StackOverflow.
Proof.
  refine (proj1 (proj2 (endless_base_chain types_base_circle "A" _)) _); [|done].
  assert (forall c', rtc (base_step types_base_circle) "A" c' -> c' = "A" \/ c' = "B")
    as Hreach.
  { intros c' Hc.
    assert (forall a b, rtc (base_step types_base_circle) a b ->
              (a = "A" \/ a = "B") -> b = "A" \/ b = "B") as Hall.
    { induction 1 as [a|a b c0 (ti & Hti & Hb & _) _ IH]; [done|].
      intros [-> | ->]; apply IH; vm_compute in Hti; injection Hti as <-;
        injection Hb as <-; auto. }
    apply (Hall "A" c' Hc). by left. }
  intros c' Hc. destruct (Hreach c' Hc) as [-> | ->].
  - exists (IC.mkType IC.KClass (Some "B") None), "B". by vm_compute.
  - exists (IC.mkType IC.KClass (Some "A") None), "A". by vm_compute.
Defined.

(** ** The interfaces of a reference *)

Section InterfacesMore.

Import Handle.

(** The order of [sort()]. *)
Definition string_le (a b : string) : Prop := String.leb a b = true.

Lemma ascii_compare_refl a : Ascii.compare a a = Eq.
Proof. unfold Ascii.compare. apply N.compare_refl. Qed.

Lemma ascii_compare_lt_trans a b c :
  Ascii.compare a b = Lt -> Ascii.compare b c = Lt -> Ascii.compare a c = Lt.
Proof.
  unfold Ascii.compare. rewrite !N.compare_lt_iff. apply N.lt_trans.
Qed.

Lemma string_compare_refl s : String.compare s s = Eq.
Proof. induction s as [|a s IH]; [done|]. simpl. by rewrite ascii_compare_refl. Qed.

Lemma string_compare_lt_trans s1 s2 s3 :
  String.compare s1 s2 = Lt -> String.compare s2 s3 = Lt -> String.compare s1 s3 = Lt.
Proof.
  revert s2 s3. induction s1 as [|a s1 IH]; intros [|b s2] [|c s3]; simpl; try done.
  destruct (Ascii.compare a b) eqn:Hab; destruct (Ascii.compare b c) eqn:Hbc; try done.
  - apply Ascii.compare_eq_iff in Hab as ->. apply Ascii.compare_eq_iff in Hbc as ->.
    rewrite ascii_compare_refl. apply IH.
  - apply Ascii.compare_eq_iff in Hab as ->. by rewrite Hbc.
  - apply Ascii.compare_eq_iff in Hbc as <-. by rewrite Hab.
  - by rewrite (ascii_compare_lt_trans _ _ _ Hab Hbc).
Qed.

Lemma string_le_compare a b : string_le a b <-> String.compare a b <> Gt.
Proof.
  unfold string_le, String.leb. destruct (String.compare a b); split; congruence.
Qed.

#[local] Instance string_le_trans : Transitive string_le.
Proof.
  intros a b c. rewrite !string_le_compare. intros Hab Hbc.
  destruct (String.compare a b) eqn:H1; [|clear Hab|done].
  - by apply String.compare_eq_iff in H1 as ->.
  - destruct (String.compare b c) eqn:H2; [| |done].
    + apply String.compare_eq_iff in H2 as <-. by rewrite H1.
    + by rewrite (string_compare_lt_trans _ _ _ H1 H2).
Qed.

#[local] Instance string_le_antisym : AntiSymm eq string_le.
Proof. intros a b. apply String.leb_antisym. Qed.

Lemma sort_insert_perm x l : sort_insert x l ≡ₚ x :: l.
Proof.
  induction l as [|y l IH]; [done|]. simpl.
  destruct (String.leb x y); [done|]. rewrite IH. apply perm_swap.
Qed.

Lemma sort_strings_perm l : sort_strings l ≡ₚ l.
Proof.
  induction l as [|x l IH]; [done|]. simpl. by rewrite sort_insert_perm, IH.
Qed.

Lemma Sorted_sort_insert x l : Sorted string_le l -> Sorted string_le (sort_insert x l).
Proof.
  induction 1 as [|y l Hs IH Hhd]; simpl; [by repeat constructor|].
  destruct (String.leb x y) eqn:Hxy.
  - constructor; [by constructor|]. by constructor.
  - constructor; [done|].
    assert (string_le y x) as Hyx.
    { destruct (String.leb_total x y) as [H|H]; [congruence|done]. }
    destruct Hhd as [|z l Hyz]; simpl; [by constructor|].
    destruct (String.leb x z); by constructor.
Qed.

Lemma Sorted_sort_strings l : Sorted string_le (sort_strings l).
Proof.
  induction l as [|x l IH]; simpl; [constructor|]. by apply Sorted_sort_insert.
Qed.

(** The interfaces that a reference announces are the declared ones, each
    once, in increasing order, whatever the order in which they were
    declared or merged: two handles that declare the same interfaces
    announce the same list.  The list is left out exactly when nothing is
    declared. *)
Theorem interfaces_canonical :
  (forall h, Sorted string_le (interfaces h) /\ interfaces h ≡ₚ declaredInterfaces h) /\
  (forall h h',
     declaredInterfaces h ≡ₚ declaredInterfaces h' ->
     interfaces h = interfaces h' /\
     TOKEN_INTERFACES (objRef h) = TOKEN_INTERFACES (objRef h')) /\
  (forall h,
     (declaredInterfaces h = [] -> TOKEN_INTERFACES (objRef h) = None) /\
     (declaredInterfaces h <> [] ->
      TOKEN_INTERFACES (objRef h) = Some (interfaces h))).
Proof.
  assert (forall h h', declaredInterfaces h ≡ₚ declaredInterfaces h' ->
            interfaces h = interfaces h') as Hcanon.
  { intros h h' Hp. unfold interfaces.
    apply (Sorted_unique string_le); [apply Sorted_sort_strings..|].
    by rewrite !sort_strings_perm. }
  split_and!.
  - intros h. split; [apply Sorted_sort_strings|apply sort_strings_perm].
  - intros h h' Hp. split; [by apply Hcanon|].
    unfold objRef. simpl. by rewrite (Hcanon h h' Hp).
  - intros h. unfold objRef. simpl.
    pose proof (Permutation_length (sort_strings_perm (declaredInterfaces h))) as Hlen.
    fold (interfaces h) in Hlen. split.
    + intros Hd. rewrite Hd in Hlen. simpl in Hlen.
      by destruct (interfaces h).
    + intros Hd. destruct (declaredInterfaces h); [done|].
      by destruct (interfaces h).
Qed.

Lemma interfaces_canonical_witness :
  let h (d : list string) :=
    {| classFQN := "X"; instanceId := "X@10000"; object := Plain 0;
       proxyReference := None; declaredInterfaces := d; providedInterfaces := [] |} in
  interfaces (h ["IB"; "IA"]) = interfaces (h ["IA"; "IB"]) /\
  TOKEN_INTERFACES (objRef (h ["IB"; "IA"])) = TOKEN_INTERFACES (objRef (h ["IA"; "IB"])).
Proof.
  apply (proj1 (proj2 interfaces_canonical)). simpl. apply perm_swap.
Defined.

End InterfacesMore.

(** ** The host reference table, continued *)

Section HostMore.

Import Host.

(** Registering an instance ID that the table does not know stores the
    object: [getObject] gives it back.  Registering the ID again, with
    whatever object, changes nothing, the first object stays; and after
    [release] the object is still found, as long as it was not reclaimed,
    and [retain] puts the table back as it was. *)
Theorem host_register_keeps_first (s : ObjectStore) (o o2 : nat) (id : string) :
  objectsById s !! id = None ->
  exists s1,
    register o id s = (Returns tt, s1) /\
    getObject id s1 = (Returns (Some o), s1) /\
    register o2 id s1 = (Returns tt, s1) /\
    exists s2,
      release id s1 = (Returns tt, s2) /\
      getObject id s2 = (Returns (Some o), s2) /\
      retain id s2 = (Returns tt, s1).
Proof.
  intros Hid. unfold register at 1. rewrite Hid.
  set (h := {| instanceId := id; weakReference := length (references s);
               strongReference := Some o |}).
  set (s1 := {| objectsById := <[id:=h]> (objectsById s);
                referenceQueue := referenceQueue s;
                referenceInstanceId := <[length (references s):=id]> (referenceInstanceId s);
                references := references s ++ [Some o] |}).
  assert (objectsById s1 !! id = Some h) as Hh by apply lookup_insert_eq.
  assert (weak_get s1 (weakReference h) = Some o) as Hw.
  { unfold weak_get. simpl. by rewrite lookup_snoc_length. }
  assert (set_objectsById (<[id:=h]> (objectsById s1)) s1 = s1) as Hsame.
  { unfold set_objectsById, s1. simpl. by rewrite insert_insert_eq. }
  exists s1. split_and!.
  - done.
  - unfold getObject, gets. by rewrite Hh.
  - unfold register. rewrite Hh. unfold handle_retain. rewrite Hw.
    change (set_strong (Some o) h) with h. by rewrite Hsame.
  - eexists. split_and!.
    + unfold release. rewrite Hh. reflexivity.
    + unfold getObject, gets. simpl. rewrite lookup_insert_eq.
      unfold getReferent. simpl. unfold weak_get. simpl.
      by rewrite lookup_snoc_length.
    + unfold retain. simpl. rewrite lookup_insert_eq. unfold handle_retain.
      simpl. unfold weak_get. simpl. rewrite lookup_snoc_length.
      unfold set_objectsById. simpl. rewrite !insert_insert_eq. done.
Qed.

Lemma host_register_keeps_first_witness :
  exists s1,
    register 1 "A@1" Host.new = (Returns tt, s1) /\
    getObject "A@1" s1 = (Returns (Some 1%nat), s1) /\
    register 2 "A@1" s1 = (Returns tt, s1).
Proof.
  destruct (host_register_keeps_first Host.new 1 2 "A@1") as (s1 & H1 & H2 & H3 & _);
    [reflexivity|].
  exists s1. split; [exact H1|]. split; [exact H2|exact H3].
Defined.

(** An instance ID that the table does not know: [release] and [retain]
    throw and change nothing.  An instance ID whose object was reclaimed
    and that no drain has removed yet: [retain] throws, and so does
    [register], whatever object it is given; the handle is left without
    strong reference, [getObject] gives [null]. *)
Theorem host_reclaimed_or_unknown :
  (forall s id,
     objectsById s !! id = None ->
     release id s = (Throws NullPointer, s) /\
     retain id s = (Throws NullPointer, s)) /\
  (forall s id h,
     objectsById s !! id = Some h -> weak_get s (weakReference h) = None ->
     let s' := set_objectsById (<[id := set_strong None h]> (objectsById s)) s in
     retain id s = (Throws IllegalState, s') /\
     (forall o, register o id s = (Throws IllegalState, s')) /\
     getObject id s' = (Returns None, s')).
Proof.
  split.
  - intros s id Hid. unfold release, retain. by rewrite Hid.
  - intros s id h Hid Hw s'. split_and!.
    + unfold retain, handle_retain. by rewrite Hid, Hw.
    + intros o. unfold register, handle_retain. by rewrite Hid, Hw.
    + unfold getObject, gets. simpl. rewrite lookup_insert_eq.
      unfold getReferent. simpl. exact (f_equal (fun x => (Returns x, s')) Hw).
Qed.

Lemma host_reclaimed_or_unknown_witness :
  fst (register 2 "A@1" table_dropped) = Throws IllegalState.
Proof.
  pose (h := {| instanceId := "A@1"; weakReference := 0; strongReference := None |}).
  destruct (proj2 host_reclaimed_or_unknown table_dropped "A@1" h) as (_ & H & _);
    [vm_compute; reflexivity|vm_compute; reflexivity|].
  by rewrite (H 2%nat).
Defined.

(** *** Objects that the table holds strongly *)

(** A handle that holds its object strongly has a weak reference to that
    same object, and the references in the queue have been cleared. *)
Record hlive (s : ObjectStore) : Prop := mkHlive {
  hlive_strong : forall id h o,
    objectsById s !! id = Some h -> strongReference h = Some o ->
    references s !! weakReference h = Some (Some o);
  hlive_queue : forall r, r ∈ referenceQueue s -> references s !! r = Some None
}.

Lemma hlive_new : hlive Host.new.
Proof.
  split; simpl.
  - intros id h o H. by rewrite lookup_empty in H.
  - intros r H. by apply elem_of_nil in H.
Qed.

Lemma weak_get_Some s r o :
  weak_get s r = Some o -> references s !! r = Some (Some o).
Proof.
  unfold weak_get. destruct (references s !! r) as [[o'|]|]; congruence.
Qed.

Lemma hlive_handle_retain id h s :
  hlive s -> objectsById s !! id = Some h -> hlive (snd (handle_retain id h s)).
Proof.
  intros [H1 H2] Hid. unfold handle_retain.
  destruct (weak_get s (weakReference h)) as [o|] eqn:Hw; simpl; split; simpl; try done.
  - intros id' h' o'. destruct (decide (id = id')) as [<-|Hne].
    + rewrite lookup_insert_eq. intros [= <-]. simpl. intros [= <-].
      by apply weak_get_Some.
    + rewrite lookup_insert_ne by done. apply H1.
  - intros id' h' o'. destruct (decide (id = id')) as [<-|Hne].
    + rewrite lookup_insert_eq. by intros [= <-].
    + rewrite lookup_insert_ne by done. apply H1.
Qed.

(** What a drain leaves of the table. *)
Lemma drain_keeps queue result s :
  let s' := snd (drain queue result s) in
  references s' = references s /\
  (forall r, r ∈ referenceQueue s' -> r ∈ queue \/ r ∈ referenceQueue s) /\
  (forall id h, objectsById s' !! id = Some h -> objectsById s !! id = Some h) /\
  (forall id,
     (forall r, r ∈ queue -> referenceInstanceId s !! r <> Some id) ->
     objectsById s' !! id = objectsById s !! id).
Proof.
  revert result s. induction queue as [|r queue IH]; intros result s; simpl.
  { split_and!; auto. }
  destruct (referenceInstanceId s !! r) as [id0|] eqn:Hr.
  - match goal with |- context [drain queue ?res ?t] =>
      destruct (IH res t) as (Hrefs & Hq & Hobj & Hkeep) end.
    simpl in *. split_and!.
    + done.
    + intros r' Hr'. left. apply Hq in Hr' as [Hr'|Hr']; by right.
    + intros id h Hh. apply Hobj in Hh. by apply lookup_delete_Some in Hh as [_ Hh].
    + intros id Hn. rewrite Hkeep.
      * apply lookup_delete_ne. intros ->. by apply (Hn r); [left|].
      * intros r' Hr' Hl. apply lookup_delete_Some in Hl as [_ Hl].
        by apply (Hn r'); [right|].
  - match goal with |- context [drain queue ?res ?t] =>
      destruct (IH res t) as (Hrefs & Hq & Hobj & Hkeep) end.
    simpl in *. split_and!.
    + done.
    + intros r' Hr'. left. apply Hq in Hr' as [Hr'|Hr']; by right.
    + done.
    + intros id Hn. rewrite Hkeep; [done|].
      intros r' Hr' Hl. apply lookup_delete_Some in Hl as [_ Hl].
      by apply (Hn r'); [right|].
Qed.

Lemma hlive_drain s :
  hlive s -> hlive (snd (drain (referenceQueue s) ∅ s)).
Proof.
  intros [H1 H2].
  destruct (drain_keeps (referenceQueue s) ∅ s) as (Hrefs & Hq & Hobj & _).
  split.
  - intros id h o Hh Hs. rewrite Hrefs. eapply H1; [|exact Hs]. by apply Hobj.
  - intros r Hr. rewrite Hrefs. apply H2. by destruct (Hq r Hr).
Qed.

Lemma elem_of_refs_to r o cells :
  r ∈ refs_to o cells -> cells !! r = Some (Some o).
Proof.
  unfold refs_to. intros Hr.
  apply list_elem_of_fmap in Hr as ([i c] & -> & Hin).
  apply list_elem_of_filter in Hin as [Hc Hin]. simpl in Hc. subst c.
  apply elem_of_lookup_imap_1 in Hin as (j & c & [= -> ->] & Hj). done.
Qed.

Lemma hlive_step op s : hlive s -> hlive (step op s).
Proof.
  intros Hl. destruct op as [o id|id|id|id| |o]; simpl.
  - unfold register. destruct (objectsById s !! id) as [h|] eqn:Hid.
    + by apply hlive_handle_retain.
    + destruct Hl as [H1 H2]. split; simpl.
      * intros id' h' o'. destruct (decide (id = id')) as [<-|Hne].
        -- rewrite lookup_insert_eq. intros [= <-]. simpl. intros [= <-].
           apply lookup_snoc_length.
        -- rewrite lookup_insert_ne by done. intros Hh' Hs.
           apply lookup_app_l_Some. by eapply H1.
      * intros r Hr. apply lookup_app_l_Some. by apply H2.
  - done.
  - unfold release. destruct (objectsById s !! id) as [h|] eqn:Hid; [|done].
    destruct Hl as [H1 H2]. split; simpl; [|done].
    intros id' h' o'. destruct (decide (id = id')) as [<-|Hne].
    + rewrite lookup_insert_eq. by intros [= <-].
    + rewrite lookup_insert_ne by done. apply H1.
  - unfold retain. destruct (objectsById s !! id) as [h|] eqn:Hid; [|done].
    by apply hlive_handle_retain.
  - unfold getDroppedReferences.
    pose proof (hlive_drain s Hl) as Hd.
    by destruct (drain (referenceQueue s) ∅ s).
  - unfold gc_reclaim. destruct (strongly_held s o) eqn:Hheld; [done|].
    apply bool_decide_eq_false in Hheld.
    destruct Hl as [H1 H2]. split; simpl.
    + intros id h o' Hh Hs. rewrite list_lookup_fmap, (H1 _ _ _ Hh Hs). simpl.
      rewrite bool_decide_eq_false_2; [done|].
      intros [= ->]. apply Hheld. eauto.
    + intros r Hr. rewrite list_lookup_fmap.
      apply elem_of_app in Hr as [Hr|Hr].
      * by rewrite (H2 _ Hr).
      * rewrite (elem_of_refs_to _ _ _ Hr). simpl.
        by rewrite bool_decide_eq_true_2.
Qed.

Lemma hlive_run ops s : hlive s -> hlive (run ops s).
Proof.
  revert s. induction ops as [|op ops IH]; intros s Hl; simpl; [done|].
  apply IH. by apply hlive_step.
Qed.

(** An object that the table holds strongly is not given up.  In a table
    reached from a new one, for an instance ID whose handle holds its
    object strongly, [getObject] gives that object, and
    [getDroppedReferences] does not report the ID and leaves its handle:
    [getObject] gives the object after the drain as well. *)
Theorem host_retained_not_dropped (ops : list Op) (id : string)
    (h : ObjectHandle) (o : nat) :
  let s := run ops Host.new in
  objectsById s !! id = Some h -> strongReference h = Some o ->
  getObject id s = (Returns (Some o), s) /\
  exists result s',
    getDroppedReferences s = (Returns result, s') /\
    (id ∉ result) /\
    objectsById s' !! id = Some h /\
    getObject id s' = (Returns (Some o), s').
Proof.
  intros s Hh Hs.
  assert (hwf s) as Hwf by apply hwf_run, hwf_new.
  assert (hlive s) as Hl by apply hlive_run, hlive_new.
  split; [unfold getObject, gets, getReferent; by rewrite Hh, Hs|].
  assert (forall r, r ∈ referenceQueue s -> referenceInstanceId s !! r <> Some id)
    as Hnot.
  { intros r Hr Hid. destruct (hwf_ref s Hwf _ _ Hid) as (h' & Hh' & Hw).
    assert (h' = h) as -> by congruence. subst r.
    pose proof (hlive_strong s Hl _ _ _ Hh Hs) as Halive.
    pose proof (hlive_queue s Hl _ Hr) as Hdead. congruence. }
  unfold getDroppedReferences.
  destruct (drain (referenceQueue s) ∅ s) as [result s'] eqn:Hd.
  exists result, s'. split; [done|].
  destruct (drain_keeps (referenceQueue s) ∅ s) as (_ & _ & _ & Hkeep).
  rewrite Hd in Hkeep. simpl in Hkeep.
  assert (objectsById s' !! id = Some h) as Hh' by (by rewrite Hkeep).
  split_and!.
  - intros Hin. apply drain_spec in Hd as (_ & _ & Hres).
    apply Hres in Hin as [Hin|(_ & Hgone)]; [set_solver|]. congruence.
  - done.
  - unfold getObject, gets, getReferent. by rewrite Hh', Hs.
Qed.

Lemma host_retained_not_dropped_witness :
  let s := run [ORegister 1 "A@1"; OReclaim 1] Host.new in
  getObject "A@1" s = (Returns (Some 1%nat), s) /\
  exists result s',
    getDroppedReferences s = (Returns result, s') /\
    ("A@1" ∉ result) /\
    getObject "A@1" s' = (Returns (Some 1%nat), s').
Proof.
  destruct (host_retained_not_dropped [ORegister 1 "A@1"; OReclaim 1] "A@1"
              {| instanceId := "A@1"; weakReference := 0;
                 strongReference := Some 1%nat |} 1%nat)
    as (H1 & result & s' & H2 & H3 & _ & H4);
    [vm_compute; reflexivity|reflexivity|].
  split; [exact H1|]. exists result, s'. split; [exact H2|]. split; [exact H3|exact H4].
Defined.

End HostMore.
